(** * Heading trees, ordered chapter numbers and the table of contents
    of [mkdocs_with_pdf/toc.py]

    The development embeds [toc.py] function by function.  The document is
    a BeautifulSoup object graph: it is modelled as a store of page
    elements addressed by reference, with bs4's parent pointers, so that
    [insert], [append] and the aliasing between the heading tree and the
    document behave as they do in Python.  Effects are threaded by a small
    monad: the store is the state, Python exceptions are the errors and
    the records sent to [options.logger] are the output. *)

From Stdlib Require Import ZArith Ascii String.
From stdpp Require Import base option list strings pretty.

#[local] Set Warnings "-register-all".

Set Default Proof Using "Type".

(** ** Python values *)

(** A reference to a Python object: for page elements, an index into the
    store of the document; for heading-tree objects, an index into the
    collector's heap. *)
Abbreviation ref := nat (only parsing).

Inductive exn :=
| AssertionError (cond : string)
| IndexError
| AttributeError
| TypeError
| ValueError.

(** What [options.logger] receives.  The two debug records carry the
    pieces their f-strings are formatted from: rendering an element as
    text is bs4's business. *)
Inductive LogRecord :=
| LogWarning (msg : string)
| LogInfo (msg : string)
| LogDebugOrder (prefix_str : string) (element : ref) (id : string)
| LogDebugLink (h : ref) (href : string).

(** ** The document store *)

(** A bs4 page element.  A [Tag] has a [name]; a [NavigableString] has
    [name = None] and carries its [text]. *)
Record Tag := mkTag {
  name : option string;
  attrs : list (string * string);
  text : string;
  contents : list ref;
  parent : option ref
}.

(** The store holds every page element created so far; the
    [BeautifulSoup] object itself is element [0]. *)
Abbreviation Soup := (list Tag) (only parsing).

Definition soup_root : ref := 0.

Definition no_tag : Tag := mkTag None [] "" [] None.

Definition tag_of (s : Soup) (r : ref) : Tag := default no_tag (s !! r).

Definition with_contents (cs : list ref) (t : Tag) : Tag :=
  mkTag (name t) (attrs t) (text t) cs (parent t).

Definition with_parent (p : option ref) (t : Tag) : Tag :=
  mkTag (name t) (attrs t) (text t) (contents t) p.

(** ** The monad: store, exceptions, log *)

Definition M (A : Type) : Type := Soup → (exn + A) * Soup * list LogRecord.

Definition ret {A} (a : A) : M A := λ s, (inr a, s, []).

Definition raise {A} (e : exn) : M A := λ s, (inl e, s, []).

Definition bind {A B} (m : M A) (f : A → M B) : M B := λ s,
  match m s with
  | (inr a, s1, l1) => let '(r, s2, l2) := f a s1 in (r, s2, l1 ++ l2)
  | (inl e, s1, l1) => (inl e, s1, l1)
  end.

Notation "'let*' x ':=' m 'in' k" := (bind m (λ x, k))
  (at level 10, x binder, m at level 100, k at level 200).

Definition log (r : LogRecord) : M unit := λ s, (inr tt, s, [r]).

Definition get_soup : M Soup := λ s, (inr s, s, []).

Definition modify (f : Soup → Soup) : M unit := λ s, (inr tt, f s, []).

Definition get_tag (r : ref) : M Tag := λ s, (inr (tag_of s r), s, []).

Definition py_assert (b : bool) (cond : string) : M unit :=
  if b then ret tt else raise (AssertionError cond).

(** [for x in l: body x] *)
Definition for_each {A} (body : A → M unit) : list A → M unit :=
  fix go l :=
    match l with
    | [] => ret tt
    | x :: l' => let* _ := body x in go l'
    end.

(** A [for] loop that updates local variables, gathered in [acc]. *)
Fixpoint for_fold {A B} (body : B → A → M B) (acc : B) (l : list A) : M B :=
  match l with
  | [] => ret acc
  | x :: l' => let* acc' := body acc x in for_fold body acc' l'
  end.

(** [l[i]] and [l[i] = x] on a Python list, for a non-negative [i]. *)
Definition list_getitem {A} (l : list A) (i : nat) : M A :=
  match l !! i with
  | Some x => ret x
  | None => raise IndexError
  end.

Definition list_setitem {A} (l : list A) (i : nat) (x : A) : M (list A) :=
  if decide (i < length l) then ret (<[i:=x]> l) else raise IndexError.

(** ** bs4 *)

(** [soup.new_tag(name, **attrs)] and [soup.new_string(s)]: a new element,
    attached to nothing. *)
Definition new_tag (nm : string) (kwattrs : list (string * string)) : M ref := λ s,
  (inr (length s), s ++ [mkTag (Some nm) kwattrs "" [] None], []).

Definition new_string (str : string) : M ref := λ s,
  (inr (length s), s ++ [mkTag None [] str [] None], []).

(** [del l[l.index(x)]] *)
Fixpoint remove_first (x : ref) (l : list ref) : list ref :=
  match l with
  | [] => []
  | y :: l' => if decide (y = x) then l' else y :: remove_first x l'
  end.

(** [l.index(x)], for an [x] that occurs in [l]. *)
Fixpoint index_of (x : ref) (l : list ref) : nat :=
  match l with
  | [] => 0
  | y :: l' => if decide (y = x) then 0 else S (index_of x l')
  end.

(** [el.extract()]: unlink [el] from its parent, if it has one. *)
Definition extract (el : ref) : M unit := λ s,
  match parent (tag_of s el) with
  | None => (inr tt, s, [])
  | Some p =>
      let s1 := alter (λ t, with_contents (remove_first el (contents t)) t) p s in
      (inr tt, alter (with_parent None) el s1, [])
  end.

(** [l.insert(position, x)] *)
Definition list_insert_at (position : nat) (x : ref) (l : list ref) : list ref :=
  take position l ++ x :: drop position l.

(** [tag.insert(position, new_child)]: an element that already has a
    parent is moved. *)
Definition insert (tag : ref) (position : nat) (new_child : ref) : M unit :=
  if decide (new_child = tag) then raise ValueError else
  let* t := get_tag tag in
  let* c := get_tag new_child in
  let position := position `min` length (contents t) in
  let position :=
    if decide (parent c = Some tag)
    then (if decide (index_of new_child (contents t) < position)
          then position - 1 else position)
    else position in
  let* _ := extract new_child in
  let* _ := modify (alter (with_parent (Some tag)) new_child) in
  modify (alter (λ t, with_contents (list_insert_at position new_child (contents t)) t) tag).

(** [tag.append(new_child)] *)
Definition append (tag : ref) (new_child : ref) : M unit :=
  let* t := get_tag tag in
  insert tag (length (contents t)) new_child.

(** [tag.append(str)]: the string becomes a [NavigableString] first. *)
Definition append_str (tag : ref) (str : string) : M unit :=
  let* c := new_string str in
  append tag c.

(** [tag.get(key, default)] *)
Fixpoint attrs_get (key : string) (l : list (string * string)) : option string :=
  match l with
  | [] => None
  | (k, v) :: l' => if decide (k = key) then Some v else attrs_get key l'
  end.

(** Document order below [r].  A tree with [n] elements is no deeper than
    [n], so the number of elements in the store is fuel enough. *)
Fixpoint descendants (fuel : nat) (s : Soup) (r : ref) : list ref :=
  match fuel with
  | 0 => []
  | S fuel' =>
      flat_map (λ c, c :: descendants fuel' s c) (contents (tag_of s r))
  end.

Definition name_in (names : list string) (t : Tag) : bool :=
  match name t with
  | Some nm => bool_decide (nm ∈ names)
  | None => false
  end.

(** [soup.find_all(names)] *)
Definition find_all_in (s : Soup) (names : list string) : list ref :=
  filter (λ r, name_in names (tag_of s r)) (descendants (length s) s soup_root).

Definition find_all (names : list string) : M (list ref) := λ s,
  (inr (find_all_in s names), s, []).

(** [soup.body]: the first [body] tag of the document, or [None]. *)
Definition soup_body : M (option ref) :=
  let* found := find_all ["body"] in
  ret (head found).

(** ** [toc.py] *)

Definition _MAX_HEADER_LEVEL : Z := 6.

Record Options := mkOptions {
  ignore_top_header : bool;
  toc_level : Z;
  ordered_chapter_level : Z;
  toc_title : string;
  excludes_children : list string
}.

(** Normalized tree of document headers, as the collector returns it.
    Missed levels have [element] set to [None]. *)
Inductive _HeaderTree :=
| HeaderTree (element : option ref) (subheaders : list _HeaderTree).

Definition element (t : _HeaderTree) : option ref :=
  match t with HeaderTree e _ => e end.

Definition subheaders (t : _HeaderTree) : list _HeaderTree :=
  match t with HeaderTree _ l => l end.

(** While the collector runs, [_HeaderTree] objects are shared between
    [top_headers], the [subheaders] lists and [header_levels]: they
    live in a heap and are named by reference. *)
Record header_obj := HeaderObj {
  obj_element : option ref;
  obj_subheaders : list ref
}.

(** [heap[p].subheaders.append(c)] *)
Definition subheaders_append (p c : ref) (heap : list header_obj) : list header_obj :=
  alter (λ o, HeaderObj (obj_element o) (obj_subheaders o ++ [c])) p heap.

(** The object graph below [ids], read as a value, [fuel] levels deep
    ([_collect_headers] reads [stop_level] levels: no header lies
    deeper, see [collect_headers_spec]). *)
Fixpoint read_headers (fuel : nat) (heap : list header_obj) (ids : list ref)
    : list _HeaderTree :=
  match fuel with
  | 0 => []
  | S fuel' =>
      omap (λ id, o ← heap !! id;
                  Some (HeaderTree (obj_element o)
                          (read_headers fuel' heap (obj_subheaders o)))) ids
  end.

(** [_set_list_elements(l, value, start, end)] *)
Definition _set_list_elements {A} (l : list A) (value : A) (start : nat)
    (end_ : option nat) : M (list A) :=
  for_fold (λ l i, list_setitem l i value) l
    (seq start (default (length l) end_ - start)).

(** [_is_exclude(url, options)] *)
Definition _is_exclude (url : option string) (options : Options) : M bool :=
  match url with
  | None => ret false
  | Some u =>
      if decide (u = "") then ret false
      else if bool_decide (u ∈ excludes_children options)
      then let* _ := log (LogInfo ("|  (exclude '" +:+ u +:+ "')")) in ret true
      else ret false
  end.

(** [int(s)] for a string of decimal digits. *)
Definition digit_of_ascii (c : ascii) : option nat :=
  let n := nat_of_ascii c in
  if (48 <=? n) && (n <=? 57) then Some (n - 48) else None.

Fixpoint int_digits (acc : nat) (s : string) : option nat :=
  match s with
  | EmptyString => Some acc
  | String c s' => d ← digit_of_ascii c; int_digits (10 * acc + d) s'
  end.

Definition int (s : string) : option nat :=
  match s with
  | EmptyString => None
  | _ => int_digits 0 s
  end.

(** [int(h.name[1:]) - 1].  Levels are natural numbers here:
    [find_all] hands over [h1] ... [h6] only, so the case [h0], whose
    level would be [-1], does not arise (see [find_all_level]). *)
Definition level_of_name (nm : option string) : exn + nat :=
  match nm with
  | None => inl TypeError
  | Some EmptyString => inl ValueError
  | Some (String _ digits) =>
      match int digits with
      | Some (S level) => inr level
      | _ => inl ValueError
      end
  end.

Definition header_level (nm : option string) : M nat :=
  match level_of_name nm with
  | inr level => ret level
  | inl e => raise e
  end.

(** The local variables of [_collect_headers] that its loop updates. *)
Record collect_state := CollectState {
  heap : list header_obj;
  top_headers : list ref;
  header_levels : list (option ref);
  exclude_levels : list bool
}.

(** One turn of [for i in range(start_level, level)], lines 114-125. *)
Definition add_skipped_level (start_level : nat) (cs : collect_state) (i : nat)
    : M collect_state :=
  let* cur := list_getitem (header_levels cs) i in
  match cur with
  | Some _ => ret cs
  | None =>
      let missed_header := length (heap cs) in
      let heap1 := heap cs ++ [HeaderObj None []] in
      let* linked :=
        (if decide (i = start_level)
         then ret (heap1, top_headers cs ++ [missed_header])
         else
           let* parent_header := list_getitem (header_levels cs) (i - 1) in
           match parent_header with
           | None => raise (AssertionError "parent_header is not None")
           | Some p => ret (subheaders_append p missed_header heap1, top_headers cs)
           end) in
      let* levels := list_setitem (header_levels cs) i (Some missed_header) in
      ret (CollectState linked.1 linked.2 levels (exclude_levels cs))
  end.

(** Lines 106-133: [h], at [level], has no excluded ancestor. *)
Definition add_header (start_level level : nat) (h : ref) (cs : collect_state)
    : M collect_state :=
  let header := length (heap cs) in
  let cs := CollectState (heap cs ++ [HeaderObj (Some h) []]) (top_headers cs)
              (header_levels cs) (exclude_levels cs) in
  let* cs :=
    (if decide (level = start_level)
     then ret (CollectState (heap cs) (top_headers cs ++ [header])
                 (header_levels cs) (exclude_levels cs))
     else
       let* parent_header := list_getitem (header_levels cs) (level - 1) in
       let* cs :=
         (match parent_header with
          | Some _ => ret cs
          | None =>
              for_fold (add_skipped_level start_level) cs
                (seq start_level (level - start_level))
          end) in
       let* parent_header := list_getitem (header_levels cs) (level - 1) in
       match parent_header with
       | None => raise (AssertionError "parent_header is not None")
       | Some p =>
           ret (CollectState (subheaders_append p header (heap cs)) (top_headers cs)
                  (header_levels cs) (exclude_levels cs))
       end) in
  let* levels := list_setitem (header_levels cs) level (Some header) in
  let* levels := _set_list_elements levels None (level + 1) None in
  ret (CollectState (heap cs) (top_headers cs) levels (exclude_levels cs)).

(** The body of [for h in html_headers], lines 98-133. *)
Definition collect_step (options : Options) (start_level : nat)
    (cs : collect_state) (h : ref) : M collect_state :=
  let* t := get_tag h in
  let* level := header_level (name t) in
  let* excluded := _is_exclude (attrs_get "id" (attrs t)) options in
  let* excl := list_setitem (exclude_levels cs) level excluded in
  let* excl := _set_list_elements excl false (level + 1) None in
  let cs := CollectState (heap cs) (top_headers cs) (header_levels cs) excl in
  if existsb id (take level excl) then ret cs
  else add_header start_level level h cs.

Definition header_names (start_level stop_level : nat) : list string :=
  map (λ i, "h" +:+ pretty (i + 1)) (seq start_level (stop_level - start_level)).

(** [_collect_headers(soup, options, start_level, stop_level)] *)
Definition _collect_headers (options : Options) (start_level stop_level : Z)
    : M (list _HeaderTree) :=
  let* _ := py_assert (bool_decide (0 ≤ start_level ∧ start_level < stop_level)%Z)
              "0 <= start_level < stop_level" in
  let* _ := py_assert (bool_decide (0 < stop_level ∧ stop_level ≤ _MAX_HEADER_LEVEL)%Z)
              "0 < stop_level <= _MAX_HEADER_LEVEL" in
  let start := Z.to_nat start_level in
  let stop := Z.to_nat stop_level in
  let cs := CollectState [] [] (replicate stop None) (replicate stop false) in
  let* html_headers := find_all (header_names start stop) in
  let* cs := for_fold (collect_step options start) cs html_headers in
  ret (read_headers stop (heap cs) (top_headers cs)).

(** [for i, x in enumerate(l): body i x], counting from [i]. *)
Definition for_enumerate {A} (body : nat → A → M unit) : list A → nat → M unit :=
  fix go l i :=
    match l with
    | [] => ret tt
    | x :: l' => let* _ := body i x in go l' (S i)
    end.

(** [sep.join(l)] *)
Fixpoint join (sep : string) (l : list string) : string :=
  match l with
  | [] => ""
  | [x] => x
  | x :: l' => x +:+ sep +:+ join sep l'
  end.

(** Lines 153-160 of [inject_order]: number one header. *)
Definition inject_number (prefix_str : string) (header_element : option ref) : M unit :=
  match header_element with
  | Some h =>
      let* t := get_tag h in
      let* _ := log (LogDebugOrder prefix_str h
                       (default "(none)" (attrs_get "id" (attrs t)))) in
      let* nm_tag := new_tag "span" [("class", "pdf-order")] in
      let* _ := append_str nm_tag (prefix_str +:+ " ") in
      insert h 0 nm_tag
  | None =>
      log (LogWarning ("Assigned number for a missed header " +:+ prefix_str))
  end.

(** One turn of the loop of [inject_order]; [prefix] is
    [numbers_prefix + [i + 1]].  The recursive call
    [inject_order(header.subheaders, prefix)] starts with the assertion
    of [inject_order]. *)
Fixpoint inject_order_header (prefix : list nat) (header : _HeaderTree) : M unit :=
  let* _ := inject_number (join "." (pretty <$> prefix)) (element header) in
  match header with
  | HeaderTree _ [] => ret tt
  | HeaderTree _ subs =>
      let* _ := py_assert (bool_decide (Z.of_nat (length prefix) < _MAX_HEADER_LEVEL)%Z)
                  "len(numbers_prefix) < _MAX_HEADER_LEVEL" in
      for_enumerate (λ i sub, inject_order_header (prefix ++ [i + 1]) sub) subs 0
  end.

(** [inject_order(headers, numbers_prefix)] *)
Definition inject_order (headers : list _HeaderTree) (numbers_prefix : list nat) : M unit :=
  let* _ := py_assert (bool_decide (Z.of_nat (length numbers_prefix) < _MAX_HEADER_LEVEL)%Z)
              "len(numbers_prefix) < _MAX_HEADER_LEVEL" in
  for_enumerate (λ i header, inject_order_header (numbers_prefix ++ [i + 1]) header)
    headers 0.

Definition start_level_of (options : Options) : Z :=
  if ignore_top_header options then 1%Z else 0%Z.

(** [_inject_heading_order(soup, options)] *)
Definition _inject_heading_order (options : Options) : M unit :=
  let start_level := start_level_of options in
  let stop_level := ordered_chapter_level options in
  if decide (stop_level ≤ start_level)%Z then ret tt else
  let* stop_level :=
    (if decide (stop_level > _MAX_HEADER_LEVEL)%Z
     then
       let* _ := log (LogWarning ("Ignore `ordered_chapter_level` value "
                        +:+ pretty stop_level +:+ ". Use max possible "
                        +:+ pretty _MAX_HEADER_LEVEL +:+ " instead")) in
       ret _MAX_HEADER_LEVEL
     else ret stop_level) in
  let* _ := log (LogInfo ("Number headers from h" +:+ pretty (start_level + 1)%Z
                   +:+ " to h" +:+ pretty stop_level)) in
  let* top_headers := _collect_headers options start_level stop_level in
  inject_order top_headers [].

(** Modelled from the spec: [clone_element] of [utils/soup_util.py] is
    not among the sources.  The spec has the host document "clone an
    inline content fragment": a string is copied, a tag is copied with
    its attributes and with clones of its children appended in order.
    The fuel bounds the depth of the copy by the size of the store. *)
Fixpoint clone_element_rec (fuel : nat) (el : ref) : M ref :=
  let* t := get_tag el in
  match name t with
  | None => new_string (text t)
  | Some nm =>
      let* copy := new_tag nm (attrs t) in
      match fuel with
      | 0 => ret copy
      | S fuel' =>
          let* _ := for_each (λ child,
                      let* c := clone_element_rec fuel' child in
                      append copy c) (contents t) in
          ret copy
      end
  end.

Definition clone_element (el : ref) : M ref := λ s,
  clone_element_rec (length s) el s.

(** [make_link(h)], lines 41-52.  The loop runs over the fragments [h]
    has when it starts. *)
Definition make_link (h : ref) : M ref :=
  let* li := new_tag "li" [] in
  let* th := get_tag h in
  let ref_ := default "" (attrs_get "id" (attrs th)) in
  let* a := new_tag "a" [("href", "#" +:+ ref_)] in
  let* _ := for_each (λ el,
              let* tel := get_tag el in
              if decide (name tel = Some "a")
              then
                let* inner := list_getitem (contents tel) 0 in
                append a inner
              else
                let* c := clone_element el in
                append a c) (contents th) in
  let* _ := append li a in
  let* _ := log (LogDebugLink h ref_) in
  ret li.

(** Lines 58-62 of [create_toc]: the list item of one header. *)
Definition make_item (e : option ref) : M ref :=
  match e with
  | Some h => make_link h
  | None =>
      let* _ := log (LogWarning "Adding missed header to TOC") in
      new_tag "li" []
  end.

(** One turn of the loop of [create_toc], lines 58-65; the recursive call
    [create_toc(header.subheaders, link_tag)] starts with lines 55-56. *)
Fixpoint create_toc_item (ul_tag : ref) (header : _HeaderTree) : M unit :=
  let* link_tag := make_item (element header) in
  let* _ := append ul_tag link_tag in
  match header with
  | HeaderTree _ [] => ret tt
  | HeaderTree _ subs =>
      let* ul_sub := new_tag "ul" [] in
      let* _ := append link_tag ul_sub in
      for_each (create_toc_item ul_sub) subs
  end.

(** [create_toc(headers, parent)] *)
Definition create_toc (headers : list _HeaderTree) (parent_tag : ref) : M unit :=
  let* ul_tag := new_tag "ul" [] in
  let* _ := append parent_tag ul_tag in
  for_each (create_toc_item ul_tag) headers.

(** [make_indexes(soup, options)] *)
Definition make_indexes (options : Options) : M unit :=
  let* _ := _inject_heading_order options in
  let start_level := start_level_of options in
  let stop_level := toc_level options in
  if decide (stop_level ≤ start_level)%Z then ret tt else
  let* stop_level :=
    (if decide (stop_level > _MAX_HEADER_LEVEL)%Z
     then
       let* _ := log (LogWarning ("Ignore `toc_level` value "
                        +:+ pretty stop_level +:+ ". Use max possible "
                        +:+ pretty _MAX_HEADER_LEVEL +:+ " instead")) in
       ret _MAX_HEADER_LEVEL
     else ret stop_level) in
  let* _ := log (LogInfo ("Generate a table of contents from h"
                   +:+ pretty (start_level + 1)%Z +:+ " to h" +:+ pretty stop_level)) in
  let* top_headers := _collect_headers options start_level stop_level in
  let* toc := new_tag "article" [("id", "doc-toc")] in
  let* title := new_tag "h1" [] in
  let* title_text := new_string (toc_title options) in
  let* _ := append title title_text in
  let* _ := append toc title in
  let* _ := create_toc top_headers toc in
  let* body := soup_body in
  match body with
  | None => raise AttributeError
  | Some b => insert b 0 toc
  end.

(** * Vocabulary of the statements *)

(** The three parts of a run. *)
Definition result_of {A} (o : (exn + A) * Soup * list LogRecord) : exn + A := o.1.1.
Definition soup_of {A} (o : (exn + A) * Soup * list LogRecord) : Soup := o.1.2.
Definition logs_of {A} (o : (exn + A) * Soup * list LogRecord) : list LogRecord := o.2.

(** Computations that leave the document alone. *)
Definition readonly {A} (m : M A) : Prop := ∀ s, soup_of (m s) = s.

(** Which exceptions a computation can raise. *)
Definition raises_only {A} (P : exn → Prop) (m : M A) : Prop :=
  ∀ s e, result_of (m s) = inl e → P e.

(** The two assertions that open [_collect_headers]. *)
Definition window_assertion (e : exn) : Prop :=
  e = AssertionError "0 <= start_level < stop_level" ∨
  e = AssertionError "0 < stop_level <= _MAX_HEADER_LEVEL".

Definition other_error (e : exn) : Prop := ¬ window_assertion e.

(** The window invariant of [_collect_headers]. *)
Definition window_ok (start_level stop_level : Z) : Prop :=
  (0 ≤ start_level ∧ start_level < stop_level ∧ stop_level ≤ _MAX_HEADER_LEVEL)%Z.

#[global] Instance window_ok_dec start stop : Decision (window_ok start stop).
Proof. unfold window_ok. apply _. Defined.

(** ** Heading forests *)

(** [flat_map] with the position of each element, counting from [i]. *)
Definition flat_enumerate {A B} (f : nat → A → list B) : list A → nat → list B :=
  fix go l i :=
    match l with
    | [] => []
    | x :: l' => f i x ++ go l' (S i)
    end.

(** The number of levels of a tree, of a forest. *)
Fixpoint height (t : _HeaderTree) : nat :=
  match t with
  | HeaderTree _ subs => S (foldr (λ sub h, height sub `max` h) 0 subs)
  end.

Definition forest_height (forest : list _HeaderTree) : nat :=
  foldr (λ t h, height t `max` h) 0 forest.

(** The nodes of a tree in depth-first pre-order, placeholders included. *)
Fixpoint preorder (t : _HeaderTree) : list (option ref) :=
  match t with
  | HeaderTree e subs => e :: flat_map preorder subs
  end.

(** The elements of the real nodes of a forest, in pre-order. *)
Definition real_elements (forest : list _HeaderTree) : list ref :=
  omap id (flat_map preorder forest).

(** The spec's labels (section 4.2): "label = parent_label + "." +
    (1-based sibling index) (top-level nodes get just their 1-based
    index)", over a "depth-first pre-order walk of the forest". *)
Definition child_label (parent_label : option string) (i : nat) : string :=
  match parent_label with
  | None => pretty (i + 1)
  | Some p => p +:+ "." +:+ pretty (i + 1)
  end.

Fixpoint label_tree (label : string) (t : _HeaderTree) : list (option ref * string) :=
  match t with
  | HeaderTree e subs =>
      (e, label) :: flat_enumerate (λ i sub, label_tree (child_label (Some label) i) sub)
                      subs 0
  end.

Definition label_forest (forest : list _HeaderTree) : list (option ref * string) :=
  flat_enumerate (λ i t, label_tree (child_label None i) t) forest 0.

(** What [inject_order] does with one labelled node. *)
Definition inject_label (el : option ref * string) : M unit :=
  inject_number el.2 el.1.

(** The marker that [inject_order] builds for [label]: the [span] and the
    string inside it. *)
Definition order_span (label : string) (h span_ref : ref) : list Tag :=
  [ mkTag (Some "span") [("class", "pdf-order")] "" [S span_ref] (Some h);
    mkTag None [] (label +:+ " ") [] (Some span_ref) ].

(** ** The collector, as the spec describes it *)

(** The level and the exclusion flag of a heading of the document. *)
Definition level_in (s : Soup) (h : ref) : nat :=
  match level_of_name (name (tag_of s h)) with
  | inr level => level
  | inl _ => 0
  end.

Definition is_excluded (options : Options) (url : option string) : bool :=
  match url with
  | None => false
  | Some u =>
      if decide (u = "") then false else bool_decide (u ∈ excludes_children options)
  end.

Definition excluded_in (options : Options) (s : Soup) (h : ref) : bool :=
  is_excluded options (attrs_get "id" (attrs (tag_of s h))).

(** Structural ancestors (spec, section 3: headings "nested under it (by
    document structure)").  [before] lists the headings that precede a
    heading, nearest first.  Walking back from a heading of level [m],
    a heading of a lower level is its parent, and the search goes on
    from there for the parent's own ancestors.  [under_excluded] tells
    whether one of the ancestors found is excluded. *)
Fixpoint under_excluded (lvl : ref → nat) (exc : ref → bool)
    (before : list ref) (m : nat) : bool :=
  match before with
  | [] => false
  | h' :: before' =>
      if lvl h' <? m
      then exc h' || under_excluded lvl exc before' (lvl h')
      else under_excluded lvl exc before' m
  end.

(** The headings of [hs] that have no excluded ancestor, in order;
    [before] precedes [hs], nearest first. *)
Fixpoint included_from (lvl : ref → nat) (exc : ref → bool)
    (before hs : list ref) : list ref :=
  match hs with
  | [] => []
  | h :: hs' =>
      (if under_excluded lvl exc before (lvl h) then [] else [h])
      ++ included_from lvl exc (h :: before) hs'
  end.

(** [attach depth node forest] hangs [node] [depth] levels below the top
    of [forest], under the most recent node of each level above; where a
    level above has no node yet, a placeholder is made for it (spec,
    section 4.1, step 3c). *)
Definition on_last {A} (f : A → A) (otherwise : list A) : list A → list A :=
  fix go l :=
    match l with
    | [] => otherwise
    | [x] => [f x]
    | x :: l' => x :: go l'
    end.

Fixpoint attach (depth : nat) (node : _HeaderTree) (forest : list _HeaderTree)
    : list _HeaderTree :=
  match depth with
  | 0 => forest ++ [node]
  | S depth' =>
      on_last (λ t, HeaderTree (element t) (attach depth' node (subheaders t)))
        [HeaderTree None (attach depth' node [])] forest
  end.

Definition build_forest (start_level : nat) (lvl : ref → nat) (hs : list ref)
    : list _HeaderTree :=
  foldl (λ forest h, attach (lvl h - start_level) (HeaderTree (Some h) []) forest) [] hs.

(** The log of the collector: one record per excluded heading. *)
Definition exclusion_logs (options : Options) (s : Soup) (hs : list ref)
    : list LogRecord :=
  flat_map (λ h, match attrs_get "id" (attrs (tag_of s h)) with
                 | Some u =>
                     if excluded_in options s h
                     then [LogInfo ("|  (exclude '" +:+ u +:+ "')")] else []
                 | None => []
                 end) hs.

(** What [_collect_headers] returns for a window that passes its
    assertions. *)
Definition collected (options : Options) (s : Soup) (start_level stop_level : nat)
    : list _HeaderTree :=
  build_forest start_level (level_in s)
    (included_from (level_in s) (excluded_in options s) []
       (find_all_in s (header_names start_level stop_level))).

(** ** The collector's heap, read as a forest under construction *)

(** A heading tree whose nodes carry the reference of their object. *)
Inductive ltree :=
| LNode (lid : ref) (lelement : option ref) (lsubs : list ltree).

Definition root_id (t : ltree) : ref :=
  match t with LNode i _ _ => i end.

Fixpoint erase (t : ltree) : _HeaderTree :=
  match t with
  | LNode _ e subs => HeaderTree e (map erase subs)
  end.

(** The objects of a tree: each reference with the object it must name. *)
Fixpoint cells (t : ltree) : list (ref * header_obj) :=
  match t with
  | LNode i e subs => (i, HeaderObj e (map root_id subs)) :: flat_map cells subs
  end.

Definition ids (t : ltree) : list ref := (cells t).*1.

Definition repr (heap : list header_obj) (t : ltree) : Prop :=
  Forall (λ c, heap !! c.1 = Some c.2) (cells t).

(** The forest is open along its last branch: [header_levels] names the
    nodes of that branch.  A frame is one of them, with its finished
    elder siblings. *)
Record frame := Frame {
  lefts : list ltree;
  fid : ref;
  felement : option ref
}.

Fixpoint unzip (z : list frame) : list ltree :=
  match z with
  | [] => []
  | f :: z' => lefts f ++ [LNode (fid f) (felement f) (unzip z')]
  end.

(** The children of the node above the frames [z]. *)
Definition spine_subs (z : list frame) : list ref :=
  match z with
  | [] => []
  | f :: _ => map root_id (lefts f) ++ [fid f]
  end.

Definition frame_ids (f : frame) : list ref := flat_map ids (lefts f) ++ [fid f].

Definition level_slot (start_level : nat) (z : list frame) (i : nat) : option ref :=
  if decide (start_level ≤ i) then fid <$> z !! (i - start_level) else None.

Definition heap_inv (heap : list header_obj) (top : list ref) (z : list frame) : Prop :=
  top = spine_subs z ∧
  (∀ i f, z !! i = Some f →
     heap !! fid f = Some (HeaderObj (felement f) (spine_subs (drop (S i) z))) ∧
     Forall (repr heap) (lefts f)) ∧
  NoDup (flat_map frame_ids z).

Definition levels_inv (start_level stop_level : nat) (levels : list (option ref))
    (z : list frame) : Prop :=
  length levels = stop_level ∧ start_level + length z ≤ stop_level ∧
  ∀ i, i < stop_level → levels !! i = Some (level_slot start_level z i).

(** [exclude_levels] after the headings [before] (nearest first). *)
Definition exclude_inv (lvl : ref → nat) (exc : ref → bool) (stop_level : nat)
    (before : list ref) (excl : list bool) : Prop :=
  length excl = stop_level ∧
  ∀ m, m ≤ stop_level → existsb id (take m excl) = under_excluded lvl exc before m.

(** The frames after a node [n] for [e] is hung [d] levels down: the
    branch is cut at [d], what hung below becomes an elder sibling. *)
Definition push_frame (d : nat) (n : ref) (e : option ref) (z : list frame) : list frame :=
  take d z ++ [Frame (unzip (drop d z)) n e].

(** The heap once [n] is linked under the node of level [d - 1] of the
    open branch (at [d = 0] it goes to [top_headers] instead). *)
Definition link_parent (d : nat) (n : ref) (z : list frame)
    (heap : list header_obj) : list header_obj :=
  match d with
  | 0 => heap
  | S d' =>
      match z !! d' with
      | Some f => subheaders_append (fid f) n heap
      | None => heap
      end
  end.

(** The frames of [k] placeholders, with the references [m], [m + 1], ... *)
Fixpoint placeholders (k m : nat) : list frame :=
  match k with
  | 0 => []
  | S k' => Frame [] m None :: placeholders k' (S m)
  end.

(** [k] placeholders above [node]. *)
Fixpoint chain (k : nat) (node : _HeaderTree) : _HeaderTree :=
  match k with
  | 0 => node
  | S k' => HeaderTree None [chain k' node]
  end.

Definition collect_inv (start_level stop_level : nat) (cs : collect_state)
    (z : list frame) : Prop :=
  heap_inv (heap cs) (top_headers cs) z ∧
  levels_inv start_level stop_level (header_levels cs) z.

(** How [build_forest] adds one heading. *)
Definition attach_heading (start_level : nat) (lvl : ref → nat)
    (forest : list _HeaderTree) (h : ref) : list _HeaderTree :=
  attach (lvl h - start_level) (HeaderTree (Some h) []) forest.

(** ** Skipped levels *)

(** The local variables of [_collect_headers] once its loop, started
    from the values of lines 91-95, has gone through the headings [hs]. *)
Definition collect_loop (options : Options) (start_level stop_level : nat)
    (hs : list ref) : M collect_state :=
  for_fold (collect_step options start_level)
    (CollectState [] [] (replicate stop_level None) (replicate stop_level false)) hs.

(** The forest that [_collect_headers] returns from [cs]. *)
Definition forest_of (stop_level : nat) (cs : collect_state) : list _HeaderTree :=
  read_headers stop_level (heap cs) (top_headers cs).

(** Below [level], the unset levels of [header_levels] are those from
    [first] on. *)
Definition unset_from (start_level level first : nat) (cs : collect_state) : Prop :=
  start_level ≤ first < level ∧
  ∀ i, start_level ≤ i < level → header_levels cs !! i = Some None ↔ first ≤ i.

(** What lines 106-133 do, from [cs] to [cs'], with a heading [h] of
    level [level] when the levels [first .. level - 1] are unset:
    - one object is made for each of these levels, and one for [h];
    - the levels below [first] keep their nodes;
    - each level from [first] to [level - 1] holds a new placeholder,
      whose only child is the node of the next level;
    - [level] holds the node of [h];
    - the placeholder of [first] is appended to [top_headers] when
      [first] is [start_level], and to the children of the node of
      [first - 1] otherwise. *)
Definition backfilled (start_level level first : nat) (h : ref)
    (cs cs' : collect_state) : Prop :=
  length (heap cs') = length (heap cs) + (level - first) + 1 ∧
  (∀ i, i < first → header_levels cs' !! i = header_levels cs !! i) ∧
  (∀ i, first ≤ i < level →
     ∃ p c, header_levels cs' !! i = Some (Some p) ∧
            header_levels cs' !! (S i) = Some (Some c) ∧
            length (heap cs) ≤ p ∧
            heap cs' !! p = Some (HeaderObj None [c])) ∧
  (∃ n, header_levels cs' !! level = Some (Some n) ∧
        heap cs' !! n = Some (HeaderObj (Some h) [])) ∧
  (∃ p, header_levels cs' !! first = Some (Some p) ∧
        if decide (first = start_level)
        then top_headers cs' = top_headers cs ++ [p]
        else top_headers cs' = top_headers cs ∧
             ∃ q o, header_levels cs !! (first - 1) = Some (Some q) ∧
                    heap cs !! q = Some o ∧
                    heap cs' !! q =
                      Some (HeaderObj (obj_element o) (obj_subheaders o ++ [p]))).

(** The whole of one turn of the loop for such a heading: the forest
    gains, below the last node of level [first - 1], a chain of
    placeholders that ends in the node of [h]. *)
Definition backfill_step (options : Options) (start_level stop_level : nat)
    (s : Soup) (h : ref) (cs : collect_state) : Prop :=
  ∃ first cs',
    result_of (collect_step options start_level cs h s) = inr cs' ∧
    unset_from start_level (level_in s h) first cs ∧
    backfilled start_level (level_in s h) first h cs cs' ∧
    forest_of stop_level cs' =
      attach (first - start_level)
        (chain (level_in s h - first) (HeaderTree (Some h) []))
        (forest_of stop_level cs).

(** * Sample documents *)

Definition element_node (nm : string) (kwattrs : list (string * string))
    (cs : list ref) (p : ref) : Tag :=
  mkTag (Some nm) kwattrs "" cs (Some p).

Definition string_node (str : string) (p : ref) : Tag :=
  mkTag None [] str [] (Some p).

Definition document_node (cs : list ref) : Tag :=
  mkTag (Some "[document]") [] "" cs None.

Definition default_options : Options := mkOptions false 6 6 "Table of contents" [].

(** [<body><h1 id="top"><a name="anchor"></a>Title</h1></body>] *)
Definition doc_empty_link : Soup :=
  [ document_node [1];
    element_node "body" [] [2] 0;
    element_node "h1" [("id", "top")] [3; 4] 1;
    element_node "a" [("name", "anchor")] [] 2;
    string_node "Title" 2 ].

(** Lines 147-165: order injection, once its window is settled. *)
Definition number_headers (options : Options) (start_level stop_level : Z) : M unit :=
  let* _ := log (LogInfo ("Number headers from h" +:+ pretty (start_level + 1)%Z
                   +:+ " to h" +:+ pretty stop_level)) in
  let* top_headers := _collect_headers options start_level stop_level in
  inject_order top_headers [].

(** Lines 39-75: the table of contents, once its window is settled. *)
Definition generate_toc (options : Options) (start_level stop_level : Z) : M unit :=
  let* _ := log (LogInfo ("Generate a table of contents from h"
                   +:+ pretty (start_level + 1)%Z +:+ " to h" +:+ pretty stop_level)) in
  let* top_headers := _collect_headers options start_level stop_level in
  let* toc := new_tag "article" [("id", "doc-toc")] in
  let* title := new_tag "h1" [] in
  let* title_text := new_string (toc_title options) in
  let* _ := append title title_text in
  let* _ := append toc title in
  let* _ := create_toc top_headers toc in
  let* body := soup_body in
  match body with
  | None => raise AttributeError
  | Some b => insert b 0 toc
  end.

(** The options with another [toc_level], another [ordered_chapter_level]. *)
Definition with_toc_level (v : Z) (options : Options) : Options :=
  mkOptions (ignore_top_header options) v (ordered_chapter_level options)
    (toc_title options) (excludes_children options).

Definition with_ordered_chapter_level (v : Z) (options : Options) : Options :=
  mkOptions (ignore_top_header options) (toc_level options) v
    (toc_title options) (excludes_children options).

(** The warnings of lines 36 and 144. *)
Definition toc_level_warning (v : Z) : LogRecord :=
  LogWarning ("Ignore `toc_level` value " +:+ pretty v +:+ ". Use max possible "
              +:+ pretty _MAX_HEADER_LEVEL +:+ " instead").

Definition ordered_chapter_level_warning (v : Z) : LogRecord :=
  LogWarning ("Ignore `ordered_chapter_level` value " +:+ pretty v
              +:+ ". Use max possible " +:+ pretty _MAX_HEADER_LEVEL +:+ " instead").

(** * Well-formed documents *)

(** In a document that bs4 built, parent pointers and [contents] agree,
    no element occurs twice among the children of its parent, every
    reference is to an element of the store and strings have no
    children. *)
Definition child_ok (s : Soup) (p c : ref) : Prop :=
  c < length s ∧ parent (tag_of s c) = Some p.

Definition parent_ok (s : Soup) (r : ref) (t : Tag) : Prop :=
  match parent t with
  | Some q => r ∈ contents (tag_of s q)
  | None => True
  end.

Definition tag_ok (s : Soup) (r : ref) (t : Tag) : Prop :=
  Forall (child_ok s r) (contents t) ∧ NoDup (contents t) ∧
  parent_ok s r t ∧ (name t = None → contents t = []).

Definition wf_soup (s : Soup) : Prop :=
  Forall (λ rt, tag_ok s rt.1 rt.2) (imap pair s).

#[global] Instance parent_ok_dec s r t : Decision (parent_ok s r t).
Proof. unfold parent_ok. destruct (parent t); apply _. Defined.

#[global] Instance tag_ok_dec s r t : Decision (tag_ok s r t).
Proof. unfold tag_ok, child_ok. apply _. Defined.

#[global] Instance wf_soup_dec s : Decision (wf_soup s).
Proof. unfold wf_soup. apply _. Defined.

(** [<body><h1 id="intro">Intro</h1><h2 id="more">More</h2></body>] *)
Definition doc_intro : Soup :=
  [ document_node [1];
    element_node "body" [] [2; 4] 0;
    element_node "h1" [("id", "intro")] [3] 1;
    string_node "Intro" 2;
    element_node "h2" [("id", "more")] [5] 1;
    string_node "More" 4 ].


(** [<body><h1 id="A">..</h1><h2 id="B">..</h2><h3 id="C">..</h3></body>],
    with [B] among [excludes_children]. *)
Definition doc_abc : Soup :=
  [ document_node [1];
    element_node "body" [] [2; 4; 6] 0;
    element_node "h1" [("id", "A")] [3] 1;
    string_node "Alpha" 2;
    element_node "h2" [("id", "B")] [5] 1;
    string_node "Beta" 4;
    element_node "h3" [("id", "C")] [7] 1;
    string_node "Gamma" 6 ].

Definition options_exclude_B : Options := mkOptions false 6 6 "Table of contents" ["B"].

(** [<body><h1 id="top">..</h1><h4 id="deep">..</h4></body>]: levels 0
    and 3 only. *)
Definition doc_skip : Soup :=
  [ document_node [1];
    element_node "body" [] [2; 4] 0;
    element_node "h1" [("id", "top")] [3] 1;
    string_node "Top" 2;
    element_node "h4" [("id", "deep")] [5] 1;
    string_node "Deep" 4 ].


(** * Moving elements *)

(** The store once [c] has left the children of its parent, if it has
    one (the first half of [extract]). *)
Definition unlink (c : ref) (s : Soup) : Soup :=
  match parent (tag_of s c) with
  | Some p => alter (λ t, with_contents (remove_first c (contents t)) t) p s
  | None => s
  end.

(** The store after [tag.append(c)], or after [tag.insert(0, c)] when
    [at_front] is set, for a [c] other than [tag]: [c] leaves its
    parent, becomes a child of [tag], last or first. *)
Definition relink (at_front : bool) (tag c : ref) (s : Soup) : Soup :=
  alter (λ t, with_contents
                (if at_front then c :: contents t else contents t ++ [c]) t) tag
    (alter (with_parent (Some tag)) c (unlink c s)).

(** * What an element looks like *)

(** An element as markup: its name, attributes and children, or the
    text of a string; who its parent is plays no part.  [fuel] bounds
    the depth. *)
Inductive html :=
| Text (str : string)
| Element (nm : string) (kwattrs : list (string * string)) (children : list html).

Fixpoint render (fuel : nat) (s : Soup) (r : ref) : html :=
  let t := tag_of s r in
  match name t with
  | None => Text (text t)
  | Some nm =>
      Element nm (attrs t)
        match fuel with
        | 0 => []
        | S fuel' => map (render fuel' s) (contents t)
        end
  end.

(** What [clone_element_rec fuel el] makes of the store [s]: the new
    elements come after those of [s], which stay as they are; the copy
    is the first of them and has no parent; a new element comes before
    its children; and the copy looks like [el], [fuel] levels deep. *)
Definition cloned (fuel : nat) (el : ref) (s s' : Soup) : Prop :=
  wf_soup s' ∧ length s < length s' ∧
  (∀ r, r < length s → tag_of s' r = tag_of s r) ∧
  parent (tag_of s' (length s)) = None ∧
  (∀ x y, length s ≤ x → y ∈ contents (tag_of s' x) → x < y) ∧
  (∀ f, render f s' (length s) = render (f `min` fuel) s el).

(** * Links of the table of contents *)

(** The arena lists an element before its children, for the elements
    below [m]: so it is for a document parsed in document order, and the
    numbering pass keeps it so. *)
Definition ordered_below (m : nat) (s : Soup) : Prop :=
  Forall (λ r, Forall (λ c, r < c < m) (contents (tag_of s r))) (seq 0 m).

#[global] Instance ordered_below_dec m s : Decision (ordered_below m s).
Proof. unfold ordered_below. apply _. Defined.

(** The fragments that [make_link] treats as links, and the children it
    takes from them. *)
Definition is_link (s : Soup) (el : ref) : Prop := name (tag_of s el) = Some "a".

#[global] Instance is_link_dec s el : Decision (is_link s el).
Proof. unfold is_link. apply _. Defined.

Definition link_fragments (s : Soup) (els : list ref) : list ref :=
  filter (is_link s) els.

Definition moved_children (s : Soup) (els : list ref) : list ref :=
  omap (λ el, head (contents (tag_of s el))) (link_fragments s els).

(** What the link of the table of contents holds for the fragment [el]
    of the heading [h]: the first child of [el] itself when [el] is a
    link; a new element otherwise, which looks like [el] at the top, and
    all the way down when the arena is ordered. *)
Definition link_child (s : Soup) (m h : ref) (σ : Soup) (el c : ref) : Prop :=
  if decide (is_link s el) then head (contents (tag_of s el)) = Some c
  else S (S (length s)) ≤ c ∧
       render 0 σ c = render 0 s el ∧
       (ordered_below m s → h < m ≤ length s → el ∈ contents (tag_of s h) →
        ∀ f, render f σ c = render f s el).

(** The store [σ] while [make_link(h)], started in [s], has gone through
    the fragments [seen] and appended [cs] to the link: the list item is
    [length s], the link the element after it. *)
Definition link_inv (s : Soup) (m h : ref) (href : list (string * string))
    (seen cs : list ref) (σ : Soup) : Prop :=
  let n := length s in
  wf_soup σ ∧ S (S n) ≤ length σ ∧
  tag_of σ n = mkTag (Some "li") [] "" [] None ∧
  tag_of σ (S n) = mkTag (Some "a") href "" cs None ∧
  (∀ r, r < n → name (tag_of σ r) = name (tag_of s r) ∧
                attrs (tag_of σ r) = attrs (tag_of s r) ∧
                text (tag_of σ r) = text (tag_of s r)) ∧
  (∀ r, r < n →
     contents (tag_of σ r) =
     if decide (r ∈ link_fragments s seen)
     then tail (contents (tag_of s r)) else contents (tag_of s r)) ∧
  (∀ r, r < n →
     parent (tag_of σ r) =
     if decide (r ∈ moved_children s seen)
     then Some (S n) else parent (tag_of s r)) ∧
  (∀ x y, S (S n) ≤ x → y ∈ contents (tag_of σ x) → x < y) ∧
  Forall2 (link_child s m h σ) seen cs.

(** What [make_link(h)] makes of the store [s]: the list item is the
    first new element, the link the second, and [cs] are the children of
    the link; the fragments of [h] that are links have lost their first
    child, which is now a child of the link; nothing else has changed in
    the elements of [s]. *)
Definition link_made (s : Soup) (m h : ref) (cs : list ref) (s' : Soup) : Prop :=
  let n := length s in
  let fragments := contents (tag_of s h) in
  wf_soup s' ∧ S (S n) ≤ length s' ∧
  tag_of s' n = mkTag (Some "li") [] "" [S n] None ∧
  tag_of s' (S n) =
    mkTag (Some "a")
      [("href", "#" +:+ default "" (attrs_get "id" (attrs (tag_of s h))))]
      "" cs (Some n) ∧
  (∀ r, r < n → name (tag_of s' r) = name (tag_of s r) ∧
                attrs (tag_of s' r) = attrs (tag_of s r) ∧
                text (tag_of s' r) = text (tag_of s r)) ∧
  (∀ r, r < n →
     contents (tag_of s' r) =
     if decide (r ∈ link_fragments s fragments)
     then tail (contents (tag_of s r)) else contents (tag_of s r)) ∧
  (∀ r, r < n →
     parent (tag_of s' r) =
     if decide (r ∈ moved_children s fragments)
     then Some (S n) else parent (tag_of s r)) ∧
  (∀ x y, S (S n) ≤ x → y ∈ contents (tag_of s' x) → x < y) ∧
  Forall2 (link_child s m h s') fragments cs.

(** [<body><h2 id="intro">Intro</h2></body>] *)
Definition doc_section : Soup :=
  [ document_node [1];
    element_node "body" [] [2] 0;
    element_node "h2" [("id", "intro")] [3] 1;
    string_node "Intro" 2 ].

(** [<body><h1 id="x"><a href="u">one<b>two</b></a>tail</h1></body>] *)
Definition doc_linked : Soup :=
  [ document_node [1];
    element_node "body" [] [2] 0;
    element_node "h1" [("id", "x")] [3; 7] 1;
    element_node "a" [("href", "u")] [4; 5] 2;
    string_node "one" 3;
    element_node "b" [] [6] 3;
    string_node "two" 5;
    string_node "tail" 2 ].

(** * The list of the table of contents *)

(** The elements that [make_link] may change in a document: the links,
    which may lose their first child, and the children of links, which
    may be moved. *)
Definition movable (s : Soup) (r : ref) : Prop :=
  is_link s r ∨ ∃ p, parent (tag_of s r) = Some p ∧ is_link s p.

#[global] Instance movable_dec s r : Decision (movable s r).
Proof.
  unfold movable. destruct (parent (tag_of s r)) as [p|].
  - destruct (decide (is_link s r)) as [Hl|Hl]; [left; by left|].
    destruct (decide (is_link s p)) as [Hp|Hp]; [left; right; by exists p|].
    right. intros [?|(q & [= <-] & ?)]; done.
  - destruct (decide (is_link s r)) as [Hl|Hl]; [left; by left|].
    right. intros [?|(q & [=] & ?)]; done.
Defined.

(** What the making of the list items [lis] below [ul] does to the
    store: no element changes its name, attributes or text; the elements
    of [s] other than [ul] that are not movable are left as they were;
    and [ul], when it is not movable itself, has the new elements [lis]
    after the children it had. *)
Definition toc_built (lis : list ref) (ul : ref) (s s' : Soup) : Prop :=
  wf_soup s' ∧ length s ≤ length s' ∧
  (∀ r, r < length s → name (tag_of s' r) = name (tag_of s r) ∧
                       attrs (tag_of s' r) = attrs (tag_of s r) ∧
                       text (tag_of s' r) = text (tag_of s r)) ∧
  (∀ r, r < length s → r ≠ ul → ¬ movable s r → tag_of s' r = tag_of s r) ∧
  Forall (λ li, length s ≤ li) lis ∧
  (¬ movable s ul →
     tag_of s' ul = with_contents (contents (tag_of s ul) ++ lis) (tag_of s ul)).

(** [P] holds of the elements of two lists taken in pairs, and the lists
    are as long as each other. *)
Definition all2 {A B} (P : A → B → Prop) : list A → list B → Prop :=
  fix go l k :=
    match l, k with
    | [], [] => True
    | x :: l', y :: k' => P x y ∧ go l' k'
    | _, _ => False
    end.

(** The link that the list item of a header holds in the store [s]: an
    [a] whose [href] is the [id] the header has in the document [s0],
    or nothing for a placeholder. *)
Definition toc_link (s0 s : Soup) (e : option ref) (link : list ref) : Prop :=
  match e with
  | Some h =>
      ∃ a, link = [a] ∧ name (tag_of s a) = Some "a" ∧
           attrs (tag_of s a) =
             [("href", "#" +:+ default "" (attrs_get "id" (attrs (tag_of s0 h))))]
  | None => link = []
  end.

(** [li] is the list item of [header] in the store [s], made of
    elements from [n] on: an [li] that holds the header's link, if it
    has one, and then, if the header has subheaders, a [ul] with the
    items of the subheaders in their order. *)
Fixpoint toc_item (n : nat) (s0 s : Soup) (header : _HeaderTree) (li : ref) : Prop :=
  match header with
  | HeaderTree e subs =>
      n ≤ li ∧ name (tag_of s li) = Some "li" ∧ attrs (tag_of s li) = [] ∧
      ∃ link sub,
        contents (tag_of s li) = link ++ sub ∧
        toc_link s0 s e link ∧
        match subs with
        | [] => sub = []
        | _ :: _ =>
            ∃ ul, sub = [ul] ∧ n ≤ ul ∧
                  name (tag_of s ul) = Some "ul" ∧ attrs (tag_of s ul) = [] ∧
                  all2 (toc_item n s0 s) subs (contents (tag_of s ul))
        end
  end.

(** The log record of one node of the forest in [create_toc]. *)
Definition toc_record (s : Soup) (e : option ref) : LogRecord :=
  match e with
  | Some h => LogDebugLink h (default "" (attrs_get "id" (attrs (tag_of s h))))
  | None => LogWarning "Adding missed header to TOC"
  end.

(** * Depths in a forest *)

(** The elements of the real nodes of a tree in pre-order, each with its
    depth; the root of the tree has depth [d]. *)
Fixpoint tree_depths (d : nat) (t : _HeaderTree) : list (ref * nat) :=
  match t with
  | HeaderTree e subs =>
      match e with Some h => [(h, d)] | None => [] end
      ++ flat_map (tree_depths (S d)) subs
  end.

Definition forest_depths (d : nat) (forest : list _HeaderTree) : list (ref * nat) :=
  flat_map (tree_depths d) forest.

(** * Ancestors *)

(** The [k]-th ancestor of an element, along the parent links. *)
Fixpoint ancestor (s : Soup) (k : nat) (x : ref) : option ref :=
  match k with
  | 0 => Some x
  | S k' =>
      match parent (tag_of s x) with
      | Some p => ancestor s k' p
      | None => None
      end
  end.
(** * Reasoning about runs *)

Lemma bind_run {A B} (m : M A) (f : A → M B) s a s1 l1 :
  m s = (inr a, s1, l1) →
  bind m f s = (result_of (f a s1), soup_of (f a s1), l1 ++ logs_of (f a s1)).
Proof.
  intros E. unfold bind. rewrite E. by destruct (f a s1) as [[??]?].
Qed.

Lemma bind_raise {A B} (m : M A) (f : A → M B) s e s1 l1 :
  m s = (inl e, s1, l1) → bind m f s = (inl e, s1, l1).
Proof. intros E. unfold bind. by rewrite E. Qed.

Lemma bind_inv {A B} (m : M A) (f : A → M B) s r s2 l :
  bind m f s = (r, s2, l) →
  (∃ e, m s = (inl e, s2, l) ∧ r = inl e) ∨
  (∃ a s1 l1 l2, m s = (inr a, s1, l1) ∧ f a s1 = (r, s2, l2) ∧ l = l1 ++ l2).
Proof.
  unfold bind. destruct (m s) as [[[e|a] s1] l1].
  - intros [= <- <- <-]. left. eauto.
  - destruct (f a s1) as [[r' s2'] l2] eqn:E. intros [= <- <- <-].
    right. by exists a, s1, l1, l2.
Qed.

Lemma readonly_ret {A} (a : A) : readonly (ret a).
Proof. done. Qed.

Lemma readonly_raise {A} e : readonly (@raise A e).
Proof. done. Qed.

Lemma readonly_log r : readonly (log r).
Proof. done. Qed.

Lemma readonly_get_tag r : readonly (get_tag r).
Proof. done. Qed.

Lemma readonly_bind {A B} (m : M A) (f : A → M B) :
  readonly m → (∀ a, readonly (f a)) → readonly (bind m f).
Proof.
  intros Hm Hf s. unfold bind. specialize (Hm s).
  destruct (m s) as [[[e|a] s1] l1]; unfold soup_of in Hm; simpl in Hm;
    subst s1; [done|].
  specialize (Hf a s). by destruct (f a s) as [[??]?].
Qed.

Lemma readonly_for_fold {A B} (body : B → A → M B) l acc :
  (∀ acc x, readonly (body acc x)) → readonly (for_fold body acc l).
Proof.
  intros Hb. revert acc. induction l as [|x l IH]; intros acc; simpl.
  - apply readonly_ret.
  - apply readonly_bind; auto.
Qed.

Lemma readonly_list_getitem {A} (l : list A) i : readonly (list_getitem l i).
Proof. unfold list_getitem. destruct (l !! i); [apply readonly_ret|apply readonly_raise]. Qed.

Lemma readonly_list_setitem {A} (l : list A) i x : readonly (list_setitem l i x).
Proof. unfold list_setitem. case_decide; [apply readonly_ret|apply readonly_raise]. Qed.

Lemma readonly_py_assert b c : readonly (py_assert b c).
Proof. destruct b; [apply readonly_ret|apply readonly_raise]. Qed.

Lemma readonly_find_all names : readonly (find_all names).
Proof. done. Qed.

Create HintDb readonly.
#[local] Hint Resolve readonly_ret readonly_raise readonly_log readonly_get_tag
  readonly_list_getitem readonly_list_setitem readonly_py_assert
  readonly_find_all : readonly.

Ltac readonly_tac :=
  repeat first
    [ progress eauto with readonly
    | apply readonly_bind; [|intros]
    | apply readonly_for_fold; intros
    | case_decide
    | case_match ].

Lemma readonly_set_list_elements {A} (l : list A) v start end_ :
  readonly (_set_list_elements l v start end_).
Proof. unfold _set_list_elements. readonly_tac. Qed.

Lemma readonly_is_exclude url options : readonly (_is_exclude url options).
Proof. unfold _is_exclude. readonly_tac. Qed.

Lemma readonly_header_level nm : readonly (header_level nm).
Proof. unfold header_level. readonly_tac. Qed.

#[local] Hint Resolve readonly_set_list_elements readonly_is_exclude
  readonly_header_level : readonly.

Lemma readonly_add_skipped_level start cs i :
  readonly (add_skipped_level start cs i).
Proof. unfold add_skipped_level. readonly_tac. Qed.

#[local] Hint Resolve readonly_add_skipped_level : readonly.

Lemma readonly_add_header start level h cs : readonly (add_header start level h cs).
Proof. unfold add_header. readonly_tac. Qed.

#[local] Hint Resolve readonly_add_header : readonly.

Lemma readonly_collect_step options start cs h :
  readonly (collect_step options start cs h).
Proof. unfold collect_step. readonly_tac. Qed.

#[local] Hint Resolve readonly_collect_step : readonly.

Lemma readonly_collect_headers options start stop :
  readonly (_collect_headers options start stop).
Proof. unfold _collect_headers. readonly_tac. Qed.

Lemma raises_only_ret {A} P (a : A) : raises_only P (ret a).
Proof. by intros s e. Qed.

Lemma raises_only_raise {A} (P : exn → Prop) e : P e → raises_only P (@raise A e).
Proof. intros HP s e' [= <-]. done. Qed.

Lemma raises_only_log P r : raises_only P (log r).
Proof. by intros s e. Qed.

Lemma raises_only_get_tag P r : raises_only P (get_tag r).
Proof. by intros s e. Qed.

Lemma raises_only_modify P f : raises_only P (modify f).
Proof. by intros s e. Qed.

Lemma raises_only_new_tag P nm kw : raises_only P (new_tag nm kw).
Proof. by intros s e. Qed.

Lemma raises_only_new_string P str : raises_only P (new_string str).
Proof. by intros s e. Qed.

Lemma raises_only_find_all P names : raises_only P (find_all names).
Proof. by intros s e. Qed.

Lemma raises_only_extract P el : raises_only P (extract el).
Proof. intros s e. unfold extract. by case_match. Qed.

Lemma raises_only_bind {A B} P (m : M A) (f : A → M B) :
  raises_only P m → (∀ a, raises_only P (f a)) → raises_only P (bind m f).
Proof.
  intros Hm Hf s e. unfold bind. specialize (Hm s).
  destruct (m s) as [[[e'|a] s1] l1]; simpl in *; [by intros [= <-]; apply Hm|].
  specialize (Hf a s1). destruct (f a s1) as [[??]?]. simpl in *. apply Hf.
Qed.

Lemma raises_only_for_fold {A B} P (body : B → A → M B) l acc :
  (∀ acc x, raises_only P (body acc x)) → raises_only P (for_fold body acc l).
Proof.
  intros Hb. revert acc. induction l as [|x l IH]; intros acc; simpl.
  - apply raises_only_ret.
  - apply raises_only_bind; auto.
Qed.

Lemma raises_only_for_each {A} P (body : A → M unit) l :
  Forall (λ x, raises_only P (body x)) l → raises_only P (for_each body l).
Proof.
  induction 1 as [|x l Hx Hl IH]; simpl.
  - apply raises_only_ret.
  - apply raises_only_bind; auto.
Qed.

Lemma raises_only_for_enumerate {A} P (body : nat → A → M unit) l i :
  Forall (λ x, ∀ i, raises_only P (body i x)) l →
  raises_only P (for_enumerate body l i).
Proof.
  intros Hl. revert i. induction Hl as [|x l Hx Hl IH]; intros i; simpl.
  - apply raises_only_ret.
  - apply raises_only_bind; auto.
Qed.

Lemma other_error_IndexError : other_error IndexError.
Proof. by intros [?|?]. Qed.

Lemma other_error_AttributeError : other_error AttributeError.
Proof. by intros [?|?]. Qed.

Lemma other_error_ValueError : other_error ValueError.
Proof. by intros [?|?]. Qed.

Lemma other_error_TypeError : other_error TypeError.
Proof. by intros [?|?]. Qed.

Lemma other_error_parent : other_error (AssertionError "parent_header is not None").
Proof. by intros [?|?]. Qed.

Lemma other_error_prefix :
  other_error (AssertionError "len(numbers_prefix) < _MAX_HEADER_LEVEL").
Proof. by intros [?|?]. Qed.

Create HintDb raises.
#[local] Hint Resolve raises_only_ret raises_only_log raises_only_get_tag
  raises_only_modify raises_only_new_tag raises_only_new_string
  raises_only_find_all raises_only_extract
  other_error_IndexError other_error_AttributeError other_error_ValueError
  other_error_TypeError other_error_parent other_error_prefix : raises.

Ltac raises_tac :=
  repeat first
    [ progress eauto with raises
    | apply raises_only_raise
    | apply raises_only_bind; [|intros]
    | apply raises_only_for_fold; intros
    | case_decide
    | case_match ].

Lemma raises_list_getitem {A} (l : list A) i : raises_only other_error (list_getitem l i).
Proof. unfold list_getitem. raises_tac. Qed.

Lemma raises_list_setitem {A} (l : list A) i x :
  raises_only other_error (list_setitem l i x).
Proof. unfold list_setitem. raises_tac. Qed.

#[local] Hint Resolve raises_list_getitem raises_list_setitem : raises.

Lemma raises_insert tag position new_child :
  raises_only other_error (insert tag position new_child).
Proof. unfold insert. raises_tac. Qed.

#[local] Hint Resolve raises_insert : raises.

Lemma raises_append tag new_child : raises_only other_error (append tag new_child).
Proof. unfold append. raises_tac. Qed.

#[local] Hint Resolve raises_append : raises.

Lemma raises_append_str tag str : raises_only other_error (append_str tag str).
Proof. unfold append_str. raises_tac. Qed.

Lemma raises_set_list_elements {A} (l : list A) v start end_ :
  raises_only other_error (_set_list_elements l v start end_).
Proof. unfold _set_list_elements. raises_tac. Qed.

Lemma raises_is_exclude url options : raises_only other_error (_is_exclude url options).
Proof. unfold _is_exclude. raises_tac. Qed.

Lemma raises_header_level nm : raises_only other_error (header_level nm).
Proof.
  unfold header_level.
  destruct (level_of_name nm) as [e|level] eqn:E; [|raises_tac].
  apply raises_only_raise.
  destruct nm as [[|c d]|]; simpl in E; [by simplify_eq; eauto with raises| |
    by simplify_eq; eauto with raises].
  destruct (int d) as [[|n]|]; simplify_eq; eauto with raises.
Qed.

#[local] Hint Resolve raises_append_str raises_set_list_elements raises_is_exclude
  raises_header_level : raises.

Lemma raises_add_skipped_level start cs i :
  raises_only other_error (add_skipped_level start cs i).
Proof. unfold add_skipped_level. raises_tac. Qed.

#[local] Hint Resolve raises_add_skipped_level : raises.

Lemma raises_add_header start level h cs :
  raises_only other_error (add_header start level h cs).
Proof. unfold add_header. raises_tac. Qed.

#[local] Hint Resolve raises_add_header : raises.

Lemma raises_collect_step options start cs h :
  raises_only other_error (collect_step options start cs h).
Proof. unfold collect_step. raises_tac. Qed.

#[local] Hint Resolve raises_collect_step : raises.

Lemma raises_collect_headers options start stop :
  window_ok start stop →
  raises_only other_error (_collect_headers options start stop).
Proof.
  intros (H0 & H1 & H2). unfold _collect_headers.
  rewrite !bool_decide_eq_true_2 by (unfold _MAX_HEADER_LEVEL in *; lia).
  raises_tac.
Qed.

(** Induction on heading trees. *)
Lemma HeaderTree_ind' (P : _HeaderTree → Prop) :
  (∀ e subs, Forall P subs → P (HeaderTree e subs)) → ∀ t, P t.
Proof.
  intros H. fix IH 1. intros [e subs]. apply H.
  induction subs as [|t subs IHs]; constructor; [apply IH|apply IHs].
Qed.

Lemma raises_inject_number prefix_str e :
  raises_only other_error (inject_number prefix_str e).
Proof. unfold inject_number. raises_tac. Qed.

#[local] Hint Resolve raises_inject_number : raises.

Lemma inject_order_header_eq prefix e subs :
  inject_order_header prefix (HeaderTree e subs) =
  let* _ := inject_number (join "." (pretty <$> prefix)) e in
  match subs with
  | [] => ret tt
  | _ =>
      let* _ := py_assert (bool_decide (Z.of_nat (length prefix) < _MAX_HEADER_LEVEL)%Z)
                  "len(numbers_prefix) < _MAX_HEADER_LEVEL" in
      for_enumerate (λ i sub, inject_order_header (prefix ++ [i + 1]) sub) subs 0
  end.
Proof. by destruct subs. Qed.

Lemma raises_inject_order_header header :
  ∀ prefix, raises_only other_error (inject_order_header prefix header).
Proof.
  induction header as [e subs IH] using HeaderTree_ind'. intros prefix.
  rewrite inject_order_header_eq.
  apply raises_only_bind; [eauto with raises|intros _].
  destruct subs as [|sub subs]; [raises_tac|].
  apply raises_only_bind; [unfold py_assert; raises_tac|intros _].
  apply raises_only_for_enumerate.
  eapply Forall_impl; [exact IH|]. simpl. auto.
Qed.

Lemma raises_inject_order headers prefix :
  raises_only other_error (inject_order headers prefix).
Proof.
  unfold inject_order.
  apply raises_only_bind; [unfold py_assert; raises_tac|intros _].
  apply raises_only_for_enumerate. apply Forall_forall.
  intros header _ i. apply raises_inject_order_header.
Qed.

Lemma raises_clone_element_rec fuel :
  ∀ el, raises_only other_error (clone_element_rec fuel el).
Proof.
  induction fuel as [|fuel IH]; intros el; simpl.
  - raises_tac.
  - apply raises_only_bind; [eauto with raises|intros t].
    destruct (name t); [|eauto with raises].
    apply raises_only_bind; [eauto with raises|intros copy].
    apply raises_only_bind; [|raises_tac].
    apply raises_only_for_each, Forall_forall. intros child _.
    apply raises_only_bind; [apply IH|intros c; eauto with raises].
Qed.

Lemma raises_clone_element el : raises_only other_error (clone_element el).
Proof. intros s e. apply raises_clone_element_rec. Qed.

#[local] Hint Resolve raises_inject_order raises_clone_element : raises.

Lemma raises_make_link h : raises_only other_error (make_link h).
Proof.
  unfold make_link.
  apply raises_only_bind; [eauto with raises|intros li].
  apply raises_only_bind; [eauto with raises|intros th].
  apply raises_only_bind; [eauto with raises|intros a].
  apply raises_only_bind; [|intros _; raises_tac].
  apply raises_only_for_each, Forall_forall. intros el _. raises_tac.
Qed.

#[local] Hint Resolve raises_make_link : raises.

Lemma create_toc_item_eq ul_tag e subs :
  create_toc_item ul_tag (HeaderTree e subs) =
  let* link_tag := make_item e in
  let* _ := append ul_tag link_tag in
  match subs with
  | [] => ret tt
  | _ =>
      let* ul_sub := new_tag "ul" [] in
      let* _ := append link_tag ul_sub in
      for_each (create_toc_item ul_sub) subs
  end.
Proof. by destruct subs. Qed.

Lemma raises_create_toc_item header :
  ∀ ul_tag, raises_only other_error (create_toc_item ul_tag header).
Proof.
  induction header as [e subs IH] using HeaderTree_ind'. intros ul_tag.
  rewrite create_toc_item_eq.
  apply raises_only_bind; [unfold make_item; raises_tac|intros link_tag].
  apply raises_only_bind; [eauto with raises|intros _].
  destruct subs as [|sub subs]; [raises_tac|].
  apply raises_only_bind; [eauto with raises|intros ul_sub].
  apply raises_only_bind; [eauto with raises|intros _].
  apply raises_only_for_each.
  eapply Forall_impl; [exact IH|]. simpl. auto.
Qed.

Lemma raises_create_toc headers parent_tag :
  raises_only other_error (create_toc headers parent_tag).
Proof.
  unfold create_toc.
  apply raises_only_bind; [eauto with raises|intros ul_tag].
  apply raises_only_bind; [eauto with raises|intros _].
  apply raises_only_for_each, Forall_forall. intros header _.
  apply raises_create_toc_item.
Qed.

#[local] Hint Resolve raises_create_toc : raises.

Lemma start_level_of_cases options :
  start_level_of options = 0%Z ∨ start_level_of options = 1%Z.
Proof. unfold start_level_of. destruct (ignore_top_header options); auto. Qed.

(** The clamping of the stop level, as both call sites do it. *)
Lemma raises_only_clamp {A} P (stop : Z) (msg : string) (k : Z → M A) :
  raises_only P (k (if decide (stop > _MAX_HEADER_LEVEL)%Z
                    then _MAX_HEADER_LEVEL else stop)) →
  raises_only P
    (let* stop_level :=
       (if decide (stop > _MAX_HEADER_LEVEL)%Z
        then let* _ := log (LogWarning msg) in ret _MAX_HEADER_LEVEL
        else ret stop) in
     k stop_level).
Proof.
  intros Hk s e. unfold bind. case_decide; simpl.
  - specialize (Hk s e). destruct (k _ s) as [[??]?]. exact Hk.
  - specialize (Hk s e). destruct (k _ s) as [[??]?]. exact Hk.
Qed.

Lemma clamped_window_ok options (stop : Z) :
  ¬ (stop ≤ start_level_of options)%Z →
  window_ok (start_level_of options)
    (if decide (stop > _MAX_HEADER_LEVEL)%Z then _MAX_HEADER_LEVEL else stop).
Proof.
  intros Hgt. unfold window_ok.
  destruct (start_level_of_cases options) as [E|E]; rewrite E in *;
    case_decide; unfold _MAX_HEADER_LEVEL in *; lia.
Qed.

Lemma raises_inject_heading_order options :
  raises_only other_error (_inject_heading_order options).
Proof.
  unfold _inject_heading_order. case_decide as Hle; [raises_tac|].
  apply raises_only_clamp.
  apply raises_only_bind; [eauto with raises|intros _].
  apply raises_only_bind; [|intros; eauto with raises].
  by apply raises_collect_headers, clamped_window_ok.
Qed.

Lemma raises_make_indexes options :
  raises_only other_error (make_indexes options).
Proof.
  unfold make_indexes.
  apply raises_only_bind; [apply raises_inject_heading_order|intros _].
  case_decide as Hle; [raises_tac|].
  apply raises_only_clamp.
  apply raises_only_bind; [eauto with raises|intros _].
  apply raises_only_bind;
    [by apply raises_collect_headers, clamped_window_ok|intros top].
  unfold soup_body. raises_tac.
Qed.

Lemma collect_headers_bad_window options start stop (s : Soup) :
  ¬ window_ok start stop →
  ∃ e, window_assertion e ∧
       result_of (_collect_headers options start stop s) = inl e.
Proof.
  intros Hbad. unfold _collect_headers, window_assertion.
  destruct (decide (0 ≤ start ∧ start < stop)%Z) as [H1|H1].
  - destruct (decide (0 < stop ∧ stop ≤ _MAX_HEADER_LEVEL)%Z) as [H2|H2].
    + destruct Hbad. unfold window_ok. lia.
    + rewrite (bool_decide_eq_true_2 _ H1), (bool_decide_eq_false_2 _ H2).
      eexists. split; [right; reflexivity|]. reflexivity.
  - rewrite (bool_decide_eq_false_2 _ H1).
    eexists. split; [left; reflexivity|]. reflexivity.
Qed.

(** ** Disabled and clamped windows *)

Lemma run_bind {A B} (m : M A) (f : A → M B) s a s1 l1 r s2 l2 :
  m s = (inr a, s1, l1) → f a s1 = (r, s2, l2) →
  bind m f s = (r, s2, l1 ++ l2).
Proof. intros E1 E2. unfold bind. by rewrite E1, E2. Qed.

Lemma inject_heading_order_disabled options (s : Soup) :
  (ordered_chapter_level options ≤ start_level_of options)%Z →
  _inject_heading_order options s = (inr tt, s, []).
Proof. intros Hle. unfold _inject_heading_order. by rewrite decide_True. Qed.

Lemma bind_ret_run {A B} (a : A) (f : A → M B) s : bind (ret a) f s = f a s.
Proof. unfold bind, ret. by destruct (f a s) as [[??]?]. Qed.

Lemma bind_log_run {B} r (f : unit → M B) s :
  bind (log r) f s = (result_of (f tt s), soup_of (f tt s), r :: logs_of (f tt s)).
Proof. unfold bind, log. by destruct (f tt s) as [[??]?]. Qed.

Lemma bind_assoc_run {A B C} (m : M A) (f : A → M B) (g : B → M C) s :
  bind (bind m f) g s = bind m (λ a, bind (f a) g) s.
Proof.
  unfold bind. destruct (m s) as [[[e|a] s1] l1]; [done|].
  destruct (f a s1) as [[[e|b] s2] l2]; [done|].
  destruct (g b s2) as [[r s3] l3]. by rewrite app_assoc.
Qed.

Lemma start_level_of_with_ordered v options :
  start_level_of (with_ordered_chapter_level v options) = start_level_of options.
Proof. done. Qed.

Lemma start_level_of_with_toc v options :
  start_level_of (with_toc_level v options) = start_level_of options.
Proof. done. Qed.

Lemma collect_headers_options o o' :
  excludes_children o = excludes_children o' →
  _collect_headers o = _collect_headers o'.
Proof.
  intros E. unfold _collect_headers, collect_step, _is_exclude. by rewrite E.
Qed.

Lemma inject_heading_order_eq options :
  _inject_heading_order options =
  let start_level := start_level_of options in
  let stop_level := ordered_chapter_level options in
  if decide (stop_level ≤ start_level)%Z then ret tt else
  let* stop_level :=
    (if decide (stop_level > _MAX_HEADER_LEVEL)%Z
     then
       let* _ := log (ordered_chapter_level_warning stop_level) in
       ret _MAX_HEADER_LEVEL
     else ret stop_level) in
  number_headers options start_level stop_level.
Proof. done. Qed.

Lemma make_indexes_eq options :
  make_indexes options =
  let* _ := _inject_heading_order options in
  let start_level := start_level_of options in
  let stop_level := toc_level options in
  if decide (stop_level ≤ start_level)%Z then ret tt else
  let* stop_level :=
    (if decide (stop_level > _MAX_HEADER_LEVEL)%Z
     then
       let* _ := log (toc_level_warning stop_level) in
       ret _MAX_HEADER_LEVEL
     else ret stop_level) in
  generate_toc options start_level stop_level.
Proof. done. Qed.

Lemma number_headers_options o o' :
  excludes_children o = excludes_children o' →
  number_headers o = number_headers o'.
Proof. intros E. unfold number_headers. by rewrite (collect_headers_options o o'). Qed.

Lemma generate_toc_options o o' :
  excludes_children o = excludes_children o' → toc_title o = toc_title o' →
  generate_toc o = generate_toc o'.
Proof.
  intros E1 E2. unfold generate_toc.
  by rewrite (collect_headers_options o o'), E2.
Qed.

Lemma inject_heading_order_clamped options (s : Soup) :
  (ordered_chapter_level options > _MAX_HEADER_LEVEL)%Z →
  let clamped :=
    _inject_heading_order (with_ordered_chapter_level _MAX_HEADER_LEVEL options) s in
  _inject_heading_order options s =
    (result_of clamped, soup_of clamped,
     ordered_chapter_level_warning (ordered_chapter_level options) :: logs_of clamped).
Proof.
  intros Hgt clamped. subst clamped.
  pose proof (start_level_of_cases options) as Hs.
  rewrite !inject_heading_order_eq. cbv zeta.
  rewrite start_level_of_with_ordered.
  rewrite (number_headers_options
             (with_ordered_chapter_level _MAX_HEADER_LEVEL options) options) by done.
  cbn [ordered_chapter_level with_ordered_chapter_level].
  rewrite !decide_False by (unfold _MAX_HEADER_LEVEL in *; lia).
  rewrite decide_True by done.
  rewrite (decide_False (P := (_MAX_HEADER_LEVEL > _MAX_HEADER_LEVEL)%Z)) by lia.
  rewrite (decide_False (P := (_MAX_HEADER_LEVEL ≤ start_level_of options)%Z))
    by (unfold _MAX_HEADER_LEVEL in *; lia).
  by rewrite bind_assoc_run, bind_log_run, !bind_ret_run.
Qed.

Lemma make_indexes_disabled options (s : Soup) :
  (toc_level options ≤ start_level_of options)%Z →
  make_indexes options s = _inject_heading_order options s.
Proof.
  intros Hle. rewrite make_indexes_eq. cbv zeta. rewrite decide_True by done.
  unfold bind. destruct (_inject_heading_order options s) as [[[e|[]] s1] l1]; [done|].
  simpl. by rewrite app_nil_r.
Qed.

Lemma inject_heading_order_with_toc v options :
  _inject_heading_order (with_toc_level v options) = _inject_heading_order options.
Proof.
  rewrite !inject_heading_order_eq. cbv zeta. rewrite start_level_of_with_toc.
  by rewrite (number_headers_options (with_toc_level v options) options).
Qed.

Lemma make_indexes_clamped options (s s1 : Soup) l1 :
  (toc_level options > _MAX_HEADER_LEVEL)%Z →
  _inject_heading_order options s = (inr tt, s1, l1) →
  ∃ r s2 l2,
    generate_toc options (start_level_of options) _MAX_HEADER_LEVEL s1 = (r, s2, l2) ∧
    make_indexes (with_toc_level _MAX_HEADER_LEVEL options) s = (r, s2, l1 ++ l2) ∧
    make_indexes options s =
      (r, s2, l1 ++ toc_level_warning (toc_level options) :: l2).
Proof.
  intros Hgt Hrun.
  pose proof (start_level_of_cases options) as Hs.
  destruct (generate_toc options (start_level_of options) _MAX_HEADER_LEVEL s1)
    as [[r s2] l2] eqn:Hgen.
  exists r, s2, l2. split; [done|]. split.
  - rewrite make_indexes_eq. cbv zeta.
    eapply run_bind; [by rewrite inject_heading_order_with_toc|].
    rewrite start_level_of_with_toc.
    rewrite (generate_toc_options (with_toc_level _MAX_HEADER_LEVEL options) options)
      by done.
    cbn [toc_level with_toc_level].
    rewrite (decide_False (P := (_MAX_HEADER_LEVEL > _MAX_HEADER_LEVEL)%Z)) by lia.
    rewrite (decide_False (P := (_MAX_HEADER_LEVEL ≤ start_level_of options)%Z))
      by (unfold _MAX_HEADER_LEVEL in *; lia).
    by rewrite bind_ret_run.
  - rewrite make_indexes_eq. cbv zeta.
    eapply run_bind; [done|].
    rewrite decide_False by (unfold _MAX_HEADER_LEVEL in *; lia).
    rewrite decide_True by done.
    rewrite bind_assoc_run, bind_log_run, bind_ret_run.
    by rewrite Hgen.
Qed.

(** ** Reading the store *)

Lemma tag_of_lookup (s : Soup) r t : s !! r = Some t → tag_of s r = t.
Proof. unfold tag_of. by intros ->. Qed.

Lemma tag_of_invalid (s : Soup) r : length s ≤ r → tag_of s r = no_tag.
Proof. intros H. unfold tag_of. by rewrite lookup_ge_None_2. Qed.

Lemma tag_of_valid (s : Soup) r : tag_of s r ≠ no_tag → r < length s.
Proof.
  intros H. destruct (decide (r < length s)) as [|Hge]; [done|].
  destruct H. apply tag_of_invalid. lia.
Qed.

Lemma tag_of_app_l (s s' : Soup) r : r < length s → tag_of (s ++ s') r = tag_of s r.
Proof. intros H. unfold tag_of. by rewrite lookup_app_l. Qed.

Lemma tag_of_app_new (s : Soup) t l : tag_of (s ++ t :: l) (length s) = t.
Proof. unfold tag_of. by rewrite list_lookup_middle. Qed.

Lemma result_of_bind {A B} (m : M A) (f : A → M B) s a s1 l1 :
  m s = (inr a, s1, l1) → result_of (bind m f s) = result_of (f a s1).
Proof. intros E. by rewrite (bind_run _ _ _ _ _ _ E). Qed.

Lemma result_of_bind_raise {A B} (m : M A) (f : A → M B) s e :
  result_of (m s) = inl e → result_of (bind m f s) = inl e.
Proof.
  unfold bind, result_of. destruct (m s) as [[[e'|a] s1] l1]; simpl.
  - by intros [= ->].
  - discriminate.
Qed.

(** ** An empty link in a heading *)

Lemma make_link_empty_link (s : Soup) h el rest :
  contents (tag_of s h) = el :: rest →
  name (tag_of s el) = Some "a" →
  contents (tag_of s el) = [] →
  result_of (make_link h s) = inl IndexError.
Proof.
  intros Hh Hname Hel.
  assert (h < length s) as Hvh
    by (apply tag_of_valid; intros E; rewrite E in Hh; discriminate Hh).
  assert (el < length s) as Hvel
    by (apply tag_of_valid; intros E; rewrite E in Hname; discriminate Hname).
  unfold make_link.
  erewrite result_of_bind by reflexivity.
  erewrite result_of_bind by reflexivity.
  rewrite tag_of_app_l by done.
  erewrite result_of_bind by reflexivity.
  apply result_of_bind_raise.
  rewrite Hh. simpl. apply result_of_bind_raise.
  erewrite result_of_bind by reflexivity.
  rewrite !tag_of_app_l by (rewrite ?length_app; simpl; lia).
  rewrite decide_True by done.
  apply result_of_bind_raise. by rewrite Hel.
Qed.

(** ** Order injection: labels *)

Lemma bind_ext {A B} (m m' : M A) (f f' : A → M B) s :
  m s = m' s → (∀ a s1, f a s1 = f' a s1) → bind m f s = bind m' f' s.
Proof.
  intros Hm Hf. unfold bind. rewrite Hm.
  destruct (m' s) as [[[e|a] s1] l1]; [done|]. by rewrite Hf.
Qed.

Lemma for_each_app {A} (body : A → M unit) l1 l2 s :
  for_each body (l1 ++ l2) s =
  bind (for_each body l1) (λ _, for_each body l2) s.
Proof.
  revert s. induction l1 as [|x l1 IH]; intros s; simpl.
  - by rewrite bind_ret_run.
  - rewrite bind_assoc_run. apply bind_ext; [done|]. intros _ s1. apply IH.
Qed.

Lemma string_app_assoc (a b c : string) : (a +:+ b) +:+ c = a +:+ (b +:+ c).
Proof.
  induction a as [|x a IH]; [done|].
  cbv [String.append]. fold String.append. by rewrite IH.
Qed.

Lemma join_snoc sep l x :
  l ≠ [] → join sep (l ++ [x]) = join sep l +:+ sep +:+ x.
Proof.
  induction l as [|y l IH]; [done|]. intros _.
  destruct l as [|z l]; [done|].
  change (join sep ((y :: z :: l) ++ [x]))
    with (y +:+ sep +:+ join sep ((z :: l) ++ [x])).
  rewrite IH by done.
  change (join sep (y :: z :: l)) with (y +:+ sep +:+ join sep (z :: l)).
  by rewrite !string_app_assoc.
Qed.

Lemma prefix_label prefix i :
  join "." (pretty <$> (prefix ++ [i + 1])) =
  child_label (match prefix with
               | [] => None
               | _ => Some (join "." (pretty <$> prefix))
               end) i.
Proof.
  rewrite fmap_app. change (pretty <$> [i + 1]) with [pretty (i + 1)].
  destruct prefix as [|n prefix]; [done|].
  by rewrite join_snoc.
Qed.

Lemma height_sub e sub subs :
  sub ∈ subs → S (height sub) ≤ height (HeaderTree e subs).
Proof.
  simpl. induction 1 as [sub subs|sub sub' subs Hin IH]; simpl; lia.
Qed.

Lemma for_enumerate_labels {A} (body : nat → A → M unit)
    (f : nat → A → list (option ref * string)) l :
  Forall (λ x, ∀ i s, body i x s = for_each inject_label (f i x) s) l →
  ∀ i s, for_enumerate body l i s = for_each inject_label (flat_enumerate f l i) s.
Proof.
  induction 1 as [|x l Hx Hl IH]; intros i s; [done|].
  simpl. rewrite for_each_app. apply bind_ext; [apply Hx|].
  intros _ s1. apply IH.
Qed.

Lemma inject_order_header_labels t :
  ∀ prefix, prefix ≠ [] → length prefix + height t ≤ 7 →
  ∀ s, inject_order_header prefix t s =
       for_each inject_label (label_tree (join "." (pretty <$> prefix)) t) s.
Proof.
  induction t as [e subs IH] using HeaderTree_ind'. intros prefix Hne Hh s.
  rewrite inject_order_header_eq.
  change (label_tree ?l (HeaderTree e subs))
    with ((e, l) :: flat_enumerate (λ i sub, label_tree (child_label (Some l) i) sub)
                      subs 0).
  change (for_each inject_label ((e, ?l) :: ?rest) s)
    with (bind (inject_number l e) (λ _, for_each inject_label rest) s).
  apply bind_ext; [done|]. intros _ s1.
  destruct subs as [|sub subs]; [done|].
  assert (length prefix < 6) as Hlen.
  { pose proof (height_sub e sub (sub :: subs) ltac:(left)) as Hs.
    assert (1 ≤ height sub) by (destruct sub; simpl; lia). lia. }
  rewrite bool_decide_eq_true_2 by (unfold _MAX_HEADER_LEVEL; lia).
  unfold py_assert. rewrite bind_ret_run.
  apply for_enumerate_labels.
  apply Forall_forall. intros x Hx i s2.
  rewrite Forall_forall in IH. rewrite (IH x Hx).
  - rewrite prefix_label. by destruct prefix.
  - by destruct prefix.
  - rewrite length_app. simpl. pose proof (height_sub e x _ Hx). lia.
Qed.

Lemma height_forest t forest : t ∈ forest → height t ≤ forest_height forest.
Proof.
  unfold forest_height. induction 1 as [t l|t t' l Hin IH]; simpl; lia.
Qed.

Lemma inject_order_labels forest :
  forest_height forest ≤ 6 →
  ∀ s, inject_order forest [] s = for_each inject_label (label_forest forest) s.
Proof.
  intros Hh s. unfold inject_order, label_forest.
  rewrite bool_decide_eq_true_2 by (unfold _MAX_HEADER_LEVEL; simpl; lia).
  unfold py_assert. rewrite bind_ret_run.
  apply for_enumerate_labels.
  apply Forall_forall. intros t Ht i s2.
  rewrite inject_order_header_labels.
  - by rewrite prefix_label.
  - done.
  - simpl. pose proof (height_forest t forest Ht). lia.
Qed.

(** ** Inserting an element that has no parent *)

Lemma tag_of_alter (s : Soup) f r : r < length s → tag_of (alter f r s) r = f (tag_of s r).
Proof.
  intros H. unfold tag_of. rewrite list_lookup_alter_eq.
  destruct (lookup_lt_is_Some_2 s r H) as [t ->]. done.
Qed.

Lemma alter_ext_at {A} (f g : A → A) (l : list A) i :
  (∀ x, l !! i = Some x → f x = g x) → alter f i l = alter g i l.
Proof.
  intros H. apply list_eq. intros j. rewrite !list_lookup_alter.
  case_decide; [|done]. destruct (l !! i) as [x|] eqn:E; [|done].
  simpl. by rewrite H.
Qed.

Lemma tag_of_alter_ne (s : Soup) f r r' : r ≠ r' → tag_of (alter f r s) r' = tag_of s r'.
Proof. intros H. unfold tag_of. by rewrite list_lookup_alter_ne. Qed.

Lemma insert_orphan_run (s : Soup) tag position new_child :
  new_child ≠ tag → parent (tag_of s new_child) = None →
  insert tag position new_child s =
    (inr tt,
     alter (λ t, with_contents
                   (list_insert_at (position `min` length (contents (tag_of s tag)))
                      new_child (contents t)) t) tag
       (alter (with_parent (Some tag)) new_child s),
     []).
Proof.
  intros Hne Hp. unfold insert. rewrite decide_False by done.
  unfold bind, get_tag, extract, modify. simpl.
  rewrite Hp. done.
Qed.

Lemma append_orphan_run (s : Soup) tag new_child :
  new_child ≠ tag → parent (tag_of s new_child) = None →
  append tag new_child s =
    (inr tt,
     alter (λ t, with_contents (contents t ++ [new_child]) t) tag
       (alter (with_parent (Some tag)) new_child s),
     []).
Proof.
  intros Hne Hp. unfold append.
  erewrite run_bind; [|reflexivity|by apply insert_orphan_run].
  simpl. do 2 f_equal. apply alter_ext_at. intros t E. f_equal.
  assert (contents (tag_of s tag) = contents t) as ->.
  { unfold tag_of. rewrite list_lookup_alter_ne in E by done. by rewrite E. }
  unfold list_insert_at. by rewrite Nat.min_id, firstn_all, drop_all.
Qed.

Lemma alter_new_1 (s : Soup) (f : Tag → Tag) x y :
  alter f (length s) (s ++ [x; y]) = s ++ [f x; y].
Proof. by rewrite <-(Nat.add_0_r (length s)), alter_app_r. Qed.

Lemma alter_new_2 (s : Soup) (f : Tag → Tag) x y :
  alter f (S (length s)) (s ++ [x; y]) = s ++ [x; f y].
Proof. by rewrite <-(Nat.add_1_r (length s)), alter_app_r. Qed.

Lemma append_str_new_run (s : Soup) x str :
  contents x = [] →
  append_str (length s) str (s ++ [x]) =
    (inr tt,
     s ++ [with_contents [S (length s)] x; mkTag None [] str [] (Some (length s))],
     []).
Proof.
  intros Hx. unfold append_str. etrans.
  { eapply run_bind; [reflexivity|]. apply append_orphan_run.
    - rewrite length_app. simpl. lia.
    - by rewrite tag_of_app_new. }
  simpl. do 2 f_equal.
  rewrite <-!app_assoc. simpl. rewrite length_app. simpl. rewrite Nat.add_1_r.
  rewrite alter_new_2, alter_new_1. simpl. by rewrite Hx.
Qed.

Lemma inject_number_run (s : Soup) h label :
  h < length s →
  inject_number label (Some h) s =
    (inr tt,
     alter (λ t, with_contents (length s :: contents t) t) h
       (s ++ order_span label h (length s)),
     [LogDebugOrder label h (default "(none)" (attrs_get "id" (attrs (tag_of s h))))]).
Proof.
  intros Hv. unfold inject_number. etrans.
  { eapply run_bind; [reflexivity|]. eapply run_bind; [reflexivity|].
    eapply run_bind; [reflexivity|]. eapply run_bind.
    - by apply append_str_new_run.
    - apply insert_orphan_run; [lia|]. by rewrite tag_of_app_new. }
  simpl. do 2 f_equal.
  rewrite alter_new_1. simpl.
  apply alter_ext_at. intros t _. done.
Qed.

(** ** Order injection: the document afterwards *)

Lemma tag_of_inject_number_other (s : Soup) h label r :
  r < length s → r ≠ h →
  tag_of (alter (λ t, with_contents (length s :: contents t) t) h
            (s ++ order_span label h (length s))) r = tag_of s r.
Proof.
  intros Hr Hne. rewrite tag_of_alter_ne by done. by rewrite tag_of_app_l.
Qed.

Lemma inject_labels_spec (l : list (option ref * string)) :
  ∀ s : Soup,
  NoDup (omap fst l) → (∀ h, h ∈ omap fst l → h < length s) →
  ∃ (s' : Soup) logs,
    for_each inject_label l s = (inr tt, s', logs) ∧ length s ≤ length s' ∧
    (∀ r, r < length s → r ∉ omap fst l → tag_of s' r = tag_of s r) ∧
    (∀ h label, (Some h, label) ∈ l →
       ∃ span, length s ≤ span ∧
         tag_of s' h = with_contents (span :: contents (tag_of s h)) (tag_of s h) ∧
         [tag_of s' span; tag_of s' (S span)] = order_span label h span).
Proof.
  induction l as [|[[h|] label] l IH]; intros s Hnd Hv.
  - exists s, []. split; [done|]. split; [done|]. split; [done|].
    intros h label Hin. by apply elem_of_nil in Hin.
  - simpl in Hnd, Hv. apply NoDup_cons in Hnd as [Hnotin Hnd].
    assert (h < length s) as Hh by (apply Hv; left).
    set (s1 := alter (λ t, with_contents (length s :: contents t) t) h
                 (s ++ order_span label h (length s))).
    assert (length s1 = length s + 2) as Hlen1.
    { unfold s1. rewrite length_alter, length_app. done. }
    destruct (IH s1 Hnd) as (s' & logs & Hrun & Hlen & Hframe & Hspans).
    { intros h' Hin. rewrite Hlen1. pose proof (Hv h' ltac:(by right)). lia. }
    exists s', (LogDebugOrder label h
                  (default "(none)" (attrs_get "id" (attrs (tag_of s h)))) :: logs).
    split; [|split; [lia|split]].
    + change (for_each inject_label ((Some h, label) :: l) s)
        with (bind (inject_number label (Some h)) (λ _, for_each inject_label l) s).
      etrans; [eapply run_bind; [by apply inject_number_run|exact Hrun]|done].
    + intros r Hr Hnot. rewrite Hframe; [|lia|].
      * apply tag_of_inject_number_other; [done|]. intros ->. apply Hnot. left.
      * intros Hin. apply Hnot. by right.
    + intros h' label' Hin. apply elem_of_cons in Hin as [[= -> ->]|Hin].
      * exists (length s). split; [done|]. split.
        -- rewrite Hframe; [|lia|done]. unfold s1.
           rewrite tag_of_alter by (rewrite length_app; lia).
           by rewrite tag_of_app_l.
        -- rewrite !Hframe; [| lia | | lia | ].
           ++ unfold s1. rewrite !tag_of_alter_ne by lia.
              unfold order_span at 1 2.
              rewrite tag_of_app_new.
              unfold tag_of. rewrite lookup_app_r by lia.
              by replace (S (length s) - length s) with 1 by lia.
           ++ intros Hin. pose proof (Hv (S (length s)) ltac:(by right)). lia.
           ++ intros Hin. pose proof (Hv (length s) ltac:(by right)). lia.
      * destruct (Hspans h' label' Hin) as (span & Hspan & Htag & Hord).
        assert (h' ≠ h) as Hne.
        { intros ->. apply Hnotin. apply list_elem_of_omap. by exists (Some h, label'). }
        assert (h' < length s) as Hh'.
        { apply Hv. right. apply list_elem_of_omap. by exists (Some h', label'). }
        exists span. split; [lia|]. split; [|done].
        rewrite Htag. unfold s1. by rewrite tag_of_inject_number_other.
  - simpl in Hnd, Hv.
    destruct (IH s Hnd Hv) as (s' & logs & Hrun & Hlen & Hframe & Hspans).
    exists s', (LogWarning ("Assigned number for a missed header " +:+ label) :: logs).
    split; [|split; [done|split; [done|]]].
    + change (for_each inject_label ((None, label) :: l) s)
        with (bind (inject_number label None) (λ _, for_each inject_label l) s).
      etrans; [eapply run_bind; [reflexivity|exact Hrun]|done].
    + intros h' label' Hin. apply elem_of_cons in Hin as [[=]|Hin]. by apply Hspans.
Qed.

(** ** The collector: frames and the heap *)

Lemma roots_unzip z : map root_id (unzip z) = spine_subs z.
Proof. destruct z as [|f z]; [done|]. simpl. by rewrite map_app. Qed.

Lemma ids_node i e subs : ids (LNode i e subs) = i :: flat_map ids subs.
Proof.
  unfold ids. change (cells (LNode i e subs))
    with ((i, HeaderObj e (map root_id subs)) :: flat_map cells subs).
  rewrite fmap_cons. simpl. f_equal.
  induction subs as [|t subs IH]; [done|].
  change (flat_map cells (t :: subs)) with (cells t ++ flat_map cells subs).
  rewrite fmap_app, IH. done.
Qed.

Lemma ids_unzip z : flat_map ids (unzip z) = flat_map frame_ids z.
Proof.
  induction z as [|f z IH]; [done|].
  change (unzip (f :: z)) with (lefts f ++ [LNode (fid f) (felement f) (unzip z)]).
  rewrite flat_map_app.
  change (flat_map ids [LNode (fid f) (felement f) (unzip z)])
    with (ids (LNode (fid f) (felement f) (unzip z)) ++ []).
  rewrite ids_node, app_nil_r, IH.
  change (flat_map frame_ids (f :: z)) with (frame_ids f ++ flat_map frame_ids z).
  unfold frame_ids at 2. by rewrite <-app_assoc.
Qed.

Lemma repr_unzip heap z :
  (∀ i f, z !! i = Some f →
     heap !! fid f = Some (HeaderObj (felement f) (spine_subs (drop (S i) z))) ∧
     Forall (repr heap) (lefts f)) →
  Forall (repr heap) (unzip z).
Proof.
  induction z as [|f z IH]; intros H; [constructor|]. simpl.
  destruct (H 0 f eq_refl) as [Hf Hl]. simpl in Hf. rewrite drop_0 in Hf.
  apply Forall_app. split; [done|]. constructor; [|constructor].
  unfold repr. simpl. constructor.
  - simpl. by rewrite roots_unzip.
  - apply Forall_flat_map. apply IH. intros i f' Hi. apply (H (S i) f' Hi).
Qed.

Lemma flat_map_lookup_in {A B} (F : A → list B) (l : list A) i a x :
  l !! i = Some a → x ∈ F a → x ∈ flat_map F l.
Proof.
  intros Hi Hx. apply list_elem_of_In, in_flat_map. exists a.
  split; apply list_elem_of_In; [by eapply list_elem_of_lookup_2|done].
Qed.

Lemma NoDup_flat_map_lookup {A B} (F : A → list B) (l : list A) i j a b x :
  NoDup (flat_map F l) → l !! i = Some a → l !! j = Some b →
  x ∈ F a → x ∈ F b → i = j.
Proof.
  revert i j. induction l as [|c l IH]; intros i j Hnd Hi Hj Ha Hb; [done|].
  simpl in Hnd. apply NoDup_app in Hnd as (Hc & Hdisj & Hl).
  destruct i as [|i], j as [|j]; simpl in *; simplify_eq; [done| | |].
  - destruct (Hdisj x Ha). by eapply flat_map_lookup_in.
  - destruct (Hdisj x Hb). by eapply flat_map_lookup_in.
  - f_equal. by apply IH.
Qed.

Lemma NoDup_flat_map_at {A B} (F : A → list B) (l : list A) i a :
  NoDup (flat_map F l) → l !! i = Some a → NoDup (F a).
Proof.
  revert i. induction l as [|c l IH]; intros i Hnd Hi; [done|].
  simpl in Hnd. apply NoDup_app in Hnd as (Hc & Hdisj & Hl).
  destruct i as [|i]; simpl in *; simplify_eq; [done|]. by eapply IH.
Qed.

Lemma frame_fid_in f : fid f ∈ frame_ids f.
Proof. unfold frame_ids. apply elem_of_app. right. left. Qed.

Lemma frame_left_in f x : x ∈ flat_map ids (lefts f) → x ∈ frame_ids f.
Proof. unfold frame_ids. intros H. apply elem_of_app. by left. Qed.

Lemma frame_left_not_fid z i j f g x :
  NoDup (flat_map frame_ids z) → z !! i = Some f → z !! j = Some g →
  x ∈ flat_map ids (lefts f) → x ≠ fid g.
Proof.
  intros Hnd Hi Hj Hx ->.
  assert (i = j) as ->.
  { apply (NoDup_flat_map_lookup frame_ids z i j f g (fid g) Hnd Hi Hj);
      [by apply frame_left_in|apply frame_fid_in]. }
  assert (g = f) as -> by congruence.
  pose proof (NoDup_flat_map_at frame_ids z j f Hnd Hj) as Hg.
  unfold frame_ids in Hg. apply NoDup_app in Hg as (_ & Hdisj & _).
  destruct (Hdisj _ Hx). left.
Qed.

Lemma frame_fid_inj z i j f g :
  NoDup (flat_map frame_ids z) → z !! i = Some f → z !! j = Some g →
  fid f = fid g → i = j.
Proof.
  intros Hnd Hi Hj E.
  apply (NoDup_flat_map_lookup frame_ids z i j f g (fid f) Hnd Hi Hj);
    [apply frame_fid_in|rewrite E; apply frame_fid_in].
Qed.

Lemma repr_ext heap heap' t :
  repr heap t → (∀ x, x ∈ ids t → heap' !! x = heap !! x) → repr heap' t.
Proof.
  unfold repr, ids. intros Hr Hx. rewrite Forall_forall in Hr.
  apply Forall_forall. intros c Hc. rewrite Hx; [by apply Hr|].
  apply list_elem_of_fmap. by exists c.
Qed.

Lemma Forall_repr_ext heap heap' l :
  Forall (repr heap) l → (∀ x, x ∈ flat_map ids l → heap' !! x = heap !! x) →
  Forall (repr heap') l.
Proof.
  intros Hr Hx. rewrite Forall_forall in Hr. apply Forall_forall. intros t Ht.
  apply (repr_ext heap); [by apply Hr|]. intros x Hin. apply Hx.
  apply list_elem_of_In, in_flat_map. exists t. by split; apply list_elem_of_In.
Qed.

Lemma spine_subs_drop z j :
  spine_subs (drop j z) =
  match z !! j with
  | Some f => map root_id (lefts f) ++ [fid f]
  | None => []
  end.
Proof.
  revert j. induction z as [|f z IH]; intros [|j]; simpl; try done.
Qed.

Lemma push_frame_length d n e z : d ≤ length z → length (push_frame d n e z) = S d.
Proof. intros H. unfold push_frame. rewrite length_app, length_take. simpl. lia. Qed.

Lemma push_frame_lookup_lt d n e z i :
  i < d → d ≤ length z → push_frame d n e z !! i = z !! i.
Proof.
  intros Hi Hd. unfold push_frame.
  rewrite lookup_app_l by (rewrite length_take; lia). by rewrite lookup_take_lt.
Qed.

Lemma push_frame_lookup_eq d n e z :
  d ≤ length z → push_frame d n e z !! d = Some (Frame (unzip (drop d z)) n e).
Proof.
  intros Hd. unfold push_frame.
  rewrite lookup_app_r by (rewrite length_take; lia).
  rewrite length_take. by replace (d - d `min` length z) with 0 by lia.
Qed.

Lemma push_frame_ids d n e z :
  flat_map frame_ids (push_frame d n e z) = flat_map frame_ids z ++ [n].
Proof.
  unfold push_frame. rewrite flat_map_app. simpl. rewrite app_nil_r.
  unfold frame_ids at 2. cbn [lefts fid]. rewrite ids_unzip.
  rewrite app_assoc, <-flat_map_app. by rewrite take_drop.
Qed.

Lemma link_parent_other d n z heap x :
  (∀ d' f, d = S d' → z !! d' = Some f → x ≠ fid f) →
  link_parent d n z heap !! x = heap !! x.
Proof.
  intros H. destruct d as [|d']; [done|]. simpl.
  destruct (z !! d') as [f|] eqn:E; [|done].
  unfold subheaders_append. rewrite list_lookup_alter_ne; [done|].
  intros Heq. by apply (H d' f).
Qed.

Lemma link_parent_at d' n z heap f e subs :
  z !! d' = Some f → heap !! fid f = Some (HeaderObj e subs) →
  link_parent (S d') n z heap !! fid f = Some (HeaderObj e (subs ++ [n])).
Proof.
  intros Hz Hf. simpl. rewrite Hz. unfold subheaders_append.
  by rewrite list_lookup_alter_eq, Hf.
Qed.

Lemma push_heap_inv heap heap' top z d n e :
  heap_inv heap top z → d ≤ length z →
  n ∉ flat_map frame_ids z →
  heap' !! n = Some (HeaderObj e []) →
  (∀ x, x ∈ flat_map frame_ids z → heap' !! x = heap !! x) →
  heap_inv (link_parent d n z heap')
    (match d with 0 => top ++ [n] | S _ => top end) (push_frame d n e z).
Proof.
  intros (Htop & Hcells & Hnd) Hd Hn Hnew Hext.
  assert (∀ i f, z !! i = Some f → fid f ∈ flat_map frame_ids z) as Hfid_in.
  { intros i f Hi. eapply flat_map_lookup_in; [done|apply frame_fid_in]. }
  assert (∀ i f x, z !! i = Some f → x ∈ flat_map ids (lefts f) →
                   x ∈ flat_map frame_ids z) as Hleft_in.
  { intros i f x Hi Hx. eapply flat_map_lookup_in; [done|by apply frame_left_in]. }
  (* frames of [z] other than the parent keep their objects *)
  assert (∀ i f, z !! i = Some f → S i ≠ d →
            link_parent d n z heap' !! fid f =
            Some (HeaderObj (felement f) (spine_subs (drop (S i) z)))) as Hkeep.
  { intros i f Hi Hne. rewrite link_parent_other.
    - rewrite Hext by eauto. by apply Hcells.
    - intros d' g -> Hg Heq. apply Hne. f_equal.
      by apply (frame_fid_inj z i d' f g). }
  assert (∀ i f, z !! i = Some f → Forall (repr (link_parent d n z heap')) (lefts f))
    as Hkeep_lefts.
  { intros i f Hi. apply (Forall_repr_ext heap); [by apply (Hcells i)|].
    intros x Hx. rewrite link_parent_other.
    - apply Hext. eauto.
    - intros d' g -> Hg. by apply (frame_left_not_fid z i d' f g). }
  split; [|split].
  - destruct d as [|d'].
    + unfold push_frame. rewrite take_0, drop_0. simpl.
      by rewrite roots_unzip, Htop.
    + destruct z as [|f0 z']; [simpl in Hd; lia|]. by rewrite Htop.
  - intros i f Hi.
    assert (i < S d) as Hlt.
    { apply lookup_lt_Some in Hi. by rewrite push_frame_length in Hi. }
    destruct (decide (i = d)) as [->|Hne].
    + rewrite push_frame_lookup_eq in Hi by done. simplify_eq. simpl. split.
      * rewrite link_parent_other.
        -- rewrite Hnew. f_equal. f_equal. rewrite spine_subs_drop.
           by rewrite lookup_ge_None_2 by (rewrite push_frame_length; lia).
        -- intros d' g -> Hg ->. apply Hn. eauto.
      * apply repr_unzip. intros i f Hi. rewrite lookup_drop in Hi.
        rewrite drop_drop. replace (d + S i) with (S (d + i)) by lia.
        split; [apply Hkeep; [done|lia]|by apply (Hkeep_lefts (d + i))].
    + rewrite push_frame_lookup_lt in Hi by lia. split; [|by apply (Hkeep_lefts i)].
      destruct (decide (S i = d)) as [<-|Hne'].
      * rewrite spine_subs_drop, push_frame_lookup_eq by done. simpl.
        rewrite roots_unzip.
        apply link_parent_at; [done|]. rewrite Hext by eauto. by apply Hcells.
      * rewrite (Hkeep i f) by done. do 2 f_equal.
        rewrite !spine_subs_drop. by rewrite push_frame_lookup_lt by lia.
  - rewrite push_frame_ids. apply NoDup_app. split; [done|]. split.
    + intros x Hx Hin. apply list_elem_of_singleton in Hin as ->. done.
    + apply NoDup_singleton.
Qed.

(** ** The collector: the list operations *)

Lemma list_getitem_run {A} (l : list A) i x (s : Soup) :
  l !! i = Some x → list_getitem l i s = (inr x, s, []).
Proof. intros E. unfold list_getitem. by rewrite E. Qed.

Lemma list_setitem_run {A} (l : list A) i x (s : Soup) :
  i < length l → list_setitem l i x s = (inr (<[i:=x]> l), s, []).
Proof. intros E. unfold list_setitem. by rewrite decide_True. Qed.

Lemma set_list_elements_seq {A} (v : A) n :
  ∀ a (l : list A) (s : Soup), a + n = length l →
  for_fold (λ l i, list_setitem l i v) l (seq a n) s =
    (inr (take a l ++ replicate n v), s, []).
Proof.
  induction n as [|n IH]; intros a l s Hlen; simpl.
  - rewrite take_ge by lia. by rewrite app_nil_r.
  - erewrite run_bind; [|apply list_setitem_run; lia|apply IH; rewrite length_insert; lia].
    simpl. do 2 f_equal.
    rewrite (take_S_r _ _ v) by (apply list_lookup_insert_eq; lia).
    rewrite take_insert_ge by lia. by rewrite <-app_assoc.
Qed.

Lemma set_list_elements_run {A} (l : list A) v start (s : Soup) :
  start ≤ length l →
  _set_list_elements l v start None s =
    (inr (take start l ++ replicate (length l - start) v), s, []).
Proof.
  intros H. unfold _set_list_elements. simpl. apply set_list_elements_seq. lia.
Qed.

Lemma is_exclude_run url options (s : Soup) :
  _is_exclude url options s =
    (inr (is_excluded options url), s,
     match url with
     | Some u => if is_excluded options url
                 then [LogInfo ("|  (exclude '" +:+ u +:+ "')")] else []
     | None => []
     end).
Proof.
  unfold _is_exclude, is_excluded. destruct url as [u|]; [|done].
  case_decide; [done|]. by destruct (bool_decide _).
Qed.

(** ** The collector: allocation and the level slots *)

Lemma repr_bound heap t x : repr heap t → x ∈ ids t → x < length heap.
Proof.
  unfold repr, ids. intros Hr Hx. apply list_elem_of_fmap in Hx as (c & -> & Hc).
  rewrite Forall_forall in Hr. by eapply lookup_lt_Some, Hr.
Qed.

Lemma heap_inv_bound heap top z x :
  heap_inv heap top z → x ∈ flat_map frame_ids z → x < length heap.
Proof.
  intros (_ & Hcells & _) Hx.
  apply list_elem_of_In, in_flat_map in Hx as (f & Hf & Hx).
  apply list_elem_of_In, list_elem_of_lookup in Hf as (i & Hi).
  destruct (Hcells i f Hi) as [Hfid Hlefts].
  apply list_elem_of_In in Hx. unfold frame_ids in Hx.
  apply elem_of_app in Hx as [Hx|Hx].
  - apply list_elem_of_In, in_flat_map in Hx as (t & Ht & Hx).
    rewrite Forall_forall in Hlefts.
    apply (repr_bound heap t); [apply Hlefts|]; by apply list_elem_of_In.
  - apply list_elem_of_singleton in Hx as ->. by eapply lookup_lt_Some.
Qed.

Lemma heap_inv_ext heap heap' top z :
  heap_inv heap top z →
  (∀ x, x ∈ flat_map frame_ids z → heap' !! x = heap !! x) →
  heap_inv heap' top z.
Proof.
  intros (Htop & Hcells & Hnd) Hext. split; [done|]. split; [|done].
  intros i f Hi. destruct (Hcells i f Hi) as [Hfid Hlefts]. split.
  - rewrite Hext; [done|]. eapply flat_map_lookup_in; [done|apply frame_fid_in].
  - apply (Forall_repr_ext heap); [done|]. intros x Hx. apply Hext.
    eapply flat_map_lookup_in; [done|by apply frame_left_in].
Qed.

Lemma level_slot_push start z d n e j :
  d ≤ length z →
  level_slot start (push_frame d n e z) j =
    if decide (j = start + d) then Some n
    else if decide (j < start + d) then level_slot start z j else None.
Proof.
  intros Hd. unfold level_slot.
  destruct (decide (start ≤ j)) as [Hj|Hj].
  - destruct (decide (j = start + d)) as [->|Hne].
    + replace (start + d - start) with d by lia.
      by rewrite push_frame_lookup_eq.
    + destruct (decide (j < start + d)).
      * by rewrite push_frame_lookup_lt by lia.
      * by rewrite lookup_ge_None_2 by (rewrite push_frame_length; lia).
  - rewrite decide_False by lia. by rewrite decide_True by lia.
Qed.

Lemma levels_inv_lookup start stop levels z i :
  levels_inv start stop levels z → i < stop →
  levels !! i = Some (level_slot start z i).
Proof. intros (_ & _ & H). apply H. Qed.

Lemma level_slot_set start z i f :
  start ≤ i → z !! (i - start) = Some f → level_slot start z i = Some (fid f).
Proof. intros Hi Hz. unfold level_slot. rewrite decide_True by done. by rewrite Hz. Qed.

Lemma level_slot_unset start z i :
  start + length z ≤ i → level_slot start z i = None.
Proof.
  intros Hi. unfold level_slot. case_decide; [|done].
  by rewrite lookup_ge_None_2 by lia.
Qed.

Lemma push_frame_end n e z : push_frame (length z) n e z = z ++ [Frame [] n e].
Proof. unfold push_frame. by rewrite firstn_all, drop_all. Qed.

(** ** The collector: skipped levels *)

Lemma add_skipped_level_set start stop cs z i (s : Soup) :
  levels_inv start stop (header_levels cs) z →
  start ≤ i → i < start + length z →
  add_skipped_level start cs i s = (inr cs, s, []).
Proof.
  intros Hlv Hi Hlt. pose proof Hlv as (Hlen & Hdepth & _).
  destruct (lookup_lt_is_Some_2 z (i - start) ltac:(lia)) as [f Hf].
  unfold add_skipped_level, bind.
  rewrite (list_getitem_run _ i (Some (fid f))); [done|].
  rewrite (levels_inv_lookup start stop _ z) by (done || lia).
  by rewrite (level_slot_set start z i f).
Qed.

Lemma levels_inv_push start stop levels z d n e :
  levels_inv start stop levels z → d ≤ length z → start + d < stop →
  levels_inv start stop
    (take (S (start + d)) (<[start + d := Some n]> levels)
     ++ replicate (stop - S (start + d)) None)
    (push_frame d n e z).
Proof.
  intros (Hlen & Hdepth & Hslots) Hd Hstop. split; [|split].
  - rewrite length_app, length_take, length_insert, length_replicate. lia.
  - rewrite push_frame_length by done. lia.
  - intros j Hj. rewrite level_slot_push by done.
    destruct (decide (j = start + d)) as [->|Hne].
    + rewrite lookup_app_l by (rewrite length_take, length_insert; lia).
      rewrite lookup_take_lt by lia. apply list_lookup_insert_eq. lia.
    + destruct (decide (j < start + d)).
      * rewrite lookup_app_l by (rewrite length_take, length_insert; lia).
        rewrite lookup_take_lt by lia. rewrite list_lookup_insert_ne by lia.
        by apply Hslots.
      * rewrite lookup_app_r by (rewrite length_take, length_insert; lia).
        apply lookup_replicate_2.
        rewrite length_take, length_insert. lia.
Qed.

Lemma levels_inv_push_end start stop levels z n e :
  levels_inv start stop levels z → start + length z < stop →
  levels_inv start stop (<[start + length z := Some n]> levels)
    (push_frame (length z) n e z).
Proof.
  intros (Hlen & Hdepth & Hslots) Hstop. split; [|split].
  - by rewrite length_insert.
  - rewrite push_frame_length by done. lia.
  - intros j Hj. rewrite level_slot_push by done.
    destruct (decide (j = start + length z)) as [->|Hne].
    + apply list_lookup_insert_eq. lia.
    + rewrite list_lookup_insert_ne by lia. rewrite Hslots by done.
      destruct (decide (j < start + length z)); [done|].
      f_equal. apply level_slot_unset. lia.
Qed.

Lemma add_skipped_level_missing start stop cs z (s : Soup) :
  collect_inv start stop cs z → start + length z < stop →
  ∃ cs',
    add_skipped_level start cs (start + length z) s = (inr cs', s, []) ∧
    collect_inv start stop cs' (z ++ [Frame [] (length (heap cs)) None]) ∧
    exclude_levels cs' = exclude_levels cs ∧
    length (heap cs') = S (length (heap cs)) ∧
    (∀ x, x < length (heap cs) → x ∉ flat_map frame_ids z →
          heap cs' !! x = heap cs !! x).
Proof.
  intros [Hheap Hlv] Hstop. pose proof Hlv as (Hlen & Hdepth & Hslots).
  set (m := length (heap cs)).
  set (heap1 := heap cs ++ [HeaderObj None []]).
  exists (CollectState (link_parent (length z) m z heap1)
            (match length z with 0 => top_headers cs ++ [m] | S _ => top_headers cs end)
            (<[start + length z := Some m]> (header_levels cs)) (exclude_levels cs)).
  assert (∀ x, x ∈ flat_map frame_ids z → heap1 !! x = heap cs !! x) as Hext.
  { intros x Hx. unfold heap1. rewrite lookup_app_l; [done|].
    by eapply heap_inv_bound. }
  assert (m ∉ flat_map frame_ids z) as Hfresh.
  { intros Hin. pose proof (heap_inv_bound _ _ _ _ Hheap Hin). unfold m in *. lia. }
  split; [|split; [|split; [done|split]]].
  - unfold add_skipped_level, bind.
    rewrite (list_getitem_run _ _ None)
      by (rewrite Hslots by lia; f_equal; apply level_slot_unset; lia).
    destruct (length z) as [|k] eqn:Hk.
    + rewrite Nat.add_0_r. rewrite decide_True by done. simpl.
      rewrite list_setitem_run by lia. done.
    + rewrite decide_False by lia.
      destruct (lookup_lt_is_Some_2 z k ltac:(lia)) as [f Hf].
      rewrite (list_getitem_run _ _ (Some (fid f))).
      * simpl. rewrite list_setitem_run by lia. simpl. by rewrite Hf.
      * rewrite Hslots by lia. f_equal.
        apply level_slot_set; [lia|].
        by replace (start + S k - 1 - start) with k by lia.
  - split; simpl.
    + rewrite <-push_frame_end.
      apply (push_heap_inv (heap cs)); try done.
      unfold heap1, m. by rewrite list_lookup_middle.
    + rewrite <-push_frame_end. by apply levels_inv_push_end.
  - simpl. destruct (length z) as [|k]; simpl.
    + unfold heap1. rewrite length_app. simpl. lia.
    + destruct (z !! k); unfold subheaders_append, heap1;
        rewrite ?length_alter, length_app; simpl; lia.
  - intros x Hx Hnot. simpl. rewrite link_parent_other.
    + unfold heap1. by rewrite lookup_app_l.
    + intros d' f _ Hf ->. apply Hnot.
      eapply flat_map_lookup_in; [done|apply frame_fid_in].
Qed.

Lemma backfill_set start stop cs z k (s : Soup) :
  levels_inv start stop (header_levels cs) z →
  ∀ a, start ≤ a → a + k ≤ start + length z →
  for_fold (add_skipped_level start) cs (seq a k) s = (inr cs, s, []).
Proof.
  intros Hlv. induction k as [|k IH]; intros a Ha Hk; [done|]. simpl.
  etrans.
  { eapply run_bind; [|apply IH; lia].
    apply (add_skipped_level_set start stop cs z); [done|lia|lia]. }
  done.
Qed.

Lemma backfill_missing start stop k (s : Soup) :
  ∀ cs z, collect_inv start stop cs z → start + length z + k ≤ stop →
  ∃ cs',
    for_fold (add_skipped_level start) cs (seq (start + length z) k) s
      = (inr cs', s, []) ∧
    collect_inv start stop cs' (z ++ placeholders k (length (heap cs))) ∧
    exclude_levels cs' = exclude_levels cs ∧
    length (heap cs') = length (heap cs) + k ∧
    (∀ x, x < length (heap cs) → x ∉ flat_map frame_ids z →
          heap cs' !! x = heap cs !! x).
Proof.
  induction k as [|k IH]; intros cs z Hinv Hk.
  - exists cs. simpl. rewrite app_nil_r, Nat.add_0_r. done.
  - destruct (add_skipped_level_missing start stop cs z s Hinv ltac:(lia))
      as (cs1 & Hrun1 & Hinv1 & Hexcl1 & Hlen1 & Hframe1).
    destruct (IH cs1 _ Hinv1) as (cs' & Hrun & Hinv' & Hexcl & Hlen & Hframe).
    { rewrite length_app. simpl. lia. }
    exists cs'. split; [|split; [|split; [|split]]].
    + simpl. rewrite length_app in Hrun. simpl in Hrun.
      replace (S (start + length z)) with (start + (length z + 1)) by lia.
      etrans; [eapply run_bind; [exact Hrun1|exact Hrun]|done].
    + rewrite Hlen1, <-app_assoc in Hinv'. done.
    + congruence.
    + lia.
    + intros x Hx Hnot. rewrite Hframe; [by apply Hframe1|lia|].
      rewrite flat_map_app. intros Hin. apply elem_of_app in Hin as [Hin|Hin]; [done|].
      simpl in Hin. unfold frame_ids in Hin. simpl in Hin.
      apply list_elem_of_singleton in Hin. lia.
Qed.

(** ** The collector: one header *)

Lemma for_fold_app {A B} (body : B → A → M B) l1 l2 acc s :
  for_fold body acc (l1 ++ l2) s =
  bind (for_fold body acc l1) (λ acc', for_fold body acc' l2) s.
Proof.
  revert acc s. induction l1 as [|x l1 IH]; intros acc s; simpl.
  - by rewrite bind_ret_run.
  - rewrite bind_assoc_run. apply bind_ext; [done|]. intros acc' s1. apply IH.
Qed.

Lemma placeholders_length k m : length (placeholders k m) = k.
Proof. revert m. induction k as [|k IH]; intros m; simpl; [done|]. by rewrite IH. Qed.

Lemma placeholders_ids k m x :
  x ∈ flat_map frame_ids (placeholders k m) → m ≤ x.
Proof.
  revert m. induction k as [|k IH]; intros m; simpl.
  - by intros ?%elem_of_nil.
  - unfold frame_ids at 1. simpl. intros [->|Hin]%elem_of_cons; [done|].
    apply IH in Hin. lia.
Qed.

Lemma finish_levels_run start stop levels z d n e hp tp ex (s : Soup) :
  levels_inv start stop levels z → d ≤ length z → start + d < stop →
  ∃ levels',
    (let* levels1 := list_setitem levels (start + d) (Some n) in
     let* levels2 := _set_list_elements levels1 None (start + d + 1) None in
     ret (CollectState hp tp levels2 ex)) s
      = (inr (CollectState hp tp levels' ex), s, []) ∧
    levels_inv start stop levels' (push_frame d n e z).
Proof.
  intros Hlv Hd Hstop. pose proof Hlv as (Hlen & _ & _).
  exists (take (S (start + d)) (<[start + d := Some n]> levels)
          ++ replicate (stop - S (start + d)) None).
  split; [|by apply levels_inv_push].
  etrans.
  { eapply run_bind; [apply list_setitem_run; lia|].
    eapply run_bind; [apply set_list_elements_run; rewrite length_insert; lia|].
    reflexivity. }
  rewrite length_insert, Hlen, Nat.add_1_r. done.
Qed.

Lemma link_header_run start stop cs z d n h (s : Soup) :
  collect_inv start stop cs z → 1 ≤ d → d ≤ length z → start + d < stop →
  n ∉ flat_map frame_ids z → heap cs !! n = Some (HeaderObj (Some h) []) →
  ∃ cs',
    (let* parent_header := list_getitem (header_levels cs) (start + d - 1) in
     match parent_header with
     | None => raise (AssertionError "parent_header is not None")
     | Some p =>
         ret (CollectState (subheaders_append p n (heap cs)) (top_headers cs)
                (header_levels cs) (exclude_levels cs))
     end) s = (inr cs', s, []) ∧
    heap_inv (heap cs') (top_headers cs') (push_frame d n (Some h) z) ∧
    header_levels cs' = header_levels cs ∧ exclude_levels cs' = exclude_levels cs ∧
    length (heap cs') = length (heap cs).
Proof.
  intros [Hheap Hlv] Hd1 Hd Hstop Hfresh Hn.
  pose proof Hlv as (Hlen & _ & Hslots).
  destruct d as [|d']; [lia|].
  destruct (lookup_lt_is_Some_2 z d' ltac:(lia)) as [f Hf].
  exists (CollectState (subheaders_append (fid f) n (heap cs)) (top_headers cs)
            (header_levels cs) (exclude_levels cs)).
  split; [|split; [|split; [done|split; [done|apply length_alter]]]].
  - unfold bind. rewrite (list_getitem_run _ _ (Some (fid f))); [done|].
    rewrite Hslots by lia. f_equal. apply level_slot_set; [lia|].
    by replace (start + S d' - 1 - start) with d' by lia.
  - simpl.
    pose proof (push_heap_inv (heap cs) (heap cs) (top_headers cs) z (S d') n (Some h)
                  Hheap Hd Hfresh Hn ltac:(done)) as Hpush.
    simpl in Hpush. by rewrite Hf in Hpush.
Qed.

Lemma add_header_run start stop d h cs z (s : Soup) :
  collect_inv start stop cs z → start + d < stop →
  ∃ cs',
    add_header start (start + d) h cs s = (inr cs', s, []) ∧
    collect_inv start stop cs'
      (push_frame d (length (heap cs)) (Some h)
         (z ++ placeholders (d - length z) (S (length (heap cs))))) ∧
    exclude_levels cs' = exclude_levels cs ∧
    length (heap cs') = length (heap cs) + 1 + (d - length z).
Proof.
  intros [Hheap Hlv] Hstop. pose proof Hlv as (Hlen & Hdepth & Hslots).
  set (n := length (heap cs)).
  set (cs1 := CollectState (heap cs ++ [HeaderObj (Some h) []]) (top_headers cs)
                (header_levels cs) (exclude_levels cs)).
  assert (n ∉ flat_map frame_ids z) as Hfresh.
  { intros Hin. pose proof (heap_inv_bound _ _ _ _ Hheap Hin). unfold n in *. lia. }
  assert (heap cs1 !! n = Some (HeaderObj (Some h) [])) as Hn1.
  { unfold cs1, n. simpl. by rewrite list_lookup_middle. }
  assert (collect_inv start stop cs1 z) as Hinv1.
  { split; [|done]. simpl. apply (heap_inv_ext (heap cs)); [done|].
    intros x Hx. rewrite lookup_app_l; [done|]. by eapply heap_inv_bound. }
  (* the three ways of linking the header *)
  assert (∃ cs2 z2,
    (if decide (start + d = start)
     then ret (CollectState (heap cs1) (top_headers cs1 ++ [n])
                 (header_levels cs1) (exclude_levels cs1))
     else
       let* parent_header := list_getitem (header_levels cs1) (start + d - 1) in
       let* cs :=
         (match parent_header with
          | Some _ => ret cs1
          | None =>
              for_fold (add_skipped_level start) cs1 (seq start (start + d - start))
          end) in
       let* parent_header := list_getitem (header_levels cs) (start + d - 1) in
       match parent_header with
       | None => raise (AssertionError "parent_header is not None")
       | Some p =>
           ret (CollectState (subheaders_append p n (heap cs)) (top_headers cs)
                  (header_levels cs) (exclude_levels cs))
       end) s = (inr cs2, s, []) ∧
    z2 = z ++ placeholders (d - length z) (S n) ∧ d ≤ length z2 ∧
    heap_inv (heap cs2) (top_headers cs2) (push_frame d n (Some h) z2) ∧
    levels_inv start stop (header_levels cs2) z2 ∧
    exclude_levels cs2 = exclude_levels cs ∧
    length (heap cs2) = n + 1 + (d - length z))
    as (cs2 & z2 & Hrun2 & Hz2 & Hd2 & Hheap2 & Hlv2 & Hex2 & Hlen2).
  { destruct d as [|d'].
    - rewrite Nat.add_0_r, decide_True by done.
      eexists _, z. split; [reflexivity|]. simpl. rewrite app_nil_r.
      split; [done|]. split; [lia|].
      split; [|split; [done|split; [done|rewrite length_app; simpl; lia]]].
      pose proof (push_heap_inv (heap cs) (heap cs1) (top_headers cs) z 0 n (Some h)
                    Hheap ltac:(lia) Hfresh Hn1) as Hpush.
      apply Hpush. intros x Hx. simpl. rewrite lookup_app_l; [done|].
      by eapply heap_inv_bound.
    - rewrite decide_False by lia.
      replace (start + S d' - start) with (S d') by lia.
      destruct (decide (S d' ≤ length z)) as [Hle|Hgt].
      + (* the parent is there *)
        destruct (lookup_lt_is_Some_2 z d' ltac:(lia)) as [f Hf].
        destruct (link_header_run start stop cs1 z (S d') n h s Hinv1)
          as (cs2 & Hrun & Hheap2 & Hlv2 & Hex2 & Hlen2); [lia|done|lia|done|done|].
        exists cs2, z. split; [|split; [|split; [done|split; [done|split; [|split]]]]].
        * etrans.
          { eapply run_bind; [apply (list_getitem_run _ _ (Some (fid f)))|].
            - simpl. rewrite Hslots by lia. f_equal. apply level_slot_set; [lia|].
              by replace (start + S d' - 1 - start) with d' by lia.
            - cbv beta iota. rewrite bind_ret_run. exact Hrun. }
          done.
        * replace (S d' - length z) with 0 by lia. simpl. by rewrite app_nil_r.
        * by rewrite Hlv2.
        * by rewrite Hex2.
        * rewrite Hlen2. unfold cs1. simpl. rewrite length_app. simpl. lia.
      + (* levels were skipped *)
        destruct (backfill_missing start stop (S d' - length z) s cs1 z Hinv1)
          as (csB & HrunB & HinvB & HexB & HlenB & HframeB); [lia|].
        set (zB := z ++ placeholders (S d' - length z) (length (heap cs1))) in *.
        assert (length zB = S d') as HlenzB.
        { unfold zB. rewrite length_app, placeholders_length. lia. }
        destruct (link_header_run start stop csB zB (S d') n h s HinvB)
          as (cs2 & Hrun & Hheap2 & Hlv2 & Hex2 & Hlen2); [lia|lia|lia| | |].
        { unfold zB. rewrite flat_map_app. intros [Hin|Hin]%elem_of_app; [done|].
          apply placeholders_ids in Hin. unfold cs1 in Hin. simpl in Hin.
          rewrite length_app in Hin. simpl in Hin. unfold n in Hin. lia. }
        { rewrite HframeB; [done| |done].
          unfold cs1, n. simpl. rewrite length_app. simpl. lia. }
        exists cs2, zB. split; [|split; [|split; [lia|split; [done|split; [|split]]]]].
        * etrans.
          { eapply run_bind; [apply (list_getitem_run _ _ None)|].
            - simpl. rewrite Hslots by lia. f_equal. apply level_slot_unset. lia.
            - cbv beta iota. eapply run_bind; [|exact Hrun].
              replace (seq start (S d'))
                with (seq start (length z) ++ seq (start + length z) (S d' - length z)).
              + rewrite for_fold_app.
                erewrite bind_run; [|by apply (backfill_set start stop cs1 z)].
                rewrite HrunB. reflexivity.
              + rewrite <-seq_app. f_equal. lia. }
          done.
        * unfold zB, cs1. simpl. rewrite length_app. simpl. f_equal. f_equal.
          unfold n. lia.
        * rewrite Hlv2. apply HinvB.
        * by rewrite Hex2, HexB.
        * rewrite Hlen2, HlenB. unfold cs1. simpl. rewrite length_app. simpl. lia. }
  destruct (finish_levels_run start stop (header_levels cs2) z2 d n (Some h)
              (heap cs2) (top_headers cs2) (exclude_levels cs2) s Hlv2 Hd2 Hstop)
    as (levels' & Hrun3 & Hlv3).
  exists (CollectState (heap cs2) (top_headers cs2) levels' (exclude_levels cs2)).
  split; [|split; [|split; [done|exact Hlen2]]].
  - unfold add_header. etrans; [eapply run_bind; [exact Hrun2|exact Hrun3]|done].
  - rewrite <-Hz2. split; done.
Qed.

(** ** The collector: frames and [attach] *)

Lemma on_last_snoc {A} (f : A → A) otherwise l x :
  on_last f otherwise (l ++ [x]) = l ++ [f x].
Proof.
  induction l as [|y l IH]; [done|]. simpl.
  destruct (l ++ [x]) eqn:E; [by destruct l|]. by rewrite <-IH.
Qed.

Lemma erase_unzip_push d n e z2 :
  ∀ z, d ≤ length z →
  map erase (unzip (take d z ++ Frame (unzip (drop d z)) n e :: z2)) =
  attach d (HeaderTree e (map erase (unzip z2))) (map erase (unzip z)).
Proof.
  induction d as [|d IH]; intros z Hd.
  - rewrite take_0, drop_0. simpl. by rewrite map_app.
  - destruct z as [|f z]; [simpl in Hd; lia|]. simpl in Hd.
    change (take (S d) (f :: z)) with (f :: take d z).
    change (drop (S d) (f :: z)) with (drop d z).
    change (unzip ((f :: take d z) ++ ?l))
      with (lefts f ++ [LNode (fid f) (felement f) (unzip (take d z ++ l))]).
    rewrite map_app. simpl. rewrite IH by lia.
    rewrite map_app. simpl. by rewrite on_last_snoc.
Qed.

Lemma attach_nil k node : attach k node [] = [chain k node].
Proof. induction k as [|k IH]; [done|]. simpl. by rewrite IH. Qed.

Lemma attach_chain k node z :
  attach (length z + k) node (map erase (unzip z)) =
  attach (length z) (chain k node) (map erase (unzip z)).
Proof.
  induction z as [|f z IH]; simpl.
  - by rewrite attach_nil.
  - rewrite map_app. simpl. rewrite !on_last_snoc. simpl. by rewrite IH.
Qed.

Lemma erase_placeholders k n e :
  ∀ m, map erase (unzip (placeholders k m ++ [Frame [] n e])) =
       [chain k (HeaderTree e [])].
Proof. induction k as [|k IH]; intros m; [done|]. simpl. by rewrite IH. Qed.

Lemma erase_push_placeholders d n e z m :
  map erase (unzip (push_frame d n e (z ++ placeholders (d - length z) m))) =
  attach d (HeaderTree e []) (map erase (unzip z)).
Proof.
  destruct (decide (d ≤ length z)) as [Hle|Hgt].
  - replace (d - length z) with 0 by lia. simpl. rewrite app_nil_r.
    unfold push_frame. by rewrite erase_unzip_push.
  - destruct (d - length z) as [|k] eqn:Hk; [lia|].
    assert (d = length z + S k) as -> by lia.
    pose proof (push_frame_end n e (z ++ placeholders (S k) m)) as Hend.
    rewrite length_app, placeholders_length in Hend. rewrite Hend.
    rewrite <-app_assoc.
    change (placeholders (S k) m ++ [Frame [] n e])
      with (Frame [] m None :: (placeholders k (S m) ++ [Frame [] n e])).
    pose proof (erase_unzip_push (length z) m None
                  (placeholders k (S m) ++ [Frame [] n e]) z ltac:(done)) as E.
    rewrite firstn_all, drop_all in E. simpl in E. rewrite E.
    rewrite erase_placeholders. by rewrite attach_chain.
Qed.

(** ** The collector: depth of the forest *)

Lemma forest_height_app l1 l2 :
  forest_height (l1 ++ l2) = forest_height l1 `max` forest_height l2.
Proof.
  unfold forest_height. induction l1 as [|t l1 IH]; simpl; [done|].
  rewrite IH. lia.
Qed.

Lemma height_node e subs : height (HeaderTree e subs) = S (forest_height subs).
Proof. done. Qed.

Lemma forest_height_singleton t : forest_height [t] = height t.
Proof. unfold forest_height. simpl. lia. Qed.

Lemma attach_height e d :
  ∀ forest, forest_height (attach d (HeaderTree e []) forest)
            ≤ forest_height forest `max` S d.
Proof.
  induction d as [|d IH]; intros forest.
  - simpl. rewrite forest_height_app, forest_height_singleton. simpl. lia.
  - destruct forest as [|t0 forest0 _] using rev_ind.
    + change (attach (S d) (HeaderTree e []) [])
        with [HeaderTree None (attach d (HeaderTree e []) [])].
      rewrite forest_height_singleton, height_node.
      pose proof (IH []) as H. change (forest_height []) with 0 in *. lia.
    + change (attach (S d) ?node (forest0 ++ [t0]))
        with (on_last (λ t, HeaderTree (element t) (attach d node (subheaders t)))
                [HeaderTree None (attach d node [])] (forest0 ++ [t0])).
      rewrite on_last_snoc, !forest_height_app, !forest_height_singleton.
      destruct t0 as [e0 subs]. rewrite !height_node. simpl.
      pose proof (IH subs) as H. lia.
Qed.

Lemma attach_all_height start lvl hs bound :
  (∀ h, h ∈ hs → lvl h - start < bound) →
  ∀ forest, forest_height forest ≤ bound →
  forest_height
    (foldl (λ forest h, attach (lvl h - start) (HeaderTree (Some h) []) forest)
       forest hs) ≤ bound.
Proof.
  induction hs as [|h hs IH]; intros H forest Hf; simpl; [done|].
  apply IH.
  - intros h' Hh'. apply H. by right.
  - pose proof (attach_height (Some h) (lvl h - start) forest).
    pose proof (H h ltac:(left)). lia.
Qed.

Lemma build_forest_height start lvl hs bound :
  (∀ h, h ∈ hs → lvl h - start < bound) →
  forest_height (build_forest start lvl hs) ≤ bound.
Proof.
  intros H. apply attach_all_height; [done|]. unfold forest_height. simpl. lia.
Qed.

(** ** The collector: reading the forest back *)

Lemma repr_node heap i e subs :
  repr heap (LNode i e subs) ↔
  heap !! i = Some (HeaderObj e (map root_id subs)) ∧ Forall (repr heap) subs.
Proof.
  unfold repr. simpl. rewrite Forall_cons. simpl.
  by rewrite Forall_flat_map.
Qed.

Lemma read_headers_repr heap fuel :
  ∀ forest, Forall (repr heap) forest →
  forest_height (map erase forest) ≤ fuel →
  read_headers fuel heap (map root_id forest) = map erase forest.
Proof.
  induction fuel as [|fuel IH]; intros forest Hrepr Hh.
  - destruct forest as [|[i e subs] forest]; [done|].
    unfold forest_height in Hh. simpl in Hh. lia.
  - simpl. induction Hrepr as [|[i e subs] forest Ht Hforest IHf]; [done|].
    apply repr_node in Ht as [Hi Hsubs].
    unfold forest_height in Hh. simpl in Hh.
    simpl. rewrite Hi. simpl. rewrite IH; [|done|unfold forest_height; lia].
    f_equal. apply IHf. unfold forest_height. lia.
Qed.

(** ** The collector: what [find_all] hands over *)

Lemma header_name_level i :
  i < 6 → level_of_name (Some ("h" +:+ pretty (i + 1))) = inr i.
Proof.
  intros H. do 6 (destruct i as [|i]; [by vm_compute|]). lia.
Qed.

Lemma find_all_level (s : Soup) start stop h :
  stop ≤ 6 → h ∈ find_all_in s (header_names start stop) →
  level_of_name (name (tag_of s h)) = inr (level_in s h) ∧
  start ≤ level_in s h < stop.
Proof.
  intros Hstop Hin. unfold find_all_in in Hin.
  apply list_elem_of_filter in Hin as [Hname _].
  unfold name_in in Hname. unfold level_in.
  destruct (name (tag_of s h)) as [nm|]; [|done].
  apply bool_decide_unpack in Hname. unfold header_names in Hname.
  apply list_elem_of_In, in_map_iff in Hname as (i & <- & Hi).
  apply list_elem_of_In, elem_of_seq in Hi.
  rewrite header_name_level by lia. split; [done|lia].
Qed.

(** ** The collector: exclusion flags *)

Lemma existsb_replicate_false n : existsb id (replicate n false) = false.
Proof. induction n as [|n IH]; [done|]. simpl. exact IH. Qed.

Lemma exclude_inv_init lvl exc stop : exclude_inv lvl exc stop [] (replicate stop false).
Proof.
  split; [by rewrite length_replicate|]. intros m Hm. simpl.
  by rewrite take_replicate, existsb_replicate_false.
Qed.

Lemma exclude_inv_step lvl exc stop before excl h :
  exclude_inv lvl exc stop before excl → lvl h < stop →
  let excl' := take (S (lvl h)) (<[lvl h := exc h]> excl)
               ++ replicate (stop - S (lvl h)) false in
  existsb id (take (lvl h) excl') = under_excluded lvl exc before (lvl h) ∧
  exclude_inv lvl exc stop (h :: before) excl'.
Proof.
  intros [Hlen Hinv] Hlt excl'.
  assert (excl' = take (lvl h) excl ++ exc h :: replicate (stop - S (lvl h)) false)
    as Hexcl'.
  { unfold excl'.
    rewrite (take_S_r _ _ (exc h)) by (apply list_lookup_insert_eq; lia).
    rewrite take_insert_ge by lia. by rewrite <-app_assoc. }
  assert (length (take (lvl h) excl) = lvl h) as Hlt' by (rewrite length_take; lia).
  assert (∀ m, m ≤ lvl h → take m excl' = take m excl) as Hle.
  { intros m Hm. rewrite Hexcl', take_app_le by lia.
    rewrite take_take. f_equal. lia. }
  split; [|split].
  - rewrite Hle by done. apply Hinv. lia.
  - rewrite Hexcl', length_app, Hlt'. simpl. rewrite length_replicate. lia.
  - intros m Hm. simpl. destruct (lvl h <? m) eqn:E.
    + apply Nat.ltb_lt in E.
      rewrite Hexcl', take_app_ge by lia. rewrite Hlt'.
      destruct (m - lvl h) as [|k] eqn:Hk; [lia|]. simpl.
      rewrite existsb_app. simpl.
      rewrite take_replicate, existsb_replicate_false, orb_false_r.
      rewrite Hinv by lia. unfold id. apply orb_comm.
    + apply Nat.ltb_ge in E. rewrite Hle by done. by apply Hinv.
Qed.

Lemma included_from_subset lvl exc hs :
  ∀ before h, h ∈ included_from lvl exc before hs → h ∈ hs.
Proof.
  induction hs as [|h' hs IH]; intros before h; simpl; [done|].
  intros [Hin|Hin]%elem_of_app.
  - destruct (under_excluded _ _ _ _); [by apply elem_of_nil in Hin|].
    apply list_elem_of_singleton in Hin as ->. left.
  - right. by eapply IH.
Qed.

(** ** The collector: the loop *)

Lemma header_level_run nm level (s : Soup) :
  level_of_name nm = inr level → header_level nm s = (inr level, s, []).
Proof. intros E. unfold header_level. by rewrite E. Qed.

Lemma collect_step_run options start stop cs z before h (s : Soup) :
  collect_inv start stop cs z →
  exclude_inv (level_in s) (excluded_in options s) stop before (exclude_levels cs) →
  level_of_name (name (tag_of s h)) = inr (level_in s h) →
  start ≤ level_in s h < stop →
  ∃ cs' z',
    collect_step options start cs h s = (inr cs', s, exclusion_logs options s [h]) ∧
    collect_inv start stop cs' z' ∧
    exclude_inv (level_in s) (excluded_in options s) stop (h :: before)
      (exclude_levels cs') ∧
    map erase (unzip z') =
      foldl (attach_heading start (level_in s)) (map erase (unzip z))
        (included_from (level_in s) (excluded_in options s) before [h]).
Proof.
  intros Hinv Hex Hlevel Hrange.
  destruct (exclude_inv_step _ _ _ _ _ h Hex ltac:(lia)) as [Htest Hex'].
  pose proof Hex as [Hexlen _].
  set (level := level_in s h) in *.
  set (excl' := take (S level) (<[level := excluded_in options s h]> (exclude_levels cs))
                ++ replicate (stop - S level) false) in *.
  set (cs_e := CollectState (heap cs) (top_headers cs) (header_levels cs) excl').
  assert (collect_inv start stop cs_e z) as Hinv_e by exact Hinv.
  assert (∃ cs' z',
    (if existsb id (take level excl') then ret cs_e
     else add_header start level h cs_e) s = (inr cs', s, []) ∧
    collect_inv start stop cs' z' ∧ exclude_levels cs' = excl' ∧
    map erase (unzip z') =
      foldl (attach_heading start (level_in s)) (map erase (unzip z))
        (included_from (level_in s) (excluded_in options s) before [h]))
    as (cs' & z' & Hrun & Hinv' & Hexcl' & Herase).
  { simpl. fold level. rewrite Htest.
    destruct (under_excluded _ _ before level).
    - exists cs_e, z. done.
    - destruct (add_header_run start stop (level - start) h cs_e z s Hinv_e)
        as (cs' & Hrun & Hinv' & Hexcl' & _); [lia|].
      replace (start + (level - start)) with level in Hrun by lia.
      eexists cs', _. split; [done|]. split; [done|]. split; [done|].
      simpl. unfold attach_heading at 1. fold level.
      apply erase_push_placeholders. }
  exists cs', z'. split; [|split; [done|split; [by rewrite Hexcl'|done]]].
  unfold collect_step. etrans.
  { eapply run_bind; [reflexivity|].
    eapply run_bind; [by apply header_level_run|].
    eapply run_bind; [apply is_exclude_run|].
    eapply run_bind; [apply list_setitem_run; lia|].
    eapply run_bind; [apply set_list_elements_run; rewrite length_insert; lia|].
    rewrite length_insert, Hexlen, Nat.add_1_r. exact Hrun. }
  by f_equal.
Qed.

Lemma collect_loop_run options start stop (s : Soup) hs :
  ∀ cs z before,
  collect_inv start stop cs z →
  exclude_inv (level_in s) (excluded_in options s) stop before (exclude_levels cs) →
  (∀ h, h ∈ hs →
     level_of_name (name (tag_of s h)) = inr (level_in s h) ∧
     start ≤ level_in s h < stop) →
  ∃ cs' z',
    for_fold (collect_step options start) cs hs s
      = (inr cs', s, exclusion_logs options s hs) ∧
    collect_inv start stop cs' z' ∧
    exclude_inv (level_in s) (excluded_in options s) stop (reverse hs ++ before)
      (exclude_levels cs') ∧
    map erase (unzip z') =
      foldl (attach_heading start (level_in s)) (map erase (unzip z))
        (included_from (level_in s) (excluded_in options s) before hs).
Proof.
  induction hs as [|h hs IH]; intros cs z before Hinv Hex Hhs.
  - exists cs, z. done.
  - destruct (Hhs h ltac:(left)) as [Hlevel Hrange].
    destruct (collect_step_run options start stop cs z before h s Hinv Hex Hlevel Hrange)
      as (cs1 & z1 & Hrun1 & Hinv1 & Hex1 & Herase1).
    destruct (IH cs1 z1 (h :: before) Hinv1 Hex1)
      as (cs' & z' & Hrun & Hinv' & Hex' & Herase).
    { intros h' Hh'. apply Hhs. by right. }
    exists cs', z'. split; [|split; [done|split]].
    + simpl. etrans; [eapply run_bind; [exact Hrun1|exact Hrun]|].
      f_equal. unfold exclusion_logs. simpl. f_equal. apply app_nil_r.
    + by rewrite reverse_cons, <-app_assoc.
    + rewrite Herase, Herase1. simpl. by rewrite !foldl_app.
Qed.

Lemma collect_inv_init start stop :
  start ≤ stop →
  collect_inv start stop
    (CollectState [] [] (replicate stop None) (replicate stop false)) [].
Proof.
  intros Hle. split; simpl.
  - split; [done|]. split; [|constructor]. intros i f Hi. done.
  - split; [by rewrite length_replicate|]. split; [simpl; lia|].
    intros i Hi. rewrite lookup_replicate_2 by done. f_equal.
    unfold level_slot. by case_decide.
Qed.

Theorem collect_headers_spec options (start_level stop_level : Z) (s : Soup) :
  window_ok start_level stop_level →
  _collect_headers options start_level stop_level s =
    (inr (collected options s (Z.to_nat start_level) (Z.to_nat stop_level)), s,
     exclusion_logs options s
       (find_all_in s (header_names (Z.to_nat start_level) (Z.to_nat stop_level)))).
Proof.
  intros (H0 & Hlt & Hmax). unfold _MAX_HEADER_LEVEL in Hmax.
  set (start := Z.to_nat start_level). set (stop := Z.to_nat stop_level).
  set (hs := find_all_in s (header_names start stop)).
  destruct (collect_loop_run options start stop s hs
              (CollectState [] [] (replicate stop None) (replicate stop false)) [] [])
    as (cs' & z' & Hrun & [Hheap Hlv] & _ & Herase).
  { apply collect_inv_init. unfold start, stop. lia. }
  { apply exclude_inv_init. }
  { intros h Hh. apply (find_all_level s start stop); [unfold stop; lia|done]. }
  unfold _collect_headers.
  rewrite !bool_decide_eq_true_2 by (unfold _MAX_HEADER_LEVEL; lia).
  unfold py_assert. rewrite !bind_ret_run. fold start stop.
  etrans.
  { eapply run_bind; [reflexivity|]. eapply run_bind; [exact Hrun|]. reflexivity. }
  simpl. rewrite app_nil_r. do 2 f_equal.
  destruct Hheap as (Htop & Hcells & Hnd).
  rewrite Htop, <-roots_unzip. rewrite read_headers_repr.
  - by rewrite Herase.
  - by apply repr_unzip.
  - rewrite Herase. simpl.
    transitivity (stop - start); [|lia].
    apply (attach_all_height start (level_in s)).
    + intros h Hh. apply included_from_subset in Hh.
      pose proof (find_all_level s start stop h ltac:(unfold stop; lia) Hh). lia.
    + unfold forest_height. simpl. lia.
Qed.

(** ** The collector: the elements of the forest *)

Lemma real_elements_app forest1 forest2 :
  real_elements (forest1 ++ forest2) = real_elements forest1 ++ real_elements forest2.
Proof. unfold real_elements. by rewrite flat_map_app, omap_app. Qed.

Lemma real_elements_node e subs :
  real_elements [HeaderTree e subs] =
  match e with Some h => [h] | None => [] end ++ real_elements subs.
Proof. unfold real_elements. simpl. rewrite app_nil_r. by destruct e. Qed.

Lemma real_elements_attach h d :
  ∀ forest, real_elements (attach d (HeaderTree (Some h) []) forest)
            = real_elements forest ++ [h].
Proof.
  induction d as [|d IH]; intros forest.
  - simpl. by rewrite real_elements_app.
  - destruct forest as [|t0 forest0 _] using rev_ind.
    + change (attach (S d) (HeaderTree (Some h) []) [])
        with [HeaderTree None (attach d (HeaderTree (Some h) []) [])].
      rewrite real_elements_node. simpl. by rewrite IH.
    + change (attach (S d) ?node (forest0 ++ [t0]))
        with (on_last (λ t, HeaderTree (element t) (attach d node (subheaders t)))
                [HeaderTree None (attach d node [])] (forest0 ++ [t0])).
      rewrite on_last_snoc, !real_elements_app.
      destruct t0 as [e0 subs]. simpl. rewrite !real_elements_node, IH.
      by rewrite !app_assoc.
Qed.

Lemma real_elements_build_forest start lvl hs :
  real_elements (build_forest start lvl hs) = hs.
Proof.
  unfold build_forest.
  assert (∀ forest,
    real_elements
      (foldl (λ forest h, attach (lvl h - start) (HeaderTree (Some h) []) forest)
         forest hs) = real_elements forest ++ hs) as H.
  { induction hs as [|h hs IH]; intros forest; simpl.
    - by rewrite app_nil_r.
    - rewrite IH, real_elements_attach. by rewrite <-app_assoc. }
  by rewrite H.
Qed.

Lemma included_from_sublist lvl exc hs :
  ∀ before, included_from lvl exc before hs `sublist_of` hs.
Proof.
  induction hs as [|h hs IH]; intros before; simpl; [done|].
  destruct (under_excluded _ _ _ _); simpl.
  - by apply sublist_cons.
  - by apply sublist_skip.
Qed.

(** The headings that [find_all] hands over are the elements of the
    document named [h(i + 1)] for a level [i] of the window. *)
Lemma find_all_headings (s : Soup) start stop h :
  h ∈ find_all_in s (header_names start stop) ↔
  h ∈ descendants (length s) s soup_root ∧
  ∃ i, start ≤ i < stop ∧ name (tag_of s h) = Some ("h" +:+ pretty (i + 1)).
Proof.
  unfold find_all_in. rewrite list_elem_of_filter. unfold name_in, header_names.
  split.
  - intros [Hname Hin]. split; [done|].
    destruct (name (tag_of s h)) as [nm|]; [|done].
    apply bool_decide_unpack, list_elem_of_fmap in Hname as (i & -> & Hi).
    apply elem_of_seq in Hi. exists i. split; [lia|done].
  - intros [Hin (i & Hi & ->)]. split; [|done].
    apply bool_decide_pack, list_elem_of_fmap. exists i. split; [done|].
    apply elem_of_seq. lia.
Qed.

Lemma included_from_app lvl exc hs1 hs2 :
  ∀ before,
  included_from lvl exc before (hs1 ++ hs2) =
  included_from lvl exc before hs1
  ++ included_from lvl exc (reverse hs1 ++ before) hs2.
Proof.
  induction hs1 as [|h hs1 IH]; intros before; simpl; [done|].
  rewrite IH, reverse_cons, <-!app_assoc. done.
Qed.

Lemma build_forest_nested start (lvl : ref → nat) (exc : ref → bool) a b c :
  lvl a = start → lvl b = start + 1 → lvl c = start + 2 →
  exc a = false → exc b = true →
  build_forest start lvl (included_from lvl exc [] [a; b; c])
  = [HeaderTree (Some a) [HeaderTree (Some b) []]].
Proof.
  intros Ha Hb Hc Hexa Hexb. unfold build_forest. simpl.
  rewrite Ha, Hb, Hc, Hexa, Hexb.
  replace (start <? start + 1) with true by (symmetry; apply Nat.ltb_lt; lia).
  replace (start + 1 <? start + 2) with true by (symmetry; apply Nat.ltb_lt; lia).
  replace (start - start) with 0 by lia.
  simpl. rewrite Hb.
  replace (start + 1 - start) with 1 by lia. done.
Qed.

(** ** The collector: skipped levels, as one turn of the loop leaves them *)

Lemma placeholders_lookup k :
  ∀ m j, j < k → placeholders k m !! j = Some (Frame [] (m + j) None).
Proof.
  induction k as [|k IH]; intros m j Hj; [lia|].
  destruct j as [|j]; simpl.
  - by rewrite Nat.add_0_r.
  - rewrite IH by lia. do 2 f_equal. lia.
Qed.

Lemma forest_of_inv start stop cs z :
  collect_inv start stop cs z → forest_height (map erase (unzip z)) ≤ stop →
  forest_of stop cs = map erase (unzip z).
Proof.
  intros [(Htop & Hcells & _) _] Hh. unfold forest_of.
  rewrite Htop, <-roots_unzip. apply read_headers_repr; [by apply repr_unzip|done].
Qed.

Lemma collect_loop_inv options start stop (s : Soup) hs :
  start ≤ stop → stop ≤ 6 →
  (∀ h, h ∈ hs → h ∈ find_all_in s (header_names start stop)) →
  ∃ cs z,
    collect_loop options start stop hs s = (inr cs, s, exclusion_logs options s hs) ∧
    collect_inv start stop cs z ∧
    exclude_inv (level_in s) (excluded_in options s) stop (reverse hs)
      (exclude_levels cs) ∧
    map erase (unzip z) =
      build_forest start (level_in s)
        (included_from (level_in s) (excluded_in options s) [] hs) ∧
    forest_height (map erase (unzip z)) ≤ stop - start.
Proof.
  intros Hle Hstop Hhs.
  destruct (collect_loop_run options start stop s hs
              (CollectState [] [] (replicate stop None) (replicate stop false)) [] [])
    as (cs & z & Hrun & Hinv & Hex & Herase).
  { by apply collect_inv_init. }
  { apply exclude_inv_init. }
  { intros h Hh. apply (find_all_level s start stop); [done|by apply Hhs]. }
  exists cs, z. rewrite app_nil_r in Hex.
  split; [done|]. split; [done|]. split; [done|]. split; [exact Herase|].
  rewrite Herase. apply (attach_all_height start (level_in s)).
  - intros h Hh. apply included_from_subset in Hh.
    pose proof (find_all_level s start stop h Hstop (Hhs h Hh)). lia.
  - unfold forest_height. simpl. lia.
Qed.

Lemma collect_step_included options start stop cs z before h (s : Soup) :
  collect_inv start stop cs z →
  exclude_inv (level_in s) (excluded_in options s) stop before (exclude_levels cs) →
  level_of_name (name (tag_of s h)) = inr (level_in s h) →
  start ≤ level_in s h < stop →
  under_excluded (level_in s) (excluded_in options s) before (level_in s h) = false →
  ∃ cs',
    collect_step options start cs h s = (inr cs', s, exclusion_logs options s [h]) ∧
    collect_inv start stop cs'
      (push_frame (level_in s h - start) (length (heap cs)) (Some h)
         (z ++ placeholders (level_in s h - start - length z) (S (length (heap cs))))) ∧
    length (heap cs') = length (heap cs) + 1 + (level_in s h - start - length z).
Proof.
  intros Hinv Hex Hlevel Hrange Hincl.
  destruct (exclude_inv_step _ _ _ _ _ h Hex ltac:(lia)) as [Htest Hex'].
  pose proof Hex as [Hexlen _].
  set (level := level_in s h) in *.
  set (excl' := take (S level) (<[level := excluded_in options s h]> (exclude_levels cs))
                ++ replicate (stop - S level) false) in *.
  set (cs_e := CollectState (heap cs) (top_headers cs) (header_levels cs) excl').
  assert (collect_inv start stop cs_e z) as Hinv_e by exact Hinv.
  destruct (add_header_run start stop (level - start) h cs_e z s Hinv_e)
    as (cs' & Hrun & Hinv' & Hexcl' & Hlen'); [lia|].
  replace (start + (level - start)) with level in Hrun by lia.
  assert ((if existsb id (take level excl') then ret cs_e
           else add_header start level h cs_e) s = (inr cs', s, [])) as Hrun'.
  { rewrite Htest, Hincl. exact Hrun. }
  exists cs'. split; [|split; [exact Hinv'|exact Hlen']].
  unfold collect_step. etrans.
  { eapply run_bind; [reflexivity|].
    eapply run_bind; [by apply header_level_run|].
    eapply run_bind; [apply is_exclude_run|].
    eapply run_bind; [apply list_setitem_run; lia|].
    eapply run_bind; [apply set_list_elements_run; rewrite length_insert; lia|].
    rewrite length_insert, Hexlen, Nat.add_1_r. exact Hrun'. }
  by f_equal.
Qed.

Lemma backfilled_inv start stop level h cs cs' z :
  collect_inv start stop cs z → start + length z < level → level < stop →
  collect_inv start stop cs'
    (push_frame (level - start) (length (heap cs)) (Some h)
       (z ++ placeholders (level - start - length z) (S (length (heap cs))))) →
  length (heap cs') = length (heap cs) + 1 + (level - start - length z) →
  backfilled start level (start + length z) h cs cs'.
Proof.
  intros [Hheap Hlv] Hk Hstop [Hheap' Hlv'] Hlen.
  remember (length (heap cs)) as n eqn:Hn.
  remember (length z) as k eqn:Hkz.
  remember (level - start) as d eqn:Hd.
  remember (placeholders (d - k) (S n)) as zp eqn:Hzp.
  assert (length zp = d - k) as Hlenzp by (rewrite Hzp; apply placeholders_length).
  assert (push_frame d n (Some h) (z ++ zp) = (z ++ zp) ++ [Frame [] n (Some h)]) as Hz'.
  { rewrite <-(push_frame_end n (Some h) (z ++ zp)). f_equal.
    rewrite length_app. lia. }
  rewrite Hz' in Hheap', Hlv'. clear Hz'.
  remember ((z ++ zp) ++ [Frame [] n (Some h)]) as z' eqn:Hz'.
  assert (∀ i, i < k → z' !! i = z !! i) as Hold.
  { intros i Hi. rewrite Hz'.
    rewrite lookup_app_l by (rewrite length_app; lia).
    by rewrite lookup_app_l by lia. }
  assert (∀ j, j < d - k → z' !! (k + j) = Some (Frame [] (S n + j) None)) as Hnew.
  { intros j Hj. rewrite Hz'.
    rewrite lookup_app_l by (rewrite length_app; lia).
    rewrite lookup_app_r by lia.
    replace (k + j - length z) with j by lia.
    rewrite Hzp. by apply placeholders_lookup. }
  assert (z' !! d = Some (Frame [] n (Some h))) as Hlast.
  { rewrite Hz'. apply list_lookup_middle. rewrite length_app. lia. }
  assert (z' !! S d = None) as Hend.
  { apply lookup_ge_None_2. rewrite Hz', !length_app. simpl. lia. }
  assert (∀ i f, start ≤ i < stop → z' !! (i - start) = Some f →
            header_levels cs' !! i = Some (Some (fid f))) as Hslot'.
  { intros i f Hi Hf. rewrite (levels_inv_lookup start stop _ z') by (done || lia).
    f_equal. by apply level_slot_set; [lia|]. }
  destruct Hheap as (Htop & Hcells & _). destruct Hheap' as (Htop' & Hcells' & _).
  assert (∀ i f g, z' !! i = Some f → z' !! S i = Some g → lefts g = [] →
            heap cs' !! fid f = Some (HeaderObj (felement f) [fid g])) as Hchild.
  { intros i f g Hf Hg Hl. destruct (Hcells' i f Hf) as [Hobj _].
    rewrite spine_subs_drop, Hg, Hl in Hobj. exact Hobj. }
  split; [lia|]. split; [|split; [|split]].
  - intros i Hi.
    rewrite (levels_inv_lookup start stop _ z'), (levels_inv_lookup start stop _ z)
      by (done || lia).
    f_equal. unfold level_slot. case_decide; [|done]. by rewrite Hold by lia.
  - intros i Hi.
    assert (z' !! (i - start) = Some (Frame [] (S n + (i - start - k)) None)) as Hf.
    { replace (i - start) with (k + (i - start - k)) at 1 by lia. apply Hnew. lia. }
    destruct (decide (S i = level)) as [Heq|Hne].
    + assert (z' !! S (i - start) = Some (Frame [] n (Some h))) as Hg.
      { replace (S (i - start)) with d by lia. done. }
      exists (S n + (i - start - k)), n.
      split; [by apply (Hslot' i _ ltac:(lia) Hf)|].
      split. { apply (Hslot' (S i) (Frame [] n (Some h))); [lia|].
               by replace (S i - start) with (S (i - start)) by lia. }
      split; [lia|]. by apply (Hchild _ _ _ Hf Hg).
    + assert (z' !! S (i - start) = Some (Frame [] (S n + S (i - start - k)) None)) as Hg.
      { replace (S (i - start)) with (k + S (i - start - k)) by lia. apply Hnew. lia. }
      exists (S n + (i - start - k)), (S n + S (i - start - k)).
      split; [by apply (Hslot' i _ ltac:(lia) Hf)|].
      split. { apply (Hslot' (S i) (Frame [] (S n + S (i - start - k)) None)); [lia|].
               by replace (S i - start) with (S (i - start)) by lia. }
      split; [lia|]. by apply (Hchild _ _ _ Hf Hg).
  - exists n. split.
    + apply (Hslot' level (Frame [] n (Some h))); [lia|]. by rewrite <-Hd.
    + destruct (Hcells' d _ Hlast) as [Hobj _].
      rewrite spine_subs_drop, Hend in Hobj. exact Hobj.
  - assert (z' !! k = Some (Frame [] (S n) None)) as Hp.
    { replace k with (k + 0) by lia. rewrite (Hnew 0) by lia.
      by rewrite Nat.add_0_r. }
    pose proof (spine_subs_drop z' 0) as Htop0'. rewrite drop_0 in Htop0'.
    pose proof (spine_subs_drop z 0) as Htop0. rewrite drop_0 in Htop0.
    exists (S n). split.
    { apply (Hslot' (start + k) (Frame [] (S n) None)); [lia|].
      by replace (start + k - start) with k by lia. }
    case_decide as Hfirst.
    + assert (k = 0) as Hk0 by lia. rewrite Hk0 in Hp.
      assert (z = []) as Hnil by (apply nil_length_inv; lia).
      rewrite Htop', Htop, Htop0', Hp, Hnil. done.
    + destruct (lookup_lt_is_Some_2 z (k - 1) ltac:(lia)) as [f Hf].
      assert (z' !! (k - 1) = Some f) as Hf' by (rewrite Hold by lia; done).
      split.
      * rewrite Htop', Htop, Htop0', Htop0.
        destruct k as [|k1]; [lia|].
        assert (z' !! 0 = z !! 0) as -> by (apply Hold; lia). done.
      * exists (fid f), (HeaderObj (felement f) []).
        split; [|split].
        -- rewrite (levels_inv_lookup start stop _ z) by (done || lia).
           f_equal. apply level_slot_set; [lia|].
           by replace (start + k - 1 - start) with (k - 1) by lia.
        -- destruct (Hcells (k - 1) f Hf) as [Hobj _].
           rewrite spine_subs_drop in Hobj.
           replace (S (k - 1)) with k in Hobj by lia.
           rewrite (lookup_ge_None_2 z k) in Hobj by lia. exact Hobj.
        -- simpl. apply (Hchild (k - 1) f (Frame [] (S n) None)); [done| |done].
           by replace (S (k - 1)) with k by lia.
Qed.

Lemma unset_from_inv start stop level cs z :
  levels_inv start stop (header_levels cs) z →
  start + length z < level → level ≤ stop →
  unset_from start level (start + length z) cs.
Proof.
  intros Hlv Hk Hstop. split; [lia|]. intros i Hi.
  rewrite (levels_inv_lookup start stop _ z) by (done || lia).
  unfold level_slot. rewrite decide_True by lia. split.
  - intros [= Hnone]. apply fmap_None, lookup_ge_None_1 in Hnone. lia.
  - intros Hle. f_equal. by rewrite lookup_ge_None_2 by lia.
Qed.

Lemma backfill_step_reachable options start stop (s : Soup) before h after cs :
  start < stop ≤ 6 →
  find_all_in s (header_names start stop) = before ++ h :: after →
  result_of (collect_loop options start stop before s) = inr cs →
  under_excluded (level_in s) (excluded_in options s) (reverse before) (level_in s h)
    = false →
  start < level_in s h →
  header_levels cs !! (level_in s h - 1) = Some None →
  backfill_step options start stop s h cs.
Proof.
  intros [Hlt Hmax] Hhs Hreach Hincl Hdeep Hslot.
  destruct (collect_loop_inv options start stop s before)
    as (cs0 & z & Hrun & Hinv & Hex & Herase & Hheight); [lia|done| |].
  { intros x Hx. rewrite Hhs. apply elem_of_app. by left. }
  rewrite Hrun in Hreach. unfold result_of in Hreach. simpl in Hreach.
  injection Hreach as ->.
  destruct (find_all_level s start stop h Hmax) as [Hlevel Hrange].
  { rewrite Hhs. apply elem_of_app. right. left. }
  remember (level_in s h) as level eqn:Hlevel_eq.
  assert (start + length z < level) as Hk.
  { destruct Hinv as [_ Hlv].
    rewrite (levels_inv_lookup start stop _ z) in Hslot by (done || lia).
    injection Hslot as Hslot. unfold level_slot in Hslot.
    rewrite decide_True in Hslot by lia.
    apply fmap_None, lookup_ge_None_1 in Hslot. lia. }
  rewrite Hlevel_eq in Hlevel, Hrange, Hincl.
  destruct (collect_step_included options start stop cs z (reverse before) h s
              Hinv Hex Hlevel Hrange Hincl) as (cs' & Hstep & Hinv' & Hlen').
  rewrite <-Hlevel_eq in Hinv', Hlen', Hrange.
  unfold backfill_step. rewrite <-Hlevel_eq.
  exists (start + length z), cs'.
  split; [by rewrite Hstep|].
  split; [apply (unset_from_inv start stop); [apply Hinv|done|lia]|].
  split; [apply (backfilled_inv start stop level h cs cs' z); (done || lia)|].
  rewrite (forest_of_inv start stop cs z), (forest_of_inv start stop cs' _ Hinv').
  - rewrite erase_push_placeholders.
    replace (start + length z - start) with (length z) by lia.
    replace (level - start) with (length z + (level - (start + length z))) by lia.
    apply attach_chain.
  - rewrite erase_push_placeholders.
    etrans; [apply attach_height|]. lia.
  - done.
  - lia.
Qed.

Lemma build_forest_skip (lvl : ref → nat) (exc : ref → bool) a b :
  lvl a = 0 → lvl b = 3 → exc a = false →
  build_forest 0 lvl (included_from lvl exc [] [a; b])
  = [HeaderTree (Some a)
       [HeaderTree None [HeaderTree None [HeaderTree (Some b) []]]]].
Proof.
  intros Ha Hb Hexa. unfold build_forest. simpl.
  rewrite Ha, Hb, Hexa. simpl. by rewrite Hb.
Qed.

(** ** Order injection: which nodes are labelled *)

Lemma omap_fst_fmap {A B} (l : list (option A * B)) : omap fst l = omap id (l.*1).
Proof.
  induction l as [|[[a|] b] l IH]; [done| |].
  - change (a :: omap fst l = a :: omap id (l.*1)). by rewrite IH.
  - exact IH.
Qed.

Lemma flat_enumerate_elements {B} (f : nat → _HeaderTree → list (option ref * B)) subs :
  Forall (λ sub, ∀ i, (f i sub).*1 = preorder sub) subs →
  ∀ i, (flat_enumerate f subs i).*1 = flat_map preorder subs.
Proof.
  induction 1 as [|sub subs Hsub Hsubs IH]; intros i; [done|].
  simpl. by rewrite fmap_app, Hsub, IH.
Qed.

Lemma label_tree_elements t : ∀ label, (label_tree label t).*1 = preorder t.
Proof.
  induction t as [e subs IH] using HeaderTree_ind'. intros label.
  change (label_tree label (HeaderTree e subs))
    with ((e, label) :: flat_enumerate
                          (λ i sub, label_tree (child_label (Some label) i) sub) subs 0).
  rewrite fmap_cons. simpl. f_equal.
  apply flat_enumerate_elements.
  eapply Forall_impl; [exact IH|]. simpl. auto.
Qed.

Lemma label_forest_elements forest :
  omap fst (label_forest forest) = real_elements forest.
Proof.
  rewrite omap_fst_fmap. unfold real_elements, label_forest. f_equal.
  apply flat_enumerate_elements. apply Forall_forall. intros t _ i.
  apply label_tree_elements.
Qed.

Lemma label_forest_second_child e first e2 subs2 others rest :
  ∃ tail,
    label_forest (HeaderTree e (first :: HeaderTree e2 subs2 :: others) :: rest) =
    (e, "1") :: label_tree "1.1" first ++ (e2, "1.2") :: tail.
Proof.
  eexists. unfold label_forest.
  change (flat_enumerate ?f (?t :: rest) 0) with (f 0 t ++ flat_enumerate f rest 1).
  cbv beta.
  change (child_label None 0) with "1".
  change (label_tree "1" (HeaderTree e ?subs))
    with ((e, "1") :: flat_enumerate
                        (λ i sub, label_tree (child_label (Some "1") i) sub) subs 0).
  change (flat_enumerate ?f (first :: ?t :: others) 0)
    with (f 0 first ++ f 1 t ++ flat_enumerate f others 2).
  cbv beta.
  change (child_label (Some "1") 0) with "1.1".
  change (child_label (Some "1") 1) with "1.2".
  change (label_tree "1.2" (HeaderTree e2 subs2))
    with ((e2, "1.2") :: flat_enumerate
                          (λ i sub, label_tree (child_label (Some "1.2") i) sub) subs2 0).
  rewrite <-!app_comm_cons, <-!app_assoc. rewrite <-app_comm_cons. reflexivity.
Qed.

Lemma find_all_valid (s : Soup) names h : h ∈ find_all_in s names → h < length s.
Proof.
  unfold find_all_in. intros [Hname _]%list_elem_of_filter.
  destruct (decide (h < length s)) as [|Hge]; [done|].
  unfold name_in in Hname. rewrite tag_of_invalid in Hname by lia. done.
Qed.

Lemma collect_headers_height options (start_level stop_level : Z) (s : Soup) forest :
  result_of (_collect_headers options start_level stop_level s) = inr forest →
  forest_height forest ≤ 6.
Proof.
  intros Hrun.
  destruct (decide (window_ok start_level stop_level)) as [Hok|Hbad].
  - rewrite (collect_headers_spec _ _ _ _ Hok) in Hrun.
    unfold result_of in Hrun. simpl in Hrun. injection Hrun as <-.
    destruct Hok as (H0 & Hlt & Hmax). unfold _MAX_HEADER_LEVEL in Hmax.
    unfold collected. etrans.
    + apply (build_forest_height _ _ _ (Z.to_nat stop_level - Z.to_nat start_level)).
      intros h Hh. apply included_from_subset in Hh.
      pose proof (find_all_level s (Z.to_nat start_level) (Z.to_nat stop_level) h
                    ltac:(lia) Hh). lia.
    + lia.
  - destruct (collect_headers_bad_window options start_level stop_level s Hbad)
      as (e & _ & He). congruence.
Qed.

(** ** [_set_list_elements] past the end of the list *)

Lemma set_list_elements_overrun {A} (v : A) n :
  ∀ a (l : list A) (s : Soup), 0 < n → length l < a + n →
  result_of (for_fold (λ l i, list_setitem l i v) l (seq a n) s) = inl IndexError.
Proof.
  induction n as [|n IH]; intros a l s Hn Hlen; [lia|]. simpl.
  destruct (decide (a < length l)) as [Hlt|Hge].
  - erewrite result_of_bind by (by apply list_setitem_run).
    apply IH; rewrite ?length_insert; lia.
  - apply result_of_bind_raise. unfold list_setitem. by rewrite decide_False.
Qed.

Lemma set_list_elements_range {A} (v : A) n :
  ∀ a (l : list A) (s : Soup), a + n ≤ length l →
  for_fold (λ l i, list_setitem l i v) l (seq a n) s =
    (inr (take a l ++ replicate n v ++ drop (a + n) l), s, []).
Proof.
  induction n as [|n IH]; intros a l s Hlen; simpl.
  - rewrite Nat.add_0_r. by rewrite take_drop.
  - erewrite run_bind; [|apply list_setitem_run; lia|apply IH; rewrite length_insert; lia].
    simpl. do 2 f_equal.
    rewrite (take_S_r _ _ v) by (apply list_lookup_insert_eq; lia).
    rewrite take_insert_ge by lia. rewrite <-app_assoc. simpl.
    rewrite drop_insert_lt by lia. by rewrite Nat.add_succ_r.
Qed.

(** ** Order injection always succeeds *)

Lemma inject_labels_total (l : list (option ref * string)) :
  ∀ s : Soup, (∀ h, h ∈ omap fst l → h < length s) →
  ∃ (s' : Soup) logs,
    for_each inject_label l s = (inr tt, s', logs) ∧
    length s' = length s + 2 * length (omap fst l) ∧
    length logs = length l ∧
    (∀ r, r < length s → r ∉ omap fst l → tag_of s' r = tag_of s r).
Proof.
  induction l as [|[[h|] label] l IH]; intros s Hv.
  - exists s, []. simpl. split; [done|]. split; [lia|]. done.
  - assert (h < length s) as Hh by (apply Hv; left).
    set (s1 := alter (λ t, with_contents (length s :: contents t) t) h
                 (s ++ order_span label h (length s))).
    assert (length s1 = length s + 2) as Hlen1.
    { unfold s1. rewrite length_alter, length_app. done. }
    destruct (IH s1) as (s' & logs & Hrun & Hlen & Hlogs & Hframe).
    { intros h' Hin. rewrite Hlen1. pose proof (Hv h' ltac:(by right)). lia. }
    exists s', (LogDebugOrder label h
                  (default "(none)" (attrs_get "id" (attrs (tag_of s h)))) :: logs).
    split; [|split; [|split]].
    + change (for_each inject_label ((Some h, label) :: l) s)
        with (bind (inject_number label (Some h)) (λ _, for_each inject_label l) s).
      etrans; [eapply run_bind; [by apply inject_number_run|exact Hrun]|done].
    + change (omap fst ((Some h, label) :: l)) with (h :: omap fst l).
      rewrite Hlen, Hlen1. simpl. lia.
    + simpl. by rewrite Hlogs.
    + intros r Hr Hnot.
      change (omap fst ((Some h, label) :: l)) with (h :: omap fst l) in Hnot.
      rewrite Hframe; [|lia|].
      * apply tag_of_inject_number_other; [done|]. intros ->. apply Hnot. left.
      * intros Hin. apply Hnot. by right.
  - destruct (IH s) as (s' & logs & Hrun & Hlen & Hlogs & Hframe).
    { intros h' Hin. by apply Hv. }
    exists s', (LogWarning ("Assigned number for a missed header " +:+ label) :: logs).
    split; [|split; [|split]].
    + change (for_each inject_label ((None, label) :: l) s)
        with (bind (inject_number label None) (λ _, for_each inject_label l) s).
      etrans; [eapply run_bind; [reflexivity|exact Hrun]|done].
    + exact Hlen.
    + simpl. by rewrite Hlogs.
    + exact Hframe.
Qed.

Lemma number_headers_total options (start_level stop_level : Z) (s : Soup) :
  window_ok start_level stop_level →
  ∃ (s' : Soup) logs,
    number_headers options start_level stop_level s = (inr tt, s', logs) ∧
    length s' =
      length s + 2 * length (included_from (level_in s) (excluded_in options s) []
                               (find_all_in s (header_names (Z.to_nat start_level)
                                                 (Z.to_nat stop_level)))) ∧
    (∀ r, r < length s →
          r ∉ find_all_in s (header_names (Z.to_nat start_level) (Z.to_nat stop_level)) →
          tag_of s' r = tag_of s r).
Proof.
  intros Hok.
  pose proof (collect_headers_spec options start_level stop_level s Hok) as Hcollect.
  set (start := Z.to_nat start_level) in *. set (stop := Z.to_nat stop_level) in *.
  set (forest := collected options s start stop) in *.
  assert (forest_height forest ≤ 6) as Hheight.
  { apply (collect_headers_height options start_level stop_level s).
    by rewrite Hcollect. }
  assert (omap fst (label_forest forest)
          = included_from (level_in s) (excluded_in options s) []
              (find_all_in s (header_names start stop))) as Hreal.
  { rewrite label_forest_elements. unfold forest, collected.
    by rewrite real_elements_build_forest. }
  destruct (inject_labels_total (label_forest forest) s)
    as (s' & logs & Hrun & Hlen & _ & Hframe).
  { intros h Hin. rewrite Hreal in Hin. apply included_from_subset in Hin.
    by eapply find_all_valid. }
  eexists s', _. split; [|split].
  - unfold number_headers. rewrite bind_log_run.
    erewrite (run_bind (_collect_headers _ _ _)); [|exact Hcollect|].
    + reflexivity.
    + rewrite inject_order_labels by done. exact Hrun.
  - by rewrite Hlen, Hreal.
  - intros r Hr Hnot. apply Hframe; [done|]. rewrite Hreal.
    intros Hin. apply Hnot. by eapply included_from_subset.
Qed.

Lemma exclusion_logs_length options (s : Soup) hs :
  length (exclusion_logs options s hs)
  = length (filter (λ h, excluded_in options s h = true) hs).
Proof.
  unfold exclusion_logs. induction hs as [|h hs IH]; [done|].
  simpl. rewrite length_app, IH. rewrite filter_cons.
  destruct (excluded_in options s h) eqn:E.
  - rewrite decide_True by done. simpl. f_equal.
    unfold excluded_in, is_excluded in E.
    destruct (attrs_get "id" (attrs (tag_of s h))) as [u|]; [done|done].
  - rewrite decide_False by done.
    by destruct (attrs_get "id" (attrs (tag_of s h))).
Qed.

(** * The table of contents *)

(** ** Lists of children *)

Lemma remove_first_notin x l : x ∉ l → remove_first x l = l.
Proof.
  induction l as [|y l IH]; [done|]. intros Hnot. simpl.
  rewrite decide_False by (intros ->; apply Hnot; left).
  f_equal. apply IH. intros Hin. apply Hnot. by right.
Qed.

Lemma length_remove_first x l : x ∈ l → S (length (remove_first x l)) = length l.
Proof.
  induction l as [|y l IH]; [by intros ?%elem_of_nil|]. intros Hin. simpl.
  case_decide as Hy; [done|]. simpl. f_equal. apply IH.
  apply elem_of_cons in Hin as [->|Hin]; done.
Qed.

Lemma index_of_lt x l : index_of x l < length l ↔ x ∈ l.
Proof.
  induction l as [|y l IH]; simpl.
  - split; [lia|by intros ?%elem_of_nil].
  - case_decide as Hy.
    + subst. split; [left|lia].
    + rewrite elem_of_cons, <-IH. split; [right|intros [?|?]]; (done || lia).
Qed.

Lemma list_insert_at_end (x : ref) l : list_insert_at (length l) x l = l ++ [x].
Proof. unfold list_insert_at. by rewrite firstn_all, drop_all. Qed.

Lemma remove_first_sublist x l : remove_first x l `sublist_of` l.
Proof.
  induction l as [|y l IH]; [done|]. simpl. case_decide.
  - by apply sublist_cons.
  - by apply sublist_skip.
Qed.

Lemma elem_of_remove_first x y l :
  NoDup l → y ∈ remove_first x l ↔ y ∈ l ∧ y ≠ x.
Proof.
  induction l as [|z l IH]; intros Hnd.
  - simpl. split; [by intros ?%elem_of_nil|by intros [?%elem_of_nil _]].
  - apply NoDup_cons in Hnd as [Hz Hnd]. simpl. case_decide as Hzx.
    + subst z. split.
      * intros Hin. split; [by right|]. by intros ->.
      * intros [[->|Hin]%elem_of_cons Hne]; done.
    + rewrite !elem_of_cons, IH by done. split.
      * intros [->|[Hin Hne]]; [split; [by left|done]|split; [by right|done]].
      * intros [[->|Hin] Hne]; [by left|by right].
Qed.

Lemma NoDup_remove_first x l : NoDup l → NoDup (remove_first x l).
Proof. intros Hnd. apply (sublist_NoDup _ l Hnd), remove_first_sublist. Qed.

(** ** [append] and [insert] as moves *)

Lemma tag_of_alter_case (s : Soup) f i r :
  tag_of (alter f i s) r =
  if decide (r = i ∧ i < length s) then f (tag_of s r) else tag_of s r.
Proof.
  case_decide as H.
  - destruct H as [-> Hi]. by apply tag_of_alter.
  - destruct (decide (r = i)) as [->|Hne]; [|by apply tag_of_alter_ne].
    unfold tag_of. rewrite list_lookup_alter_eq.
    rewrite (lookup_ge_None_2 s i) by lia. done.
Qed.

Lemma length_unlink c (s : Soup) : length (unlink c s) = length s.
Proof. unfold unlink. destruct (parent _); [apply length_alter|done]. Qed.

Lemma length_relink b tag c (s : Soup) : length (relink b tag c s) = length s.
Proof. unfold relink. by rewrite !length_alter, length_unlink. Qed.

Lemma unlink_contents c (s : Soup) r :
  contents (tag_of (unlink c s) r) =
  if decide (parent (tag_of s c) = Some r)
  then remove_first c (contents (tag_of s r)) else contents (tag_of s r).
Proof.
  unfold unlink. destruct (parent (tag_of s c)) as [p|] eqn:Hp.
  - rewrite tag_of_alter_case. destruct (decide (p = r)) as [->|Hne].
    + rewrite (decide_True (P := Some r = Some r)) by done.
      case_decide as Hv; [done|].
      rewrite tag_of_invalid by (destruct (decide (r < length s)); [by destruct Hv|lia]).
      done.
    + rewrite (decide_False (P := Some p = Some r)) by congruence.
      by rewrite decide_False by (intros [-> _]; done).
  - by rewrite decide_False by done.
Qed.

Lemma unlink_other c (s : Soup) r :
  name (tag_of (unlink c s) r) = name (tag_of s r) ∧
  attrs (tag_of (unlink c s) r) = attrs (tag_of s r) ∧
  text (tag_of (unlink c s) r) = text (tag_of s r) ∧
  parent (tag_of (unlink c s) r) = parent (tag_of s r).
Proof.
  unfold unlink. destruct (parent (tag_of s c)) as [p|]; [|done].
  rewrite tag_of_alter_case. by case_decide.
Qed.

Lemma relink_fields b tag c (s : Soup) r :
  name (tag_of (relink b tag c s) r) = name (tag_of s r) ∧
  attrs (tag_of (relink b tag c s) r) = attrs (tag_of s r) ∧
  text (tag_of (relink b tag c s) r) = text (tag_of s r).
Proof.
  destruct (unlink_other c s r) as (Hn & Ha & Ht & _).
  unfold relink. rewrite !tag_of_alter_case.
  repeat case_decide; simpl; rewrite ?tag_of_alter_case; repeat case_decide; done.
Qed.

Lemma relink_parent b tag c (s : Soup) r :
  c < length s →
  parent (tag_of (relink b tag c s) r) =
  if decide (r = c) then Some tag else parent (tag_of s r).
Proof.
  intros Hc. destruct (unlink_other c s r) as (_ & _ & _ & Hp).
  unfold relink. rewrite !tag_of_alter_case, !length_alter, !length_unlink.
  repeat case_decide; simpl; rewrite ?tag_of_alter_case, ?length_unlink;
    repeat case_decide; simpl; try done; exfalso; intuition (congruence || lia).
Qed.

Lemma relink_contents b tag c (s : Soup) r :
  tag < length s →
  contents (tag_of (relink b tag c s) r) =
  let old := contents (tag_of (unlink c s) r) in
  if decide (r = tag) then (if b then c :: old else old ++ [c]) else old.
Proof.
  intros Htag. unfold relink.
  rewrite !tag_of_alter_case, !length_alter, !length_unlink.
  repeat case_decide; simpl; rewrite ?tag_of_alter_case, ?length_unlink;
    repeat case_decide; simpl; try done; exfalso; intuition (congruence || lia).
Qed.

Lemma relink_state (b : bool) tag c (s : Soup) (place : list ref → list ref) :
  c ≠ tag →
  (∀ t : Tag, unlink c s !! tag = Some t →
        place (contents t) = if b then c :: contents t else contents t ++ [c]) →
  alter (λ t, with_contents (place (contents t)) t) tag
    (alter (with_parent (Some tag)) c
       (match parent (tag_of s c) with
        | Some p =>
            alter (with_parent None) c
              (alter (λ t, with_contents (remove_first c (contents t)) t) p s)
        | None => s
        end))
  = relink b tag c s.
Proof.
  intros Hne Hplace. unfold relink.
  assert (alter (with_parent (Some tag)) c
            (match parent (tag_of s c) with
             | Some p =>
                 alter (with_parent None) c
                   (alter (λ t, with_contents (remove_first c (contents t)) t) p s)
             | None => s
             end)
          = alter (with_parent (Some tag)) c (unlink c s)) as ->.
  { unfold unlink. destruct (parent (tag_of s c)) as [p|]; [|done].
    rewrite list_alter_alter_eq. by apply alter_ext_at. }
  apply alter_ext_at. intros t Ht. f_equal. apply Hplace.
  by rewrite list_lookup_alter_ne in Ht.
Qed.

Lemma insert_run tag position c (s : Soup) :
  c ≠ tag →
  insert tag position c s =
    (inr tt,
     alter (λ t, with_contents
                   (list_insert_at
                      (let l0 := contents (tag_of s tag) in
                       let position := position `min` length l0 in
                       if decide (parent (tag_of s c) = Some tag)
                       then if decide (index_of c l0 < position)
                            then position - 1 else position
                       else position) c (contents t)) t) tag
       (alter (with_parent (Some tag)) c
          (match parent (tag_of s c) with
           | Some p =>
               alter (with_parent None) c
                 (alter (λ t, with_contents (remove_first c (contents t)) t) p s)
           | None => s
           end)),
     []).
Proof.
  intros Hne. unfold insert. rewrite decide_False by done.
  unfold bind, get_tag, extract, modify. simpl.
  by destruct (parent (tag_of s c)).
Qed.

Lemma unlink_lookup_contents tag c (s : Soup) (t : Tag) :
  unlink c s !! tag = Some t →
  contents t = if decide (parent (tag_of s c) = Some tag)
               then remove_first c (contents (tag_of s tag))
               else contents (tag_of s tag).
Proof. intros Ht. rewrite <-(tag_of_lookup _ _ _ Ht). apply unlink_contents. Qed.

Lemma append_relink tag c (s : Soup) :
  c ≠ tag → append tag c s = (inr tt, relink false tag c s, []).
Proof.
  intros Hne. unfold append.
  erewrite run_bind; [|reflexivity|by apply insert_run].
  simpl. do 2 f_equal. apply relink_state; [done|].
  intros t Ht. rewrite (unlink_lookup_contents _ _ _ _ Ht), Nat.min_id.
  set (l0 := contents (tag_of s tag)).
  case_decide as Hpt; [|apply list_insert_at_end].
  case_decide as Hidx.
  - apply index_of_lt in Hidx.
    rewrite <-list_insert_at_end. f_equal.
    pose proof (length_remove_first c l0 Hidx). lia.
  - rewrite remove_first_notin by (by rewrite <-index_of_lt).
    apply list_insert_at_end.
Qed.

Lemma insert_front_relink tag c (s : Soup) :
  c ≠ tag → insert tag 0 c s = (inr tt, relink true tag c s, []).
Proof.
  intros Hne. rewrite insert_run by done. do 2 f_equal.
  apply relink_state; [done|]. intros t Ht. simpl.
  by repeat case_decide.
Qed.

(** ** Well-formed documents *)

Lemma tag_ok_no_tag (s : Soup) r : tag_ok s r no_tag.
Proof. split; [constructor|]. split; [constructor|]. done. Qed.

Lemma wf_soup_tag_ok (s : Soup) : wf_soup s ↔ ∀ r, tag_ok s r (tag_of s r).
Proof.
  unfold wf_soup. rewrite Forall_lookup. split.
  - intros H r. destruct (s !! r) as [t|] eqn:E.
    + rewrite (tag_of_lookup _ _ _ E). apply (H r (r, t)).
      by rewrite list_lookup_imap, E.
    + unfold tag_of. rewrite E. apply tag_ok_no_tag.
  - intros H i [r t] Hi. rewrite list_lookup_imap in Hi.
    destruct (s !! i) as [t'|] eqn:E; simpl in Hi; [|done].
    injection Hi as <- <-. simpl. rewrite <-(tag_of_lookup _ _ _ E). apply H.
Qed.

Lemma wf_child (s : Soup) r c :
  wf_soup s → c ∈ contents (tag_of s r) →
  c < length s ∧ parent (tag_of s c) = Some r.
Proof.
  intros Hwf Hin. destruct (proj1 (wf_soup_tag_ok s) Hwf r) as (Hc & _).
  rewrite Forall_forall in Hc. by apply Hc.
Qed.

Lemma wf_NoDup (s : Soup) r : wf_soup s → NoDup (contents (tag_of s r)).
Proof. intros Hwf. by destruct (proj1 (wf_soup_tag_ok s) Hwf r) as (_ & H & _). Qed.

Lemma wf_parent (s : Soup) r q :
  wf_soup s → parent (tag_of s r) = Some q → r ∈ contents (tag_of s q).
Proof.
  intros Hwf Hp. destruct (proj1 (wf_soup_tag_ok s) Hwf r) as (_ & _ & H & _).
  unfold parent_ok in H. by rewrite Hp in H.
Qed.

Lemma wf_parent_valid (s : Soup) r q :
  wf_soup s → parent (tag_of s r) = Some q → q < length s.
Proof.
  intros Hwf Hp. apply tag_of_valid. intros E.
  pose proof (wf_parent s r q Hwf Hp) as Hin. rewrite E in Hin.
  by apply elem_of_nil in Hin.
Qed.

Lemma wf_string (s : Soup) r :
  wf_soup s → name (tag_of s r) = None → contents (tag_of s r) = [].
Proof. intros Hwf. by destruct (proj1 (wf_soup_tag_ok s) Hwf r) as (_ & _ & _ & H). Qed.

Lemma wf_unlink_contents (s : Soup) c r :
  wf_soup s →
  contents (tag_of (unlink c s) r) = remove_first c (contents (tag_of s r)).
Proof.
  intros Hwf. rewrite unlink_contents. case_decide as Hp; [done|].
  rewrite remove_first_notin; [done|]. intros Hin. apply Hp.
  by apply (wf_child s r c Hwf).
Qed.

Lemma relink_elem b tag c (s : Soup) r x :
  wf_soup s → tag < length s →
  x ∈ contents (tag_of (relink b tag c s) r) ↔
  (r = tag ∧ x = c) ∨ (x ∈ contents (tag_of s r) ∧ x ≠ c).
Proof.
  intros Hwf Htag. rewrite relink_contents by done. cbv zeta.
  rewrite wf_unlink_contents by done.
  pose proof (elem_of_remove_first c x _ (wf_NoDup s r Hwf)) as Hold.
  case_decide as Hr.
  - destruct b; rewrite ?elem_of_cons, ?elem_of_app, ?list_elem_of_singleton, Hold;
      intuition congruence.
  - rewrite Hold. intuition congruence.
Qed.

Lemma wf_relink b tag c (s : Soup) :
  wf_soup s → tag < length s → c < length s → c ≠ tag →
  name (tag_of s tag) ≠ None →
  wf_soup (relink b tag c s).
Proof.
  intros Hwf Htag Hc Hne Hname. apply wf_soup_tag_ok. intros r.
  split; [|split; [|split]].
  - apply Forall_forall. intros x Hx.
    apply (relink_elem b tag c s r x Hwf Htag) in Hx.
    unfold child_ok. rewrite length_relink, relink_parent by done.
    destruct Hx as [[-> ->]|[Hx Hxc]].
    + by rewrite decide_True.
    + rewrite decide_False by done. by apply wf_child.
  - rewrite relink_contents by done. cbv zeta.
    rewrite wf_unlink_contents by done.
    pose proof (NoDup_remove_first c _ (wf_NoDup s r Hwf)) as Hnd.
    assert (c ∉ remove_first c (contents (tag_of s r))) as Hnot.
    { rewrite elem_of_remove_first by (by apply wf_NoDup). by intros [_ ?]. }
    case_decide; [|done]. destruct b.
    + by apply NoDup_cons.
    + apply NoDup_app. split; [done|]. split; [|apply NoDup_singleton].
      intros x Hx ->%list_elem_of_singleton. done.
  - unfold parent_ok. rewrite relink_parent by done.
    case_decide as Hr.
    + subst r. apply relink_elem; [done|done|]. by left.
    + destruct (parent (tag_of s r)) as [q|] eqn:Hp; [|done].
      apply relink_elem; [done|done|]. right. split; [|done].
      by apply wf_parent.
  - destruct (relink_fields b tag c s r) as (Hn & _ & _). rewrite Hn. intros Hnone.
    rewrite relink_contents by done. cbv zeta.
    rewrite wf_unlink_contents by done.
    rewrite decide_False by (by intros ->).
    by rewrite (wf_string s r Hwf Hnone).
Qed.

Lemma wf_new_node (s : Soup) (t : Tag) :
  wf_soup s → contents t = [] → parent t = None → wf_soup (s ++ [t]).
Proof.
  intros Hwf Hc Hp. apply wf_soup_tag_ok. intros r.
  destruct (decide (r < length s)) as [Hr|Hr].
  - rewrite tag_of_app_l by done.
    destruct (proj1 (wf_soup_tag_ok s) Hwf r) as (Hch & Hnd & Hpar & Hstr).
    split; [|split; [done|split; [|done]]].
    + eapply Forall_impl; [exact Hch|]. intros c [Hv Hcp]. split.
      * rewrite length_app. simpl. lia.
      * by rewrite tag_of_app_l.
    + unfold parent_ok in *. destruct (parent (tag_of s r)) as [q|] eqn:Hq; [|done].
      rewrite tag_of_app_l; [done|]. by eapply wf_parent_valid.
  - destruct (decide (r = length s)) as [->|Hne].
    + rewrite tag_of_app_new. split; [by rewrite Hc|].
      split; [rewrite Hc; constructor|]. split; [|done].
      unfold parent_ok. by rewrite Hp.
    + rewrite tag_of_invalid by (rewrite length_app; simpl; lia).
      apply tag_ok_no_tag.
Qed.

Lemma unlink_orphan c (s : Soup) : parent (tag_of s c) = None → unlink c s = s.
Proof. intros Hp. unfold unlink. by rewrite Hp. Qed.

Lemma relink_orphan_tag b tag c (s : Soup) r :
  parent (tag_of s c) = None → tag < length s → c < length s → c ≠ tag →
  tag_of (relink b tag c s) r =
  if decide (r = tag)
  then with_contents (if b then c :: contents (tag_of s tag)
                      else contents (tag_of s tag) ++ [c]) (tag_of s tag)
  else if decide (r = c) then with_parent (Some tag) (tag_of s c)
  else tag_of s r.
Proof.
  intros Hp Htag Hc Hne. unfold relink. rewrite unlink_orphan by done.
  rewrite !tag_of_alter_case, !length_alter.
  repeat case_decide; simpl; rewrite ?tag_of_alter_case;
    repeat case_decide; subst; simpl; try done; exfalso; intuition (congruence || lia).
Qed.

(** ** What an element looks like, in two stores *)

Lemma render_ext (P : ref → Prop) (s s' : Soup) :
  (∀ x, P x → name (tag_of s' x) = name (tag_of s x) ∧
              attrs (tag_of s' x) = attrs (tag_of s x) ∧
              text (tag_of s' x) = text (tag_of s x) ∧
              contents (tag_of s' x) = contents (tag_of s x)) →
  (∀ x y, P x → y ∈ contents (tag_of s x) → P y) →
  ∀ fuel r, P r → render fuel s' r = render fuel s r.
Proof.
  intros Hsame Hclosed. induction fuel as [|fuel IH]; intros r Hr;
    destruct (Hsame r Hr) as (Hn & Ha & Ht & Hc); simpl; rewrite Hn, Ha, Ht.
  - done.
  - destruct (name (tag_of s r)); [|done]. f_equal. rewrite Hc.
    apply map_ext_in. intros y Hy. apply IH. apply (Hclosed r); [done|].
    by apply list_elem_of_In.
Qed.

(** ** [clone_element] *)

Lemma render_old (s σ : Soup) :
  wf_soup s → (∀ r, r < length s → tag_of σ r = tag_of s r) →
  ∀ fuel r, r < length s → render fuel σ r = render fuel s r.
Proof.
  intros Hwf Hframe. apply (render_ext (λ x, x < length s)).
  - intros x Hx. by rewrite Hframe.
  - intros x y Hx Hy. by apply (wf_child s x y Hwf).
Qed.

Lemma clone_children_run fuel (s : Soup) nm kw :
  (∀ el (σ : Soup), wf_soup σ →
     ∃ σ', clone_element_rec fuel el σ = (inr (length σ), σ', []) ∧
           cloned fuel el σ σ') →
  wf_soup s →
  ∀ todo seen ks (σ : Soup),
    (∀ ch, ch ∈ todo → ch < length s) →
    wf_soup σ → length s < length σ →
    (∀ r, r < length s → tag_of σ r = tag_of s r) →
    tag_of σ (length s) = mkTag (Some nm) kw "" ks None →
    (∀ x y, length s ≤ x → y ∈ contents (tag_of σ x) → x < y) →
    (∀ f, map (render f σ) ks = map (λ ch, render (f `min` fuel) s ch) seen) →
    ∃ (σ' : Soup) ks',
      for_each (λ child, let* c := clone_element_rec fuel child in
                         append (length s) c) todo σ = (inr tt, σ', []) ∧
      wf_soup σ' ∧ length s < length σ' ∧
      (∀ r, r < length s → tag_of σ' r = tag_of s r) ∧
      tag_of σ' (length s) = mkTag (Some nm) kw "" ks' None ∧
      (∀ x y, length s ≤ x → y ∈ contents (tag_of σ' x) → x < y) ∧
      (∀ f, map (render f σ') ks'
            = map (λ ch, render (f `min` fuel) s ch) (seen ++ todo)).
Proof.
  intros Hclone Hwfs.
  induction todo as [|ch todo IH]; intros seen ks σ Htodo Hwf Hlen Hframe Hcopy Hord Hren.
  { exists σ, ks. rewrite app_nil_r. done. }
  destruct (Hclone ch σ Hwf) as (σ1 & Hrun1 & Hwf1 & Hlen1 & Hframe1 & Hpar1 & Hord1 & Hren1).
  set (copy := length s) in *. set (k := length σ) in *.
  assert (k ≠ copy) as Hne by lia.
  assert (tag_of σ1 copy = mkTag (Some nm) kw "" ks None) as Hcopy1
    by (by rewrite Hframe1).
  pose proof (λ r, relink_orphan_tag false copy k σ1 r Hpar1 ltac:(lia) Hlen1 Hne) as Htag2.
  set (σ2 := relink false copy k σ1) in *.
  destruct (IH (seen ++ [ch]) (ks ++ [k]) σ2)
    as (σ' & ks' & Hrun & Hwf' & Hlen' & Hframe' & Hcopy' & Hord' & Hren').
  - intros c Hc. apply Htodo. by right.
  - apply wf_relink; [done|lia|done|done|]. by rewrite Hcopy1.
  - unfold σ2. rewrite length_relink. lia.
  - intros r Hr. rewrite Htag2.
    rewrite !decide_False by (unfold copy, k; lia).
    rewrite Hframe1 by lia. by apply Hframe.
  - rewrite Htag2, decide_True by done. by rewrite Hcopy1.
  - intros x y Hx Hy. rewrite Htag2 in Hy. case_decide as Hxc.
    + subst x. rewrite Hcopy1 in Hy. simpl in Hy.
      apply elem_of_app in Hy as [Hy|Hy];
        [|apply list_elem_of_singleton in Hy; lia].
      apply (Hord copy y); [done|]. by rewrite Hcopy.
    + case_decide as Hxk.
      * subst x. apply Hord1; [lia|done].
      * destruct (decide (x < k)) as [Hlt|Hge].
        -- rewrite Hframe1 in Hy by done. by apply Hord.
        -- apply Hord1; [lia|done].
  - intros f. rewrite !map_app. f_equal.
    + rewrite <-Hren. apply map_ext_in. intros kj Hkj.
      apply (render_ext (λ x, copy < x ∧ x < k)).
      * intros x [Hx1 Hx2]. rewrite Htag2.
        rewrite !decide_False by lia. by rewrite Hframe1.
      * intros x y [Hx1 Hx2] Hy. split.
        -- pose proof (Hord x y ltac:(lia) Hy). lia.
        -- by apply (wf_child σ x y Hwf).
      * apply list_elem_of_In in Hkj.
        assert (kj ∈ contents (tag_of σ copy)) as Hin by (by rewrite Hcopy).
        split; [by apply Hord|by apply (wf_child σ copy kj Hwf)].
    + simpl. f_equal.
      transitivity (render f σ1 k).
      * apply (render_ext (λ x, k ≤ x)); [| |done].
        -- intros x Hx. rewrite Htag2. rewrite decide_False by lia.
           by case_decide; subst.
        -- intros x y Hx Hy. pose proof (Hord1 x y Hx Hy). lia.
      * rewrite Hren1. apply render_old; [done|done|]. apply Htodo. left.
  - exists σ', ks'. split; [|by rewrite <-app_assoc in Hren'].
    change (for_each ?body (ch :: todo) σ)
      with (bind (body ch) (λ _, for_each body todo) σ).
    etrans.
    { eapply run_bind; [|exact Hrun].
      eapply run_bind; [exact Hrun1|]. by apply append_relink. }
    done.
Qed.

Lemma new_node_no_children (s : Soup) (t : Tag) x y :
  contents t = [] → length s ≤ x → y ∈ contents (tag_of (s ++ [t]) x) → x < y.
Proof.
  intros Hc Hx Hy. exfalso. destruct (decide (x = length s)) as [->|Hne].
  - rewrite tag_of_app_new, Hc in Hy. by apply elem_of_nil in Hy.
  - rewrite tag_of_invalid in Hy by (rewrite length_app; simpl; lia).
    by apply elem_of_nil in Hy.
Qed.

Lemma run_eta {A} (x : (exn + A) * Soup * list LogRecord) :
  (let '(r, s2, l2) := x in (r, s2, l2)) = x.
Proof. by destruct x as [[??]?]. Qed.

Lemma clone_element_rec_eq fuel el (s : Soup) :
  clone_element_rec fuel el s =
  match name (tag_of s el) with
  | None => new_string (text (tag_of s el)) s
  | Some nm =>
      (let* copy := new_tag nm (attrs (tag_of s el)) in
       match fuel with
       | 0 => ret copy
       | S fuel' =>
           let* _ := for_each (λ child,
                       let* c := clone_element_rec fuel' child in
                       append copy c) (contents (tag_of s el)) in
           ret copy
       end) s
  end.
Proof.
  destruct fuel; simpl; unfold bind at 1, get_tag; simpl;
    destruct (name (tag_of s el)); apply run_eta.
Qed.

Lemma render_string fuel (s : Soup) r :
  name (tag_of s r) = None → render fuel s r = Text (text (tag_of s r)).
Proof. intros H. destruct fuel; simpl; by rewrite H. Qed.

Lemma clone_element_rec_spec fuel :
  ∀ el (s : Soup), wf_soup s →
  ∃ s', clone_element_rec fuel el s = (inr (length s), s', []) ∧
        cloned fuel el s s'.
Proof.
  induction fuel as [|fuel IH]; intros el s Hwf;
    rewrite clone_element_rec_eq;
    destruct (name (tag_of s el)) as [nm|] eqn:Hname.
  - (* an element, no fuel *)
    eexists. split; [reflexivity|].
    split; [by apply wf_new_node|]. split; [rewrite length_app; simpl; lia|].
    split; [intros r Hr; by apply tag_of_app_l|].
    split; [by rewrite tag_of_app_new|].
    split; [intros x y; by apply new_node_no_children|].
    intros f. rewrite Nat.min_0_r.
    destruct f; simpl; rewrite tag_of_app_new, Hname; done.
  - (* a string *)
    eexists. split; [reflexivity|].
    split; [by apply wf_new_node|]. split; [rewrite length_app; simpl; lia|].
    split; [intros r Hr; by apply tag_of_app_l|].
    split; [by rewrite tag_of_app_new|].
    split; [intros x y; by apply new_node_no_children|].
    intros f. rewrite !render_string; rewrite ?tag_of_app_new; done.
  - (* an element *)
    set (t := tag_of s el) in *.
    set (s1 := s ++ [mkTag (Some nm) (attrs t) "" [] None]).
    destruct (clone_children_run fuel s nm (attrs t) IH Hwf (contents t) [] [] s1)
      as (s' & ks & Hrun & Hwf' & Hlen' & Hframe' & Hcopy' & Hord' & Hren').
    + intros ch Hch. by apply (wf_child s el ch Hwf).
    + by apply wf_new_node.
    + unfold s1. rewrite length_app. simpl. lia.
    + intros r Hr. by apply tag_of_app_l.
    + apply tag_of_app_new.
    + intros x y. by apply new_node_no_children.
    + done.
    + exists s'. split.
      * etrans.
        { eapply run_bind; [reflexivity|].
          eapply run_bind; [exact Hrun|reflexivity]. }
        done.
      * split; [done|]. split; [done|]. split; [done|].
        split; [by rewrite Hcopy'|]. split; [done|].
        intros [|f].
        -- simpl. rewrite Hcopy'. fold t. rewrite Hname. done.
        -- change (S f `min` S fuel) with (S (f `min` fuel)).
           simpl. rewrite Hcopy'. fold t. rewrite Hname. simpl.
           f_equal. apply Hren'.
  - (* a string *)
    eexists. split; [reflexivity|].
    split; [by apply wf_new_node|]. split; [rewrite length_app; simpl; lia|].
    split; [intros r Hr; by apply tag_of_app_l|].
    split; [by rewrite tag_of_app_new|].
    split; [intros x y; by apply new_node_no_children|].
    intros f. rewrite !render_string; rewrite ?tag_of_app_new; done.
Qed.

(** ** The link of one heading: tools *)

Lemma ordered_below_spec m (s : Soup) :
  ordered_below m s ↔
  ∀ r c, r < m → c ∈ contents (tag_of s r) → r < c < m.
Proof.
  unfold ordered_below. rewrite Forall_forall. split.
  - intros H r c Hr Hc. specialize (H r). rewrite Forall_forall in H.
    apply H; [|done]. apply elem_of_seq. lia.
  - intros H r Hr. apply Forall_forall. intros c Hc.
    apply elem_of_seq in Hr. apply H; [lia|done].
Qed.

Lemma render_fuel_enough m (s : Soup) :
  ordered_below m s →
  ∀ d r f g, r < m → m - r ≤ d → d ≤ f → d ≤ g → render f s r = render g s r.
Proof.
  intros Hord0. pose proof (proj1 (ordered_below_spec m s) Hord0) as Hord.
  induction d as [|d IH]; intros r f g Hr Hd Hf Hg; [lia|].
  destruct f as [|f]; [lia|]. destruct g as [|g]; [lia|]. simpl.
  destruct (name (tag_of s r)); [|done]. f_equal.
  apply map_ext_in. intros y Hy%list_elem_of_In.
  destruct (Hord r y Hr Hy). apply IH; lia.
Qed.

Lemma tag_eq (t u : Tag) :
  name t = name u → attrs t = attrs u → text t = text u →
  contents t = contents u → parent t = parent u → t = u.
Proof. destruct t, u. simpl. by intros -> -> -> -> ->. Qed.

Lemma render_0_fields (s σ : Soup) r c :
  name (tag_of σ c) = name (tag_of s r) → attrs (tag_of σ c) = attrs (tag_of s r) →
  text (tag_of σ c) = text (tag_of s r) → render 0 σ c = render 0 s r.
Proof. intros Hn Ha Ht. simpl. by rewrite Hn, Ha, Ht. Qed.

Lemma link_fragments_snoc (s : Soup) seen el :
  link_fragments s (seen ++ [el]) =
  link_fragments s seen ++ (if decide (is_link s el) then [el] else []).
Proof.
  unfold link_fragments. by rewrite filter_app.
Qed.

Lemma moved_children_snoc (s : Soup) seen el :
  moved_children s (seen ++ [el]) =
  moved_children s seen ++
  (if decide (is_link s el)
   then match head (contents (tag_of s el)) with Some c => [c] | None => [] end
   else []).
Proof.
  unfold moved_children. rewrite link_fragments_snoc, omap_app. f_equal.
  case_decide; [|done]. simpl. by destruct (head _).
Qed.

Lemma elem_of_link_fragments (s : Soup) els x :
  x ∈ link_fragments s els ↔ is_link s x ∧ x ∈ els.
Proof. unfold link_fragments. apply list_elem_of_filter. Qed.

Lemma elem_of_moved_children (s : Soup) els x :
  x ∈ moved_children s els ↔
  ∃ el, el ∈ els ∧ is_link s el ∧ head (contents (tag_of s el)) = Some x.
Proof.
  unfold moved_children. rewrite list_elem_of_omap. split.
  - intros (el & [Hl Hin]%elem_of_link_fragments & Hh). by exists el.
  - intros (el & Hin & Hl & Hh). exists el. split; [|done].
    by apply elem_of_link_fragments.
Qed.

Lemma head_elem_of {A} (l : list A) x : head l = Some x → x ∈ l.
Proof. destruct l; [done|]. intros [= ->]. left. Qed.

Lemma link_child_stable (s : Soup) m h (σ σ' : Soup) el c :
  link_child s m h σ el c →
  (S (S (length s)) ≤ c → ∀ f, render f σ' c = render f σ c) →
  link_child s m h σ' el c.
Proof.
  unfold link_child. case_decide; [done|].
  intros (Hc & H0 & Hdeep) Hsame. split; [done|]. split; [by rewrite Hsame|].
  intros Hord Hh Hel f. rewrite Hsame by done. by apply Hdeep.
Qed.

(** ** The link of one heading: a fragment that is a link *)

Lemma link_step_moved (s : Soup) m h href seen cs (σ : Soup) el inner rest :
  wf_soup s → link_inv s m h href seen cs σ →
  el ∉ seen → el < length s → is_link s el →
  contents (tag_of s el) = inner :: rest →
  link_inv s m h href (seen ++ [el]) (cs ++ [inner])
    (relink false (S (length s)) inner σ).
Proof.
  intros Hwfs (Hwf & Hlen & Hli & Ha & Hsame & Hcont & Hpar & Hnew & Hcs)
    Hnotin Hel Hlink Hels.
  unfold link_inv. cbv zeta.
  set (n := length s) in *. set (a := S n) in *.
  assert (inner ∈ contents (tag_of s el)) as Hin by (rewrite Hels; left).
  destruct (wf_child s el inner Hwfs Hin) as [Hinner Hpinner].
  assert (inner ∉ moved_children s seen) as Hnm.
  { intros (el' & Hin' & Hl' & Hh')%elem_of_moved_children.
    apply head_elem_of in Hh'. destruct (wf_child s el' inner Hwfs Hh') as [_ Hp'].
    assert (el' = el) by congruence. by subst. }
  assert (el ∉ link_fragments s seen) as Hnl.
  { by intros [_ ?]%elem_of_link_fragments. }
  assert (parent (tag_of σ inner) = Some el) as Hpσ.
  { rewrite Hpar by done. by rewrite decide_False. }
  assert (contents (tag_of σ el) = inner :: rest) as Hcσ.
  { rewrite Hcont by done. by rewrite decide_False. }
  assert (∀ r, r ≠ el → inner ∉ contents (tag_of σ r)) as Hother.
  { intros r Hr Hin'. destruct (wf_child σ r inner Hwf Hin') as [_ Hp']. congruence. }
  set (σ' := relink false a inner σ).
  assert (∀ r, contents (tag_of σ' r) =
               if decide (r = a) then contents (tag_of σ r) ++ [inner]
               else if decide (r = el) then rest else contents (tag_of σ r)) as Hc'.
  { intros r. unfold σ'. rewrite relink_contents by (unfold a; lia). cbv zeta.
    rewrite wf_unlink_contents by done.
    destruct (decide (r = el)) as [->|Hr].
    - rewrite !(decide_False (P := el = a)) by (unfold a; lia).
      rewrite Hcσ. simpl. by rewrite decide_True.
    - by rewrite remove_first_notin by (by apply Hother). }
  assert (∀ r, parent (tag_of σ' r) =
               if decide (r = inner) then Some a else parent (tag_of σ r)) as Hp'.
  { intros r. unfold σ'. apply relink_parent. lia. }
  pose proof (λ r, relink_fields false a inner σ r) as Hf'. fold σ' in Hf'.
  split; [|split; [|split; [|split; [|split; [|split; [|split; [|split]]]]]]].
  - apply wf_relink; [done|unfold a; lia|lia|unfold a; lia|]. by rewrite Ha.
  - unfold σ'. by rewrite length_relink.
  - destruct (Hf' n) as (Hn1 & Hn2 & Hn3).
    apply tag_eq; rewrite ?Hn1, ?Hn2, ?Hn3, ?Hli; try done.
    + rewrite Hc'. rewrite !decide_False by (unfold a; lia). by rewrite Hli.
    + rewrite Hp'. rewrite decide_False by lia. by rewrite Hli.
  - destruct (Hf' a) as (Hn1 & Hn2 & Hn3).
    apply tag_eq; rewrite ?Hn1, ?Hn2, ?Hn3, ?Ha; try done.
    + rewrite Hc', decide_True by done. by rewrite Ha.
    + rewrite Hp'. rewrite decide_False by (unfold a; lia). by rewrite Ha.
  - intros r Hr. destruct (Hf' r) as (-> & -> & ->). by apply Hsame.
  - intros r Hr. rewrite Hc'. rewrite decide_False by (unfold a; lia).
    rewrite link_fragments_snoc, (decide_True (P := is_link s el)) by done.
    destruct (decide (r = el)) as [->|Hne].
    + rewrite decide_True by (apply elem_of_app; right; left). by rewrite Hels.
    + rewrite Hcont by done.
      destruct (decide (r ∈ link_fragments s seen)).
      * by rewrite decide_True by (apply elem_of_app; by left).
      * rewrite decide_False; [done|].
        intros [?|?%list_elem_of_singleton]%elem_of_app; done.
  - intros r Hr. rewrite Hp'.
    rewrite moved_children_snoc, (decide_True (P := is_link s el)) by done.
    rewrite Hels. simpl.
    destruct (decide (r = inner)) as [->|Hne].
    + by rewrite decide_True by (apply elem_of_app; right; left).
    + rewrite Hpar by done.
      destruct (decide (r ∈ moved_children s seen)).
      * by rewrite decide_True by (apply elem_of_app; by left).
      * rewrite decide_False; [done|].
        intros [?|?%list_elem_of_singleton]%elem_of_app; done.
  - intros x y Hx Hy. rewrite Hc' in Hy.
    rewrite !decide_False in Hy by (unfold a; lia). by apply Hnew.
  - apply Forall2_app.
    + eapply Forall2_impl; [exact Hcs|]. intros el' c Hlc.
      apply (link_child_stable s m h σ); [done|]. intros Hc f.
      apply (render_ext (λ x, S (S n) ≤ x)); [| |done].
      * intros x Hx. destruct (Hf' x) as (-> & -> & ->).
        rewrite Hc'. by rewrite !decide_False by (unfold a; lia).
      * intros x y Hx Hy. pose proof (Hnew x y Hx Hy). lia.
    + constructor; [|constructor]. unfold link_child.
      rewrite decide_True by done. by rewrite Hels.
Qed.

(** ** The link of one heading: a fragment that is cloned *)

Lemma link_step_cloned (s : Soup) m h href seen cs (σ σ1 : Soup) el :
  wf_soup s → link_inv s m h href seen cs σ →
  (∀ x, x ∈ seen → x ∈ contents (tag_of s h)) →
  el ∉ seen → el ∈ contents (tag_of s h) → ¬ is_link s el →
  cloned (length σ) el σ σ1 →
  link_inv s m h href (seen ++ [el]) (cs ++ [length σ])
    (relink false (S (length s)) (length σ) σ1).
Proof.
  intros Hwfs (Hwf & Hlen & Hli & Ha & Hsame & Hcont & Hpar & Hnew & Hcs)
    Hseen Hnotin Helh Hnl (Hwf1 & Hlen1 & Hframe1 & Hpar1 & Hord1 & Hren1).
  unfold link_inv. cbv zeta.
  set (n := length s) in *. set (a := S n) in *. set (k := length σ) in *.
  destruct (wf_child s h el Hwfs Helh) as [Hel Hpel].
  assert (k ≠ a) as Hka by (unfold a; lia).
  pose proof (λ r, relink_orphan_tag false a k σ1 r Hpar1
                     ltac:(unfold a; lia) Hlen1 Hka) as Htag.
  set (σ' := relink false a k σ1) in *.
  assert (∀ r, r < k → r ≠ a → tag_of σ' r = tag_of σ r) as Hold.
  { intros r Hr Hra. rewrite Htag. rewrite !decide_False by lia. by apply Hframe1. }
  split; [|split; [|split; [|split; [|split; [|split; [|split; [|split]]]]]]].
  - apply wf_relink; [done|unfold a; lia|done|done|].
    rewrite Hframe1 by (unfold a; lia). by rewrite Ha.
  - unfold σ'. rewrite length_relink. lia.
  - rewrite Hold by (unfold a; lia). done.
  - rewrite Htag, decide_True by done. rewrite Hframe1 by (unfold a; lia).
    by rewrite Ha.
  - intros r Hr. rewrite Hold by (unfold a; lia). by apply Hsame.
  - intros r Hr. rewrite Hold by (unfold a; lia).
    rewrite link_fragments_snoc, (decide_False (P := is_link s el)) by done.
    rewrite app_nil_r. by apply Hcont.
  - intros r Hr. rewrite Hold by (unfold a; lia).
    rewrite moved_children_snoc, (decide_False (P := is_link s el)) by done.
    rewrite app_nil_r. by apply Hpar.
  - intros x y Hx Hy. rewrite Htag in Hy.
    rewrite decide_False in Hy by (unfold a; lia).
    case_decide as Hxk.
    + subst x. by apply Hord1.
    + destruct (decide (x < k)) as [Hlt|Hge].
      * rewrite Hframe1 in Hy by done. by apply Hnew.
      * apply Hord1; [lia|done].
  - apply Forall2_app.
    + apply Forall2_same_length_lookup. split; [by eapply Forall2_length|].
      intros i el' c Hi Hc.
      pose proof (Forall2_lookup_lr _ _ _ _ _ _ Hcs Hi Hc) as Hlc.
      apply (link_child_stable s m h σ); [done|]. intros Hcn f.
      assert (c ∈ contents (tag_of σ a)) as Hca.
      { rewrite Ha. simpl. by eapply list_elem_of_lookup_2. }
      destruct (wf_child σ a c Hwf Hca) as [Hck _].
      apply (render_ext (λ x, S (S n) ≤ x ∧ x < k)); [| |done].
      * intros x [Hx1 Hx2]. by rewrite Hold by (unfold a; lia).
      * intros x y [Hx1 Hx2] Hy. split.
        -- pose proof (Hnew x y Hx1 Hy). lia.
        -- by apply (wf_child σ x y Hwf).
    + constructor; [|constructor]. unfold link_child.
      rewrite decide_False by done.
      assert (∀ f, render f σ' k = render f σ1 k) as Hrk.
      { intros f. apply (render_ext (λ x, k ≤ x)); [| |done].
        - intros x Hx. rewrite Htag. rewrite decide_False by (unfold a; lia).
          by case_decide; subst.
        - intros x y Hx Hy. pose proof (Hord1 x y Hx Hy). lia. }
      split; [lia|]. split.
      * rewrite Hrk, Hren1. change (0 `min` k) with 0.
        destruct (Hsame el Hel) as (Hn1 & Hn2 & Hn3). by apply render_0_fields.
      * intros Hord [Hh Hm] _ f. rewrite Hrk, Hren1.
        pose proof (proj1 (ordered_below_spec m s) Hord) as Hord'.
        destruct (Hord' h el Hh Helh) as [Hhel Helm].
        transitivity (render (f `min` k) s el).
        { apply (render_ext
                   (λ x, el ≤ x ∧ x < m ∧ (x ∈ contents (tag_of s h) → x = el)));
            [| |done].
          - intros x (Hx1 & Hx2 & Hx3).
            destruct (Hsame x ltac:(lia)) as (-> & -> & ->).
            split; [done|]. split; [done|]. split; [done|].
            rewrite Hcont by lia. rewrite decide_False; [done|].
            intros [Hl Hin']%elem_of_link_fragments.
            pose proof (Hx3 (Hseen x Hin')). by subst.
          - intros x y (Hx1 & Hx2 & Hx3) Hy.
            destruct (Hord' x y Hx2 Hy) as [Hxy Hym].
            split; [lia|]. split; [lia|]. intros Hyh. exfalso.
            destruct (wf_child s x y Hwfs Hy) as [_ Hp1].
            destruct (wf_child s h y Hwfs Hyh) as [_ Hp2].
            assert (x = h) by congruence. lia. }
        destruct (decide (f ≤ k)) as [Hfk|Hfk].
        -- by rewrite Nat.min_l by done.
        -- rewrite Nat.min_r by lia.
           apply (render_fuel_enough m s Hord (m - el)); lia.
Qed.

(** ** The link of one heading: the loop over the fragments *)

Lemma link_body_moved (s : Soup) m h href seen cs (σ : Soup) a el inner rest :
  wf_soup s → link_inv s m h href seen cs σ →
  a = S (length s) →
  el ∉ seen → el < length s → is_link s el →
  contents (tag_of s el) = inner :: rest →
  (let* tel := get_tag el in
   if decide (name tel = Some "a")
   then let* inner := list_getitem (contents tel) 0 in append a inner
   else let* c := clone_element el in append a c) σ
  = (inr tt, relink false a inner σ, []).
Proof.
  intros Hwfs Hinv -> Hnotin Hel Hlink Hels.
  destruct Hinv as (Hwf & Hlen & Hli & Ha & Hsame & Hcont & Hpar & Hnew & Hcs).
  destruct (Hsame el Hel) as (Hname & _ & _).
  assert (contents (tag_of σ el) = inner :: rest) as Hcσ.
  { rewrite Hcont by done. rewrite decide_False; [done|].
    by intros [_ ?]%elem_of_link_fragments. }
  assert (inner < length s) as Hinner.
  { apply (wf_child s el inner Hwfs). rewrite Hels. left. }
  unfold bind at 1, get_tag. cbv beta iota.
  rewrite decide_True by (by rewrite Hname).
  rewrite Hcσ.
  erewrite run_bind; [|reflexivity|apply append_relink; lia].
  done.
Qed.

Lemma link_body_cloned (s : Soup) m h href seen cs (σ : Soup) a el :
  link_inv s m h href seen cs σ →
  a = S (length s) → el < length s → ¬ is_link s el →
  ∃ σ1 : Soup,
    (let* tel := get_tag el in
     if decide (name tel = Some "a")
     then let* inner := list_getitem (contents tel) 0 in append a inner
     else let* c := clone_element el in append a c) σ
    = (inr tt, relink false a (length σ) σ1, []) ∧
    cloned (length σ) el σ σ1.
Proof.
  intros Hinv -> Hel Hnl.
  destruct Hinv as (Hwf & Hlen & Hli & Ha & Hsame & Hcont & Hpar & Hnew & Hcs).
  destruct (Hsame el Hel) as (Hname & _ & _).
  destruct (clone_element_rec_spec (length σ) el σ Hwf) as (σ1 & Hrun & Hcl).
  exists σ1. split; [|done].
  unfold bind at 1, get_tag. cbv beta iota.
  rewrite decide_False by (by rewrite Hname).
  erewrite run_bind; [|exact Hrun|apply append_relink; lia].
  done.
Qed.

Lemma make_link_loop (s : Soup) m h href a :
  wf_soup s → a = S (length s) →
  ∀ todo seen cs (σ : Soup),
    NoDup (seen ++ todo) →
    (∀ x, x ∈ seen ++ todo → x ∈ contents (tag_of s h)) →
    Forall (λ el, is_link s el → contents (tag_of s el) ≠ []) todo →
    link_inv s m h href seen cs σ →
    ∃ (σ' : Soup) cs',
      for_each (λ el,
        let* tel := get_tag el in
        if decide (name tel = Some "a")
        then let* inner := list_getitem (contents tel) 0 in append a inner
        else let* c := clone_element el in append a c) todo σ = (inr tt, σ', []) ∧
      link_inv s m h href (seen ++ todo) (cs ++ cs') σ'.
Proof.
  intros Hwfs Hadef.
  induction todo as [|el todo IH]; intros seen cs σ Hnd Hfrag Hne Hinv.
  { exists σ, []. by rewrite !app_nil_r. }
  pose proof Hnd as Hnd0.
  apply NoDup_app in Hnd as (Hnd1 & Hdisj & Hnd2).
  apply NoDup_cons in Hnd2 as [Hel_todo Hnd2].
  assert (el ∉ seen) as Hnotin.
  { intros Hin. apply (Hdisj el Hin). left. }
  assert (el ∈ contents (tag_of s h)) as Helh.
  { apply Hfrag. apply elem_of_app. right. left. }
  destruct (wf_child s h el Hwfs Helh) as [Hel _].
  apply Forall_cons in Hne as [Hne_el Hne].
  assert (NoDup ((seen ++ [el]) ++ todo)) as Hnd'.
  { by rewrite <-app_assoc. }
  assert (∀ x, x ∈ (seen ++ [el]) ++ todo → x ∈ contents (tag_of s h)) as Hfrag'.
  { intros x Hx. apply Hfrag. by rewrite <-app_assoc in Hx. }
  destruct (decide (is_link s el)) as [Hlink|Hnl].
  - destruct (contents (tag_of s el)) as [|inner rest] eqn:Hels;
      [by destruct (Hne_el Hlink)|].
    pose proof (link_body_moved s m h href seen cs σ a el inner rest
                  Hwfs Hinv Hadef Hnotin Hel Hlink Hels) as Hbody.
    pose proof (link_step_moved s m h href seen cs σ el inner rest
                  Hwfs Hinv Hnotin Hel Hlink Hels) as Hinv'.
    rewrite <-Hadef in Hinv'.
    destruct (IH (seen ++ [el]) (cs ++ [inner]) _ Hnd' Hfrag' Hne Hinv')
      as (σ' & cs' & Hrun & Hfinal).
    exists σ', (inner :: cs'). split.
    + change (for_each ?body (el :: todo) σ)
        with (bind (body el) (λ _, for_each body todo) σ).
      etrans; [eapply run_bind; [exact Hbody|exact Hrun]|done].
    + by rewrite <-!app_assoc in Hfinal.
  - destruct (link_body_cloned s m h href seen cs σ a el Hinv Hadef Hel Hnl)
      as (σ1 & Hbody & Hcl).
    pose proof (link_step_cloned s m h href seen cs σ σ1 el Hwfs Hinv) as Hinv'.
    rewrite <-Hadef in Hinv'.
    destruct (IH (seen ++ [el]) (cs ++ [length σ]) (relink false a (length σ) σ1)
                Hnd' Hfrag' Hne)
      as (σ' & cs' & Hrun & Hfinal).
    { apply Hinv'; try done. intros x Hx. apply Hfrag. apply elem_of_app. by left. }
    exists σ', (length σ :: cs'). split.
    + change (for_each ?body (el :: todo) σ)
        with (bind (body el) (λ _, for_each body todo) σ).
      etrans; [eapply run_bind; [exact Hbody|exact Hrun]|done].
    + by rewrite <-!app_assoc in Hfinal.
Qed.

(** ** The link of one heading: [make_link] *)

Lemma bind_new_tag {B} nm kw (f : ref → M B) (s : Soup) :
  bind (new_tag nm kw) f s = f (length s) (s ++ [mkTag (Some nm) kw "" [] None]).
Proof. unfold bind, new_tag. by destruct (f _ _) as [[??]?]. Qed.

Lemma bind_get_tag {B} r (f : Tag → M B) (s : Soup) :
  bind (get_tag r) f s = f (tag_of s r) s.
Proof. unfold bind, get_tag. by destruct (f _ _) as [[??]?]. Qed.

Lemma link_inv_init (s : Soup) m h href :
  wf_soup s →
  link_inv s m h href [] []
    ((s ++ [mkTag (Some "li") [] "" [] None]) ++ [mkTag (Some "a") href "" [] None]).
Proof.
  intros Hwf. unfold link_inv. cbv zeta.
  set (s1 := s ++ [mkTag (Some "li") [] "" [] None]).
  assert (length s1 = S (length s)) as Hlen1
    by (unfold s1; rewrite length_app; simpl; lia).
  assert (∀ r, r < length s →
            tag_of (s1 ++ [mkTag (Some "a") href "" [] None]) r = tag_of s r) as Hold.
  { intros r Hr. rewrite tag_of_app_l by lia. by apply tag_of_app_l. }
  split; [by apply wf_new_node; [apply wf_new_node|..]|].
  split; [rewrite length_app, Hlen1; simpl; lia|].
  split; [rewrite tag_of_app_l by lia; apply tag_of_app_new|].
  split; [rewrite <-Hlen1; apply tag_of_app_new|].
  split; [intros r Hr; by rewrite Hold|].
  split; [intros r Hr; by rewrite Hold|].
  split; [intros r Hr; by rewrite Hold|].
  split; [|constructor].
  intros x y Hx Hy. rewrite tag_of_invalid in Hy.
  - by apply elem_of_nil in Hy.
  - rewrite length_app, Hlen1. simpl. lia.
Qed.

Lemma make_link_run (s : Soup) m h :
  wf_soup s → h < length s →
  Forall (λ el, is_link s el → contents (tag_of s el) ≠ []) (contents (tag_of s h)) →
  ∃ (s' : Soup) cs,
    make_link h s =
      (inr (length s), s',
       [LogDebugLink h (default "" (attrs_get "id" (attrs (tag_of s h))))]) ∧
    link_made s m h cs s'.
Proof.
  intros Hwf Hh Hne.
  set (n := length s). set (frags := contents (tag_of s h)) in *.
  set (href := [("href", "#" +:+ default "" (attrs_get "id" (attrs (tag_of s h))))]).
  set (σ0 := (s ++ [mkTag (Some "li") [] "" [] None])
             ++ [mkTag (Some "a") href "" [] None]).
  destruct (make_link_loop s m h href (S n) Hwf eq_refl frags [] [] σ0)
    as (σ & cs & Hloop & Hinv).
  { apply (wf_NoDup s h Hwf). }
  { intros x Hx. done. }
  { done. }
  { by apply link_inv_init. }
  simpl in Hinv.
  pose proof Hinv as (Hwfσ & Hlen & Hli & Ha & Hsame & Hcont & Hpar & Hnew & Hcs).
  fold n in Hlen, Hli, Ha, Hsame, Hcont, Hpar, Hnew.
  assert (parent (tag_of σ (S n)) = None) as Hpa by (by rewrite Ha).
  pose proof (λ r, relink_orphan_tag false n (S n) σ r Hpa
                     ltac:(lia) ltac:(lia) ltac:(lia)) as Htag.
  exists (relink false n (S n) σ), cs. split.
  - unfold make_link. rewrite bind_new_tag, bind_get_tag. cbv zeta.
    rewrite bind_new_tag.
    rewrite (tag_of_app_l s _ h) by done.
    assert (length (s ++ [mkTag (Some "li") [] "" [] None]) = S n) as ->
      by (rewrite length_app; simpl; unfold n; lia).
    fold n href σ0 frags.
    etrans.
    { eapply run_bind; [exact Hloop|].
      eapply run_bind; [apply append_relink; lia|].
      rewrite bind_log_run. reflexivity. }
    done.
  - unfold link_made. cbv zeta. fold n frags href.
    split; [|split; [|split; [|split; [|split; [|split; [|split; [|split]]]]]]].
    + apply wf_relink; [done|lia|lia|lia|]. by rewrite Hli.
    + rewrite length_relink. lia.
    + rewrite Htag, decide_True by done. by rewrite Hli.
    + rewrite Htag, decide_False by lia. rewrite decide_True by done. by rewrite Ha.
    + intros r Hr. rewrite Htag. rewrite !decide_False by lia. by apply Hsame.
    + intros r Hr. rewrite Htag. rewrite !decide_False by lia. by apply Hcont.
    + intros r Hr. rewrite Htag. rewrite !decide_False by lia. by apply Hpar.
    + intros x y Hx Hy. rewrite Htag in Hy. rewrite !decide_False in Hy by lia.
      by apply Hnew.
    + eapply Forall2_impl; [exact Hcs|]. intros el c Hlc.
      apply (link_child_stable s m h σ); [done|]. intros Hc f.
      apply (render_ext (λ x, S (S n) ≤ x)); [| |done].
      * intros x Hx. rewrite Htag. by rewrite !decide_False by lia.
      * intros x y Hx Hy. pose proof (Hnew x y Hx Hy). lia.
Qed.

(** ** The link of one heading: a link without children *)

Lemma Exists_first {A} (P : A → Prop) `{∀ x, Decision (P x)} (l : list A) :
  Exists P l → ∃ pre x post, l = pre ++ x :: post ∧ Forall (λ y, ¬ P y) pre ∧ P x.
Proof.
  induction l as [|y l IH]; [by intros ?%Exists_nil|].
  intros Hex. destruct (decide (P y)) as [Hy|Hy].
  - exists [], y, l. split; [done|]. split; [constructor|done].
  - apply Exists_cons in Hex as [?|Hex]; [done|].
    destruct (IH Hex) as (pre & x & post & -> & Hpre & Hx).
    exists (y :: pre), x, post. split; [done|]. split; [by constructor|done].
Qed.

Lemma make_link_loop_fails (s : Soup) m h href a pre el post (σ : Soup) :
  wf_soup s → a = S (length s) →
  NoDup (pre ++ el :: post) →
  (∀ x, x ∈ pre ++ el :: post → x ∈ contents (tag_of s h)) →
  Forall (λ el, is_link s el → contents (tag_of s el) ≠ []) pre →
  is_link s el → contents (tag_of s el) = [] →
  link_inv s m h href [] [] σ →
  result_of
    (for_each (λ el,
       let* tel := get_tag el in
       if decide (name tel = Some "a")
       then let* inner := list_getitem (contents tel) 0 in append a inner
       else let* c := clone_element el in append a c) (pre ++ el :: post) σ)
  = inl IndexError.
Proof.
  intros Hwf Ha Hnd Hfrag Hpre Hlink Hempty Hinv.
  destruct (make_link_loop s m h href a Hwf Ha pre [] [] σ)
    as (σ' & cs' & Hrun & Hinv'); [| |done|done|].
  { simpl. by apply NoDup_app in Hnd as (? & _ & _). }
  { simpl. intros x Hx. apply Hfrag. apply elem_of_app. by left. }
  simpl in Hinv'.
  destruct Hinv' as (_ & _ & _ & _ & Hsame & Hcont & _).
  assert (el ∈ contents (tag_of s h)) as Helh
    by (apply Hfrag, elem_of_app; right; left).
  destruct (wf_child s h el Hwf Helh) as [Hel _].
  rewrite for_each_app. erewrite result_of_bind by exact Hrun.
  change (for_each ?body (el :: post) σ')
    with (bind (body el) (λ _, for_each body post) σ').
  apply result_of_bind_raise.
  rewrite bind_get_tag.
  destruct (Hsame el Hel) as (Hname & _ & _).
  rewrite decide_True by (by rewrite Hname).
  rewrite Hcont by done. rewrite decide_False.
  - by rewrite Hempty.
  - intros [_ Hin]%elem_of_link_fragments.
    apply NoDup_app in Hnd as (_ & Hdisj & _). apply (Hdisj el Hin). left.
Qed.

Lemma make_link_fails (s : Soup) h :
  wf_soup s → h < length s →
  Exists (λ el, is_link s el ∧ contents (tag_of s el) = []) (contents (tag_of s h)) →
  result_of (make_link h s) = inl IndexError.
Proof.
  intros Hwf Hh Hex.
  apply Exists_first in Hex as (pre & el & post & Hfrags & Hpre & Hlink & Hempty);
    [|apply _].
  set (href := [("href", "#" +:+ default "" (attrs_get "id" (attrs (tag_of s h))))]).
  unfold make_link. rewrite bind_new_tag, bind_get_tag. cbv zeta.
  rewrite bind_new_tag.
  rewrite (tag_of_app_l s _ h) by done.
  assert (length (s ++ [mkTag (Some "li") [] "" [] None]) = S (length s)) as ->
    by (rewrite length_app; simpl; lia).
  apply result_of_bind_raise. rewrite Hfrags.
  apply (make_link_loop_fails s 0 h href); try done.
  - rewrite <-Hfrags. by apply wf_NoDup.
  - intros x Hx. by rewrite Hfrags.
  - eapply Forall_impl; [exact Hpre|]. simpl. intros x Hx Hl Hc. by apply Hx.
  - by apply link_inv_init.
Qed.

Lemma make_link_cases (s : Soup) m h :
  wf_soup s → h < length s →
  (Forall (λ el, is_link s el → contents (tag_of s el) ≠ []) (contents (tag_of s h)) ∧
   ∃ (s' : Soup) cs,
     make_link h s =
       (inr (length s), s',
        [LogDebugLink h (default "" (attrs_get "id" (attrs (tag_of s h))))]) ∧
     link_made s m h cs s') ∨
  (Exists (λ el, is_link s el ∧ contents (tag_of s el) = []) (contents (tag_of s h)) ∧
   result_of (make_link h s) = inl IndexError).
Proof.
  intros Hwf Hh.
  destruct (decide (Exists (λ el, is_link s el ∧ contents (tag_of s el) = [])
                      (contents (tag_of s h)))) as [Hex|Hnex].
  - right. split; [done|]. by apply make_link_fails.
  - left. apply not_Exists_Forall in Hnex; [|apply _].
    assert (Forall (λ el, is_link s el → contents (tag_of s el) ≠ [])
              (contents (tag_of s h))) as Hne.
    { eapply Forall_impl; [exact Hnex|]. simpl. intros x Hx Hl Hc. by apply Hx. }
    split; [done|]. by apply make_link_run.
Qed.

Lemma make_link_inv (s : Soup) m h li (s' : Soup) logs :
  wf_soup s → h < length s →
  make_link h s = (inr li, s', logs) →
  li = length s ∧
  logs = [LogDebugLink h (default "" (attrs_get "id" (attrs (tag_of s h))))] ∧
  Forall (λ el, is_link s el → contents (tag_of s el) ≠ []) (contents (tag_of s h)) ∧
  ∃ cs, link_made s m h cs s'.
Proof.
  intros Hwf Hh Hrun.
  destruct (make_link_cases s m h Hwf Hh)
    as [(Hne & s'' & cs & Hrun' & Hmade)|(_ & Hfail)].
  - rewrite Hrun in Hrun'. injection Hrun' as -> -> ->.
    split; [done|]. split; [done|]. split; [done|]. by exists cs.
  - rewrite Hrun in Hfail. discriminate Hfail.
Qed.

(** ** The list of the table of contents: what it may change *)

Lemma with_contents_same (t : Tag) : with_contents (contents t) t = t.
Proof. by destruct t. Qed.

Lemma movable_same (s s1 : Soup) r :
  wf_soup s → r < length s →
  (∀ x, x < length s → name (tag_of s1 x) = name (tag_of s x)) →
  parent (tag_of s1 r) = parent (tag_of s r) →
  movable s1 r → movable s r.
Proof.
  intros Hwf Hr Hname Hp [Hl|(p & Hpp & Hl)].
  - left. unfold is_link in *. by rewrite <-Hname.
  - right. exists p. rewrite Hp in Hpp. split; [done|].
    unfold is_link in *. rewrite <-Hname; [done|]. by eapply wf_parent_valid.
Qed.

Lemma toc_built_trans lis1 lis2 ul (s s1 s2 : Soup) :
  wf_soup s → ul < length s →
  toc_built lis1 ul s s1 → toc_built lis2 ul s1 s2 → toc_built (lis1 ++ lis2) ul s s2.
Proof.
  intros Hwf Hul (Hwf1 & Hlen1 & Hsame1 & Hframe1 & Hnew1 & Hul1)
    (Hwf2 & Hlen2 & Hsame2 & Hframe2 & Hnew2 & Hul2).
  assert (∀ x, x < length s → name (tag_of s1 x) = name (tag_of s x)) as Hname1.
  { intros x Hx. by destruct (Hsame1 x Hx). }
  split; [done|]. split; [lia|]. split; [|split; [|split]].
  - intros r Hr. destruct (Hsame2 r ltac:(lia)) as (-> & -> & ->). by apply Hsame1.
  - intros r Hr Hne Hnm. rewrite <-(Hframe1 r Hr Hne Hnm).
    apply Hframe2; [lia|done|]. intros Hm. apply Hnm.
    apply (movable_same s s1); try done. by rewrite Hframe1.
  - apply Forall_app. split; [done|].
    eapply Forall_impl; [exact Hnew2|]. simpl. lia.
  - intros Hnm. pose proof (Hul1 Hnm) as Htag1.
    rewrite Hul2, Htag1; [simpl; by rewrite app_assoc|].
    intros Hm. apply Hnm. apply (movable_same s s1); try done.
    by rewrite Htag1.
Qed.

Lemma toc_built_nested lis1 lis2 ul ul2 (s s1 s2 : Soup) :
  wf_soup s → ul < length s → length s ≤ ul2 →
  toc_built lis1 ul s s1 → toc_built lis2 ul2 s1 s2 → toc_built lis1 ul s s2.
Proof.
  intros Hwf Hul Hul2 (Hwf1 & Hlen1 & Hsame1 & Hframe1 & Hnew1 & Hul1)
    (Hwf2 & Hlen2 & Hsame2 & Hframe2 & _).
  assert (∀ x, x < length s → name (tag_of s1 x) = name (tag_of s x)) as Hname1.
  { intros x Hx. by destruct (Hsame1 x Hx). }
  split; [done|]. split; [lia|]. split; [|split; [|split]].
  - intros r Hr. destruct (Hsame2 r ltac:(lia)) as (-> & -> & ->). by apply Hsame1.
  - intros r Hr Hne Hnm. rewrite <-(Hframe1 r Hr Hne Hnm).
    apply Hframe2; [lia|lia|]. intros Hm. apply Hnm.
    apply (movable_same s s1); try done. by rewrite Hframe1.
  - done.
  - intros Hnm. pose proof (Hul1 Hnm) as Htag1.
    rewrite <-Htag1. apply Hframe2; [lia|lia|].
    intros Hm. apply Hnm. apply (movable_same s s1); try done. by rewrite Htag1.
Qed.

(** ** The items of the list *)

Lemma movable_link_fragment (s : Soup) h r :
  r ∈ link_fragments s (contents (tag_of s h)) → movable s r.
Proof. intros [Hl _]%elem_of_link_fragments. by left. Qed.

Lemma movable_moved_child (s : Soup) h r :
  wf_soup s → r ∈ moved_children s (contents (tag_of s h)) → movable s r.
Proof.
  intros Hwf (el & _ & Hl & Hhead)%elem_of_moved_children.
  right. exists el. split; [|done].
  apply head_elem_of in Hhead. by destruct (wf_child s el r Hwf Hhead).
Qed.

Lemma make_item_built (s : Soup) e ul li (s' : Soup) logs :
  wf_soup s → ul < length s → (∀ h, e = Some h → h < length s) →
  make_item e s = (inr li, s', logs) →
  li = length s ∧ logs = [toc_record s e] ∧
  toc_built [] ul s s' ∧ length s < length s' ∧
  ∃ link, tag_of s' li = mkTag (Some "li") [] "" link None ∧ toc_link s s' e link.
Proof.
  intros Hwf Hul He Hrun. destruct e as [h|]; simpl in Hrun.
  - destruct (make_link_inv s 0 h li s' logs Hwf (He h eq_refl) Hrun)
      as (-> & -> & _ & cs & Hmade).
    destruct Hmade as (Hwf' & Hlen & Hli & Ha & Hsame & Hcont & Hpar & _ & _).
    cbv zeta in *.
    split; [done|]. split; [done|]. split; [|split; [lia|]].
    + split; [done|]. split; [lia|]. split; [done|].
      assert (∀ r, r < length s → ¬ movable s r → tag_of s' r = tag_of s r) as Hframe.
      { intros r Hr Hnm. apply tag_eq; try by apply Hsame.
        - rewrite Hcont by done. case_decide as Hin; [|done].
          destruct Hnm. by eapply movable_link_fragment.
        - rewrite Hpar by done. case_decide as Hin; [|done].
          destruct Hnm. by eapply movable_moved_child. }
      split; [by intros r Hr _; apply Hframe|]. split; [done|].
      intros Hnm. rewrite app_nil_r, with_contents_same.
      by apply Hframe.
    + exists [S (length s)]. split; [done|]. exists (S (length s)).
      split; [done|]. by rewrite Ha.
  - rewrite bind_log_run in Hrun. unfold new_tag, result_of, soup_of, logs_of in Hrun. simpl in Hrun.
    injection Hrun as <- <- <-.
    assert (∀ r, r < length s →
              tag_of (s ++ [mkTag (Some "li") [] "" [] None]) r = tag_of s r) as Hold.
    { intros r Hr. by apply tag_of_app_l. }
    split; [done|]. split; [done|]. split; [|split].
    + split; [by apply wf_new_node|]. split; [rewrite length_app; simpl; lia|].
      split; [by intros r Hr; rewrite Hold|].
      split; [by intros r Hr _ _; apply Hold|]. split; [done|].
      intros _. rewrite app_nil_r, with_contents_same. by apply Hold.
    + rewrite length_app. simpl. lia.
    + exists []. by rewrite tag_of_app_new.
Qed.

Lemma make_item_raises (s : Soup) e x (s' : Soup) logs :
  wf_soup s → (∀ h, e = Some h → h < length s) →
  make_item e s = (inl x, s', logs) → x = IndexError.
Proof.
  intros Hwf He Hrun. destruct e as [h|]; simpl in Hrun.
  - destruct (make_link_cases s 0 h Hwf (He h eq_refl))
      as [(_ & s'' & cs & Hrun' & _)|(_ & Hfail)].
    + rewrite Hrun in Hrun'. discriminate Hrun'.
    + rewrite Hrun in Hfail. by injection Hfail.
  - rewrite bind_log_run in Hrun. discriminate Hrun.
Qed.

Lemma all2_Forall2 {A B} (P : A → B → Prop) l k : all2 P l k ↔ Forall2 P l k.
Proof.
  revert k. induction l as [|x l IH]; intros [|y k]; simpl; split;
    try done; try by inversion 1.
  - intros [H1 H2]. constructor; [done|]. by apply IH.
  - inversion 1; subst. split; [done|]. by apply IH.
Qed.

Lemma toc_item_eq n (s0 s : Soup) e subs li :
  toc_item n s0 s (HeaderTree e subs) li ↔
  n ≤ li ∧ name (tag_of s li) = Some "li" ∧ attrs (tag_of s li) = [] ∧
  ∃ link sub,
    contents (tag_of s li) = link ++ sub ∧
    toc_link s0 s e link ∧
    match subs with
    | [] => sub = []
    | _ :: _ =>
        ∃ ul, sub = [ul] ∧ n ≤ ul ∧
              name (tag_of s ul) = Some "ul" ∧ attrs (tag_of s ul) = [] ∧
              Forall2 (toc_item n s0 s) subs (contents (tag_of s ul))
    end.
Proof.
  destruct subs as [|t subs]; [done|].
  change (toc_item n s0 s (HeaderTree e (t :: subs)) li) with
    (n ≤ li ∧ name (tag_of s li) = Some "li" ∧ attrs (tag_of s li) = [] ∧
     ∃ link sub,
       contents (tag_of s li) = link ++ sub ∧
       toc_link s0 s e link ∧
       ∃ ul, sub = [ul] ∧ n ≤ ul ∧
             name (tag_of s ul) = Some "ul" ∧ attrs (tag_of s ul) = [] ∧
             all2 (toc_item n s0 s) (t :: subs) (contents (tag_of s ul))).
  by setoid_rewrite all2_Forall2.
Qed.

Lemma named_valid (s : Soup) r nm : name (tag_of s r) = Some nm → r < length s.
Proof. intros H. apply tag_of_valid. intros E. by rewrite E in H. Qed.

Lemma not_movable (s : Soup) r p :
  ¬ is_link s r → parent (tag_of s r) = Some p → ¬ is_link s p → ¬ movable s r.
Proof. intros Hr Hp Hl [?|(q & Hq & ?)]; [done|]. congruence. Qed.

Lemma toc_item_frame n (s0 σ σ' : Soup) t :
  wf_soup σ →
  (∀ r, r < length σ → name (tag_of σ' r) = name (tag_of σ r) ∧
                        attrs (tag_of σ' r) = attrs (tag_of σ r) ∧
                        text (tag_of σ' r) = text (tag_of σ r)) →
  (∀ r, r < length σ → n ≤ r →
        name (tag_of σ r) = Some "li" ∨ name (tag_of σ r) = Some "ul" →
        ¬ movable σ r → tag_of σ' r = tag_of σ r) →
  ∀ li, ¬ movable σ li → toc_item n s0 σ t li → toc_item n s0 σ' t li.
Proof.
  intros Hwf Hsame Hframe.
  induction t as [e subs IH] using HeaderTree_ind'. intros li Hnm.
  rewrite !toc_item_eq.
  intros (Hn & Hname & Hattrs & link & sub & Hcont & Hlink & Hsub).
  assert (li < length σ) as Hli by by eapply named_valid.
  assert (tag_of σ' li = tag_of σ li) as Eli by (apply Hframe; auto).
  rewrite Eli. split; [done|]. split; [done|]. split; [done|].
  exists link, sub. split; [done|]. split.
  - destruct e as [h|]; [|done]. destruct Hlink as (a & -> & Ha1 & Ha2).
    exists a. split; [done|].
    assert (a < length σ) as Ha.
    { eapply (wf_child σ li a Hwf). rewrite Hcont. left. }
    destruct (Hsame a Ha) as (-> & -> & _). done.
  - destruct subs as [|t subs]; [done|].
    destruct Hsub as (ul & -> & Hnul & Hulname & Hulattrs & Hitems).
    assert (ul ∈ contents (tag_of σ li)) as Hin.
    { rewrite Hcont. apply elem_of_app. right. left. }
    destruct (wf_child σ li ul Hwf Hin) as [Hul Hpar].
    assert (¬ movable σ ul) as Hnmul.
    { apply (not_movable σ ul li); [|done|]; unfold is_link; congruence. }
    assert (tag_of σ' ul = tag_of σ ul) as Eul by (apply Hframe; auto).
    exists ul. rewrite Eul. do 4 (split; [done|]).
    revert Hitems IH. generalize (t :: subs). intros ts Hitems IH.
    assert (∀ x, x ∈ contents (tag_of σ ul) → parent (tag_of σ x) = Some ul) as Hpars.
    { intros x Hx. by destruct (wf_child σ ul x Hwf Hx). }
    revert Hpars. induction Hitems as [|t1 li1 ts lis H1 Hrest IHrest]; intros Hpars.
    + constructor.
    + apply Forall_cons in IH as [IH1 IH2]. constructor.
      * apply IH1; [|done].
        assert (name (tag_of σ li1) = Some "li") as Hn1.
        { destruct t1. apply toc_item_eq in H1. tauto. }
        apply (not_movable σ li1 ul); [|apply Hpars; left|];
          unfold is_link; congruence.
      * apply IHrest; [done|]. intros x Hx. apply Hpars. by right.
Qed.

Lemma toc_item_mono n n' (s0 s : Soup) t :
  n' ≤ n → ∀ li, toc_item n s0 s t li → toc_item n' s0 s t li.
Proof.
  intros Hle. induction t as [e subs IH] using HeaderTree_ind'. intros li.
  rewrite !toc_item_eq.
  intros (Hn & Hname & Hattrs & link & sub & Hcont & Hlink & Hsub).
  split; [lia|]. do 2 (split; [done|]). exists link, sub. do 2 (split; [done|]).
  destruct subs as [|t subs]; [done|].
  destruct Hsub as (ul & -> & Hnul & Hulname & Hulattrs & Hitems).
  exists ul. split; [done|]. split; [lia|]. do 2 (split; [done|]).
  revert Hitems IH. generalize (t :: subs). intros ts Hitems IH.
  induction Hitems as [|t1 li1 ts lis H1 Hrest IHrest]; [constructor|].
  apply Forall_cons in IH as [IH1 IH2]. constructor; [by apply IH1|by apply IHrest].
Qed.

Lemma bind_silent {A B} (m : M A) (f : A → M B) s a s1 :
  m s = (inr a, s1, []) → bind m f s = f a s1.
Proof. intros H. unfold bind. rewrite H. by destruct (f a s1) as [[? ?] ?]. Qed.

Lemma toc_built_refl ul (s : Soup) : wf_soup s → toc_built [] ul s s.
Proof.
  intros Hwf. split; [done|]. split; [done|]. split; [done|]. split; [done|].
  split; [done|]. intros _. by rewrite app_nil_r, with_contents_same.
Qed.

Lemma toc_built_ext lis ul (s σ σ' : Soup) :
  toc_built lis ul s σ → wf_soup σ' → length σ ≤ length σ' →
  (∀ r, r < length s → tag_of σ' r = tag_of σ r) →
  ul < length s →
  toc_built lis ul s σ'.
Proof.
  intros (Hwf1 & Hlen1 & Hsame1 & Hframe1 & Hnew1 & Hul1) Hwf' Hlen Heq Hul.
  split; [done|]. split; [lia|]. split; [|split; [|split]].
  - intros r Hr. rewrite Heq by done. by apply Hsame1.
  - intros r Hr Hne Hnm. rewrite Heq by done. by apply Hframe1.
  - done.
  - intros Hnm. rewrite Heq by done. by apply Hul1.
Qed.

Lemma toc_built_next lis ul (s s1 : Soup) :
  wf_soup s → ul < length s → ¬ movable s ul → toc_built lis ul s s1 →
  wf_soup s1 ∧ ul < length s1 ∧ name (tag_of s1 ul) = name (tag_of s ul) ∧
  ¬ movable s1 ul ∧
  ∀ h, h < length s → h < length s1 ∧ attrs (tag_of s1 h) = attrs (tag_of s h).
Proof.
  intros Hwf Hul Hnm (Hwf1 & Hlen1 & Hsame1 & Hframe1 & Hnew1 & Hul1).
  split; [done|]. split; [lia|]. split; [by destruct (Hsame1 ul Hul)|]. split.
  - intros Hm. apply Hnm. apply (movable_same s s1); try done.
    + intros x Hx. by destruct (Hsame1 x Hx).
    + by rewrite (Hul1 Hnm).
  - intros h Hh. split; [lia|]. by destruct (Hsame1 h Hh) as (_ & -> & _).
Qed.

Lemma toc_link_transfer (s s0 σ σ' : Soup) e link :
  toc_link s σ e link →
  (∀ h, e = Some h → attrs (tag_of s h) = attrs (tag_of s0 h)) →
  (∀ a, a ∈ link → name (tag_of σ' a) = name (tag_of σ a) ∧
                    attrs (tag_of σ' a) = attrs (tag_of σ a)) →
  toc_link s0 σ' e link.
Proof.
  intros Hlink He Ha. destruct e as [h|]; [|done].
  destruct Hlink as (a & -> & Hn & Hat). exists a. split; [done|].
  destruct (Ha a) as [-> ->]; [left|]. by rewrite <-(He h eq_refl).
Qed.

Lemma toc_record_same (s s0 : Soup) e :
  (∀ h, e = Some h → attrs (tag_of s h) = attrs (tag_of s0 h)) →
  toc_record s e = toc_record s0 e.
Proof. intros He. destruct e as [h|]; [|done]. simpl. by rewrite (He h eq_refl). Qed.

Lemma create_toc_items_from (s0 : Soup) ts :
  Forall (λ t, ∀ ul (s : Soup) res (s' : Soup) logs,
    wf_soup s → ul < length s → name (tag_of s ul) = Some "ul" → ¬ movable s ul →
    Forall (λ h, h < length s ∧ attrs (tag_of s h) = attrs (tag_of s0 h))
      (real_elements [t]) →
    create_toc_item ul t s = (res, s', logs) →
    match res with
    | inl x => x = IndexError
    | inr _ =>
        toc_built [length s] ul s s' ∧
        toc_item (length s) s0 s' t (length s) ∧
        logs = toc_record s0 <$> preorder t
    end) ts →
  ∀ ul (s : Soup) res (s' : Soup) logs,
    wf_soup s → ul < length s → name (tag_of s ul) = Some "ul" → ¬ movable s ul →
    Forall (λ h, h < length s ∧ attrs (tag_of s h) = attrs (tag_of s0 h))
      (real_elements ts) →
    for_each (create_toc_item ul) ts s = (res, s', logs) →
    match res with
    | inl x => x = IndexError
    | inr _ =>
        ∃ lis, toc_built lis ul s s' ∧
               Forall2 (toc_item (length s) s0 s') ts lis ∧
               logs = toc_record s0 <$> flat_map preorder ts
    end.
Proof.
  induction 1 as [|t ts Ht _ IH]; intros ul s res s' logs Hwf Hul Hname Hnm Hknown Hrun.
  - injection Hrun as <- <- <-. exists []. split; [by apply toc_built_refl|]. done.
  - change (t :: ts) with ([t] ++ ts) in Hknown. rewrite real_elements_app in Hknown.
    apply Forall_app in Hknown as [Hk1 Hk2].
    change (for_each (create_toc_item ul) (t :: ts) s) with
      (bind (create_toc_item ul t) (λ _, for_each (create_toc_item ul) ts) s) in Hrun.
    apply bind_inv in Hrun as [(e & Hrun1 & ->)|([] & s1 & l1 & l2 & Hrun1 & Hrun2 & ->)].
    { exact (Ht ul s (inl e) s' logs Hwf Hul Hname Hnm Hk1 Hrun1). }
    destruct (Ht ul s (inr tt) s1 l1 Hwf Hul Hname Hnm Hk1 Hrun1) as (Hb1 & Hitem1 & ->).
    destruct (toc_built_next _ ul s s1 Hwf Hul Hnm Hb1)
      as (Hwf1 & Hul1 & Hname1 & Hnm1 & Hkeep).
    specialize (IH ul s1 res s' l2 Hwf1 Hul1).
    destruct res as [x|[]]; [apply IH|]; [congruence|done| |done|].
    { eapply Forall_impl; [exact Hk2|]. simpl. intros h [Hh Hattrs].
      destruct (Hkeep h Hh) as [? ->]. done. }
    destruct IH as (lis & Hb2 & Hitems & ->); [congruence|done| |done|].
    { eapply Forall_impl; [exact Hk2|]. simpl. intros h [Hh Hattrs].
      destruct (Hkeep h Hh) as [? ->]. done. }
    exists (length s :: lis). split; [|split].
    + by apply (toc_built_trans [length s] lis ul s s1 s').
    + pose proof Hb1 as (_ & Hlen1 & _ & _ & _ & Htag1).
      pose proof Hb2 as (_ & _ & Hsame2 & Hframe2 & _).
      constructor.
      * apply (toc_item_frame (length s) s0 s1 s'); try done.
        { intros r Hr Hn _ Hm. apply Hframe2; [done|lia|done]. }
        assert (name (tag_of s1 (length s)) = Some "li") as Hli.
        { destruct t. apply toc_item_eq in Hitem1. tauto. }
        apply (not_movable s1 (length s) ul); [unfold is_link; congruence| |
          unfold is_link; congruence].
        eapply (wf_child s1 ul (length s) Hwf1).
        rewrite (Htag1 Hnm). simpl. apply elem_of_app. right. left.
      * eapply Forall2_impl; [exact Hitems|]. intros t' li'.
        apply toc_item_mono. done.
    + simpl. by rewrite fmap_app.
Qed.

Lemma create_toc_item_built (s0 : Soup) t :
  ∀ ul (s : Soup) res (s' : Soup) logs,
    wf_soup s → ul < length s → name (tag_of s ul) = Some "ul" → ¬ movable s ul →
    Forall (λ h, h < length s ∧ attrs (tag_of s h) = attrs (tag_of s0 h))
      (real_elements [t]) →
    create_toc_item ul t s = (res, s', logs) →
    match res with
    | inl x => x = IndexError
    | inr _ =>
        toc_built [length s] ul s s' ∧
        toc_item (length s) s0 s' t (length s) ∧
        logs = toc_record s0 <$> preorder t
    end.
Proof.
  induction t as [e subs IH] using HeaderTree_ind'.
  intros ul s res s' logs Hwf Hul Hname Hnm Hknown Hrun.
  rewrite real_elements_node in Hknown. apply Forall_app in Hknown as [Hke Hks].
  assert (∀ h, e = Some h → h < length s ∧ attrs (tag_of s h) = attrs (tag_of s0 h))
    as He.
  { intros h ->. simpl in Hke. exact (Forall_inv Hke). }
  rewrite create_toc_item_eq in Hrun.
  apply bind_inv in Hrun as [(x & Hrun1 & ->)|(li & s1 & l1 & l2 & Hrun1 & Hrun2 & ->)].
  { apply (make_item_raises s e x s' logs Hwf); [by intros h [? _]%He|done]. }
  destruct (make_item_built s e ul li s1 l1 Hwf Hul) as
    (-> & -> & Hb1 & Hlen1 & link & Hli1 & Hlink1); [by intros h [? _]%He|done|].
  destruct (toc_built_next _ ul s s1 Hwf Hul Hnm Hb1)
    as (Hwf1 & Hul1 & Hname1 & Hnm1 & Hkeep1).
  pose proof Hb1 as (_ & _ & Hsame1 & Hframe1 & _ & Htag1).
  rewrite app_nil_r, with_contents_same in Htag1. specialize (Htag1 Hnm).
  (* the item joins the list *)
  set (n := length s) in *.
  rewrite (bind_silent _ _ _ _ _ (append_relink ul n s1 ltac:(lia))) in Hrun2.
  set (s2 := relink false ul n s1) in *.
  assert (length s2 = length s1) as Hlen2 by apply length_relink.
  assert (wf_soup s2) as Hwf2.
  { apply wf_relink; [done|done|lia|lia|congruence]. }
  assert (∀ r, tag_of s2 r =
            if decide (r = ul)
            then with_contents (contents (tag_of s ul) ++ [n]) (tag_of s ul)
            else if decide (r = n) then mkTag (Some "li") [] "" link (Some ul)
            else tag_of s1 r) as Htag2.
  { intros r. unfold s2. rewrite relink_orphan_tag; [|by rewrite Hli1|done|done|lia].
    by rewrite Htag1, Hli1. }
  pose proof (relink_fields false ul n s1 : ∀ r,
    name (tag_of s2 r) = name (tag_of s1 r) ∧
    attrs (tag_of s2 r) = attrs (tag_of s1 r) ∧
    text (tag_of s2 r) = text (tag_of s1 r)) as Hfields2.
  assert (toc_built [n] ul s s2) as Hb2.
  { split; [done|]. split; [lia|]. split; [|split; [|split]].
    - intros r Hr. destruct (Hfields2 r) as (-> & -> & ->). by apply Hsame1.
    - intros r Hr Hne Hm. rewrite Htag2, decide_False, decide_False by (done || lia).
      by apply Hframe1.
    - by apply Forall_singleton.
    - intros _. by rewrite Htag2, decide_True. }
  assert (toc_link s0 s2 e link) as Hlink2.
  { apply (toc_link_transfer s s0 s1 s2 e link Hlink1); [by intros h [_ ?]%He|].
    intros a _. by destruct (Hfields2 a) as (-> & -> & _). }
  assert (toc_record s e = toc_record s0 e) as Hrec.
  { apply toc_record_same. by intros h [_ ?]%He. }
  destruct subs as [|t subs].
  - injection Hrun2 as <- <- <-. split; [done|]. split.
    + apply toc_item_eq. split; [done|].
      rewrite Htag2, decide_False, decide_True by (done || lia). simpl.
      split; [done|]. split; [done|]. exists link, []. by rewrite app_nil_r.
    + simpl. by rewrite Hrec.
  - rewrite bind_new_tag in Hrun2. rewrite Hlen2 in Hrun2.
    set (ul_tag := mkTag (Some "ul") [] "" [] None) in *.
    set (m := length s1) in *.
    assert (length (s2 ++ [ul_tag]) = S m) as Hlen3.
    { rewrite length_app. simpl. lia. }
    rewrite (bind_silent _ _ _ _ _ (append_relink n m (s2 ++ [ul_tag]) ltac:(lia)))
      in Hrun2.
    set (s4 := relink false n m (s2 ++ [ul_tag])) in *.
    assert (length s4 = S m) as Hlen4 by (unfold s4; by rewrite length_relink).
    assert (tag_of (s2 ++ [ul_tag]) m = ul_tag) as Hnew3.
    { rewrite <-Hlen2. apply tag_of_app_new. }
    assert (∀ r, r ≠ m → tag_of (s2 ++ [ul_tag]) r = tag_of s2 r) as Hold3.
    { intros r Hr. destruct (decide (r < length s2)); [by apply tag_of_app_l|].
      rewrite !tag_of_invalid; [done|lia|lia]. }
    assert (wf_soup s4) as Hwf4.
    { apply wf_relink; [by apply wf_new_node|lia|lia|lia|].
      rewrite Hold3 by lia. rewrite Htag2.
      rewrite (decide_False (P := n = ul)) by lia. by rewrite decide_True. }
    assert (∀ r, tag_of s4 r =
              if decide (r = n) then mkTag (Some "li") [] "" (link ++ [m]) (Some ul)
              else if decide (r = m) then mkTag (Some "ul") [] "" [] (Some n)
              else tag_of s2 r) as Htag4.
    { intros r. unfold s4.
      rewrite relink_orphan_tag; [|by rewrite Hnew3|lia|lia|lia].
      rewrite Hnew3, (Hold3 n), (Htag2 n) by lia.
      rewrite (decide_False (P := n = ul)), (decide_True (P := n = n)) by (done || lia).
      repeat case_decide; try done. by apply Hold3. }
    assert (toc_built [n] ul s s4) as Hb4.
    { apply (toc_built_ext [n] ul s s2 s4); [done|done|lia| |done].
      intros r Hr. rewrite Htag4, decide_False, decide_False by lia. done. }
    destruct (toc_built_next _ ul s s4 Hwf Hul Hnm Hb4)
      as (_ & Hul4 & Hname4 & Hnm4 & Hkeep4).
    assert (¬ is_link s4 n) as Hnl4.
    { unfold is_link. by rewrite Htag4, decide_True. }
    assert (¬ movable s4 m) as Hnmm.
    { apply (not_movable s4 m n); [| |done].
      - unfold is_link. by rewrite Htag4, decide_False, decide_True by lia.
      - by rewrite Htag4, decide_False, decide_True by lia. }
    assert (¬ movable s4 n) as Hnmn.
    { apply (not_movable s4 n ul); [done| |].
      - by rewrite Htag4, decide_True.
      - unfold is_link. congruence. }
    pose proof (create_toc_items_from s0 (t :: subs) IH m s4 res s' l2 Hwf4
                  ltac:(lia)) as Hsubs.
    rewrite Htag4, decide_False, decide_True in Hsubs by lia.
    specialize (Hsubs eq_refl Hnmm).
    assert (Forall (λ h, h < length s4 ∧ attrs (tag_of s4 h) = attrs (tag_of s0 h))
              (real_elements (t :: subs))) as Hks4.
    { eapply Forall_impl; [exact Hks|]. simpl. intros h [Hh Hattrs].
      destruct (Hkeep4 h Hh) as [? ->]. done. }
    specialize (Hsubs Hks4 Hrun2).
    destruct res as [x|[]]; [done|].
    destruct Hsubs as (lis & Hb5 & Hitems & ->).
    pose proof Hb5 as (_ & _ & Hsame5 & Hframe5 & Hnew5 & Htag5).
    split; [|split].
    + apply (toc_built_nested [n] lis ul m s s4 s'); [done|done|lia|done|done].
    + apply toc_item_eq. split; [done|].
      rewrite (Hframe5 n), Htag4, decide_True by (done || lia). simpl.
      split; [done|]. split; [done|]. exists link, [m]. split; [done|]. split.
      * apply (toc_link_transfer s0 s0 s2 s' e link Hlink2); [done|].
        intros a Ha.
        assert (a < length s2) as Hlt.
        { destruct e as [h|]; simpl in Hlink2.
          - destruct Hlink2 as (a' & -> & Hna & _).
            apply list_elem_of_singleton in Ha as ->. by eapply named_valid.
          - subst link. by apply elem_of_nil in Ha. }
        assert (a ≠ n) as Hne.
        { intros ->. destruct e as [h|]; simpl in Hlink2.
          - destruct Hlink2 as (a' & -> & Hna & _).
            apply list_elem_of_singleton in Ha as <-.
            rewrite Htag2, decide_False, decide_True in Hna by (done || lia). done.
          - subst link. by apply elem_of_nil in Ha. }
        destruct (Hsame5 a ltac:(lia)) as (-> & -> & _).
        rewrite Htag4, decide_False, decide_False by lia. done.
      * exists m. split; [done|]. split; [lia|].
        rewrite (Htag5 Hnmm), Htag4, decide_False, decide_True by lia. simpl.
        split; [done|]. split; [done|].
        eapply Forall2_impl; [exact Hitems|]. intros t' li'.
        apply toc_item_mono. lia.
    + by rewrite Hrec.
Qed.

Lemma tag_of_app_other (s : Soup) t r : r ≠ length s → tag_of (s ++ [t]) r = tag_of s r.
Proof.
  intros Hr. destruct (decide (r < length s)); [by apply tag_of_app_l|].
  rewrite !tag_of_invalid; [done|lia|rewrite length_app; simpl; lia].
Qed.

Lemma append_fresh (s : Soup) tag t :
  wf_soup s → tag < length s → name (tag_of s tag) ≠ None →
  contents t = [] → parent t = None →
  wf_soup (relink false tag (length s) (s ++ [t])) ∧
  length (relink false tag (length s) (s ++ [t])) = S (length s) ∧
  ∀ r, tag_of (relink false tag (length s) (s ++ [t])) r =
       if decide (r = tag)
       then with_contents (contents (tag_of s tag) ++ [length s]) (tag_of s tag)
       else if decide (r = length s) then with_parent (Some tag) t
       else tag_of s r.
Proof.
  intros Hwf Htag Hname Hc Hp.
  assert (length (s ++ [t]) = S (length s)) as Hlen.
  { rewrite length_app. simpl. lia. }
  assert (tag_of (s ++ [t]) tag = tag_of s tag) as Etag by by apply tag_of_app_l.
  split; [|split].
  - apply wf_relink; [by apply wf_new_node|lia|lia|lia|by rewrite Etag].
  - by rewrite length_relink.
  - intros r. rewrite relink_orphan_tag; [|by rewrite tag_of_app_new|lia|lia|lia].
    rewrite Etag, tag_of_app_new.
    repeat case_decide; try done. by apply tag_of_app_other.
Qed.

Lemma create_toc_items_built (s0 : Soup) ts ul (s : Soup) r (s' : Soup) logs :
  wf_soup s → ul < length s → name (tag_of s ul) = Some "ul" → ¬ movable s ul →
  Forall (λ h, h < length s ∧ attrs (tag_of s h) = attrs (tag_of s0 h))
    (real_elements ts) →
  for_each (create_toc_item ul) ts s = (r, s', logs) →
  match r with
  | inl x => x = IndexError
  | inr _ =>
      ∃ lis, toc_built lis ul s s' ∧
             Forall2 (toc_item (length s) s0 s') ts lis ∧
             logs = toc_record s0 <$> flat_map preorder ts
  end.
Proof.
  apply create_toc_items_from. apply Forall_forall. intros t _.
  apply create_toc_item_built.
Qed.

Lemma create_toc_built (s0 : Soup) headers parent_tag (s : Soup) res (s' : Soup) logs :
  wf_soup s → parent_tag < length s →
  name (tag_of s parent_tag) ≠ None → ¬ is_link s parent_tag →
  Forall (λ h, h < length s ∧ attrs (tag_of s h) = attrs (tag_of s0 h))
    (real_elements headers) →
  create_toc headers parent_tag s = (res, s', logs) →
  match res with
  | inl x => x = IndexError
  | inr _ =>
      ∃ lis, toc_built [length s] parent_tag s s' ∧
             tag_of s' (length s) = mkTag (Some "ul") [] "" lis (Some parent_tag) ∧
             Forall2 (toc_item (S (length s)) s0 s') headers lis ∧
             logs = toc_record s0 <$> flat_map preorder headers
  end.
Proof.
  intros Hwf Hp Hname Hnl Hvalid Hrun. unfold create_toc in Hrun.
  rewrite bind_new_tag in Hrun.
  set (n := length s) in *. set (ul_tag := mkTag (Some "ul") [] "" [] None) in *.
  rewrite (bind_silent _ _ _ _ _ (append_relink parent_tag n (s ++ [ul_tag])
             ltac:(lia))) in Hrun.
  destruct (append_fresh s parent_tag ul_tag Hwf Hp Hname eq_refl eq_refl)
    as (Hwf2 & Hlen2 & Htag2).
  fold n in Hwf2, Hlen2, Htag2.
  set (s2 := relink false parent_tag n (s ++ [ul_tag])) in *.
  assert (toc_built [n] parent_tag s s2) as Hb2.
  { split; [done|]. split; [lia|]. split; [|split; [|split]].
    - intros r Hr. rewrite Htag2. case_decide; [by subst|].
      rewrite decide_False by lia. done.
    - intros r Hr Hne _. rewrite Htag2, decide_False, decide_False by (done || lia).
      done.
    - by apply Forall_singleton.
    - intros _. by rewrite Htag2, decide_True. }
  assert (∀ r, r < n → name (tag_of s2 r) = name (tag_of s r) ∧
                        attrs (tag_of s2 r) = attrs (tag_of s r)) as Hsame2.
  { intros r Hr. destruct Hb2 as (_ & _ & Hsame & _).
    destruct (Hsame r Hr) as (-> & -> & _). done. }
  pose proof (create_toc_items_built s0 headers n s2 res s' logs Hwf2 ltac:(lia))
    as Hitems.
  rewrite Htag2, decide_False, decide_True in Hitems by lia.
  assert (¬ movable s2 n) as Hnm2.
  { apply (not_movable s2 n parent_tag).
    - unfold is_link. by rewrite Htag2, decide_False, decide_True by lia.
    - by rewrite Htag2, decide_False, decide_True by lia.
    - unfold is_link in *. by destruct (Hsame2 parent_tag Hp) as [-> _]. }
  assert (Forall (λ h, h < length s2 ∧ attrs (tag_of s2 h) = attrs (tag_of s0 h))
            (real_elements headers)) as Hvalid2.
  { eapply Forall_impl; [exact Hvalid|]. simpl. intros h [Hh Hattrs].
    split; [lia|]. by destruct (Hsame2 h Hh) as [_ ->]. }
  specialize (Hitems eq_refl Hnm2 Hvalid2 Hrun).
  destruct res as [x|[]]; [done|].
  destruct Hitems as (lis & Hb & Hitems & ->).
  exists lis. split; [|split; [|split]].
  - apply (toc_built_nested [n] lis parent_tag n s s2 s'); [done|done|lia|done|done].
  - destruct Hb as (_ & _ & _ & _ & _ & ->); [|done].
    by rewrite Htag2, decide_False, decide_True by lia.
  - by rewrite Hlen2 in Hitems.
  - done.
Qed.

(** ** The page of the table of contents *)

Lemma included_valid options (s : Soup) start stop h :
  h ∈ real_elements (collected options s start stop) → h < length s.
Proof.
  unfold collected. rewrite real_elements_build_forest.
  intros Hh%included_from_subset. by eapply find_all_valid.
Qed.

Lemma bind_new_string {B} str (f : ref → M B) (s : Soup) :
  bind (new_string str) f s = f (length s) (s ++ [mkTag None [] str [] None]).
Proof. unfold bind, new_string. by destruct (f _ _) as [[? ?] ?]. Qed.

Lemma toc_page_store options (s : Soup) :
  wf_soup s →
  let toc := length s in
  ∃ s5 : Soup,
    (∀ B (k : ref → M B),
       (let* toc := new_tag "article" [("id", "doc-toc")] in
        let* title := new_tag "h1" [] in
        let* title_text := new_string (toc_title options) in
        let* _ := append title title_text in
        let* _ := append toc title in
        k toc) s = k toc s5) ∧
    wf_soup s5 ∧ length s5 = S (S (S toc)) ∧
    tag_of s5 toc = mkTag (Some "article") [("id", "doc-toc")] "" [S toc] None ∧
    tag_of s5 (S toc) = mkTag (Some "h1") [] "" [S (S toc)] (Some toc) ∧
    tag_of s5 (S (S toc)) = mkTag None [] (toc_title options) [] (Some (S toc)) ∧
    ∀ r, r < toc → tag_of s5 r = tag_of s r.
Proof.
  intros Hwf toc.
  set (article := mkTag (Some "article") [("id", "doc-toc")] "" [] None).
  set (h1 := mkTag (Some "h1") [] "" [] None).
  set (str := mkTag None [] (toc_title options) [] None).
  set (s2 := (s ++ [article]) ++ [h1]).
  assert (length (s ++ [article]) = S toc) as Hlen1.
  { rewrite length_app. simpl. unfold toc. lia. }
  assert (length s2 = S (S toc)) as Hlen2.
  { unfold s2. rewrite length_app, Hlen1. simpl. lia. }
  assert (wf_soup s2) as Hwf2.
  { unfold s2. apply wf_new_node; [|done|done]. by apply wf_new_node. }
  assert (tag_of s2 (S toc) = h1) as Etitle.
  { unfold s2. rewrite <-Hlen1. apply tag_of_app_new. }
  assert (tag_of s2 toc = article) as Etoc.
  { unfold s2. rewrite tag_of_app_l by lia. apply tag_of_app_new. }
  assert (∀ r, r < toc → tag_of s2 r = tag_of s r) as Eold.
  { intros r Hr. unfold s2. rewrite !tag_of_app_l; [done|done|lia]. }
  destruct (append_fresh s2 (S toc) str Hwf2) as (Hwf4 & Hlen4 & Htag4);
    [lia|by rewrite Etitle|done|done|].
  rewrite Hlen2 in Hwf4, Hlen4, Htag4.
  set (s4 := relink false (S toc) (S (S toc)) (s2 ++ [str])) in *.
  exists (relink false toc (S toc) s4).
  assert (tag_of s4 (S toc) = mkTag (Some "h1") [] "" [S (S toc)] None) as Etitle4.
  { by rewrite Htag4, decide_True, Etitle. }
  assert (tag_of s4 toc = article) as Etoc4.
  { by rewrite Htag4, decide_False, decide_False by lia. }
  split; [|split; [|split; [|split; [|split; [|split]]]]].
  - intros B k. rewrite !bind_new_tag. fold article h1. rewrite Hlen1.
    rewrite bind_new_string. fold str. fold s2. rewrite Hlen2.
    rewrite (bind_silent _ _ _ _ _ (append_relink (S toc) (S (S toc)) (s2 ++ [str])
               ltac:(lia))).
    fold s4.
    rewrite (bind_silent _ _ _ _ _ (append_relink toc (S toc) s4 ltac:(lia))).
    done.
  - apply wf_relink; [done|lia|lia|lia|by rewrite Etoc4].
  - by rewrite length_relink.
  - rewrite relink_orphan_tag, decide_True; [by rewrite Etoc4|done|..]; try lia.
    by rewrite Etitle4.
  - rewrite relink_orphan_tag, decide_False, decide_True; [by rewrite Etitle4|..];
      try (done || lia). by rewrite Etitle4.
  - rewrite relink_orphan_tag, decide_False, decide_False; [|try (done || lia)..].
    + by rewrite Htag4, decide_False, decide_True by lia.
    + by rewrite Etitle4.
  - intros r Hr.
    rewrite relink_orphan_tag, decide_False, decide_False; [|try (done || lia)..].
    + rewrite Htag4, decide_False, decide_False by lia. by apply Eold.
    + by rewrite Etitle4.
Qed.

Lemma find_all_named (s : Soup) nm h :
  h ∈ find_all_in s [nm] → name (tag_of s h) = Some nm.
Proof.
  unfold find_all_in. intros [Hname _]%list_elem_of_filter.
  unfold name_in in Hname. destruct (name (tag_of s h)) as [x|]; [|done].
  apply bool_decide_unpack, list_elem_of_singleton in Hname. by subst.
Qed.

Lemma soup_body_run (s : Soup) :
  soup_body s = (inr (head (find_all_in s ["body"])), s, []).
Proof. done. Qed.

Lemma generate_toc_built options (start_level stop_level : Z) (s : Soup) res
    (s' : Soup) logs :
  wf_soup s → window_ok start_level stop_level →
  generate_toc options start_level stop_level s = (res, s', logs) →
  let toc := length s in
  let headers := collected options s (Z.to_nat start_level) (Z.to_nat stop_level) in
  match res with
  | inl x => x = IndexError ∨ x = AttributeError
  | inr _ =>
  ∃ b lis,
    wf_soup s' ∧ S (S (S (S toc))) ≤ length s' ∧
    name (tag_of s' b) = Some "body" ∧
    head (contents (tag_of s' b)) = Some toc ∧
    tag_of s' toc =
      mkTag (Some "article") [("id", "doc-toc")] "" [S toc; S (S (S toc))] (Some b) ∧
    tag_of s' (S toc) = mkTag (Some "h1") [] "" [S (S toc)] (Some toc) ∧
    tag_of s' (S (S toc)) = mkTag None [] (toc_title options) [] (Some (S toc)) ∧
    tag_of s' (S (S (S toc))) = mkTag (Some "ul") [] "" lis (Some toc) ∧
    Forall2 (toc_item (S (S (S (S toc)))) s s') headers lis ∧
    (∀ r, r < toc → name (tag_of s' r) = name (tag_of s r) ∧
                     attrs (tag_of s' r) = attrs (tag_of s r) ∧
                     text (tag_of s' r) = text (tag_of s r)) ∧
    (∀ r, r < toc → r ≠ b → ¬ movable s r → tag_of s' r = tag_of s r) ∧
    logs = LogInfo ("Generate a table of contents from h"
                    +:+ pretty (start_level + 1)%Z +:+ " to h" +:+ pretty stop_level)
           :: exclusion_logs options s
                (find_all_in s (header_names (Z.to_nat start_level) (Z.to_nat stop_level)))
           ++ (toc_record s <$> flat_map preorder headers)
  end.
Proof.
  intros Hwf Hok Hrun toc headers. unfold generate_toc in Hrun.
  apply bind_inv in Hrun as [(x & [=] & _)|([] & s1 & l1 & l2 & Hlog & Hrun & ->)].
  injection Hlog as <- <-.
  apply bind_inv in Hrun as [(x & Hc & _)|(hs & s1 & l1 & l3 & Hc & Hrun & ->)].
  { by rewrite (collect_headers_spec _ _ _ _ Hok) in Hc. }
  rewrite (collect_headers_spec _ _ _ _ Hok) in Hc. injection Hc as <- <- <-.
  fold headers in Hrun.
  destruct (toc_page_store options s Hwf)
    as (s5 & Hk & Hwf5 & Hlen5 & Etoc5 & Etitle5 & Etext5 & Eold5).
  fold toc in Hlen5, Etoc5, Etitle5, Etext5, Eold5, Hk.
  rewrite Hk in Hrun. clear Hk.
  assert (¬ is_link s5 toc) as Hnl5.
  { unfold is_link. by rewrite Etoc5. }
  assert (Forall (λ h, h < length s5 ∧ attrs (tag_of s5 h) = attrs (tag_of s h))
            (real_elements headers)) as Hvalid5.
  { apply Forall_forall. intros h Hh%included_valid.
    split; [lia|]. by rewrite Eold5. }
  assert (name (tag_of s5 toc) ≠ None) as Hname5 by by rewrite Etoc5.
  apply bind_inv in Hrun as [(x & Hcreate & ->)|([] & s6 & l1 & l4 & Hcreate & Hrun & ->)].
  { left. exact (create_toc_built s headers toc s5 (inl x) s' _ Hwf5 ltac:(lia)
                   Hname5 Hnl5 Hvalid5 Hcreate). }
  destruct (create_toc_built s headers toc s5 (inr tt) s6 l1)
    as (lis & Hb & Eul6 & Hitems & ->); [done|lia|done|done|done|done|].
  rewrite Hlen5 in Hb, Eul6, Hitems.
  destruct Hb as (Hwf6 & Hlen6 & Hsame6 & Hframe6 & _ & Htoc6).
  rewrite bind_silent with (1 := soup_body_run s6) in Hrun.
  destruct (head (find_all_in s6 ["body"])) as [b|] eqn:Hbody;
    [|injection Hrun as <- <- <-; by right].
  apply head_elem_of, find_all_named in Hbody.
  assert (b < length s6) as Hb6 by by eapply named_valid.
  assert (¬ movable s5 toc) as Hnm5.
  { intros [Hl|(p & Hp & _)]; [unfold is_link in Hl|]; by rewrite Etoc5 in *. }
  specialize (Htoc6 Hnm5). rewrite Etoc5 in Htoc6. simpl in Htoc6.
  assert (b ≠ toc) as Hbt.
  { intros ->. by rewrite Htoc6 in Hbody. }
  rewrite insert_front_relink in Hrun by done. injection Hrun as <- <- <-.
  pose proof (relink_orphan_tag true b toc s6) as Htag.
  rewrite Htoc6 in Htag. simpl in Htag.
  specialize (λ r, Htag r eq_refl Hb6 ltac:(lia) ltac:(done)).
  set (s7 := relink true b toc s6) in *.
  assert (∀ r, name (tag_of s7 r) = name (tag_of s6 r) ∧
               attrs (tag_of s7 r) = attrs (tag_of s6 r) ∧
               text (tag_of s7 r) = text (tag_of s6 r)) as Hfields
    by apply relink_fields.
  assert (tag_of s6 (S toc) = tag_of s5 (S toc)) as Etitle6.
  { apply Hframe6; [lia|lia|]. apply (not_movable s5 (S toc) toc);
      unfold is_link; by rewrite ?Etitle5, ?Etoc5. }
  assert (tag_of s6 (S (S toc)) = tag_of s5 (S (S toc))) as Etext6.
  { apply Hframe6; [lia|lia|]. apply (not_movable s5 (S (S toc)) (S toc));
      unfold is_link; by rewrite ?Etitle5, ?Etext5. }
  assert (∀ r, r ≠ toc → name (tag_of s6 r) ≠ Some "body" → tag_of s7 r = tag_of s6 r)
    as Hkeep.
  { intros r Hr Hn. rewrite Htag, decide_False, decide_False; [done|done|].
    intros ->. done. }
  exists b, lis. split; [|split; [|split; [|split; [|split; [|split; [|split;
    [|split; [|split; [|split; [|split]]]]]]]]]].
  - apply wf_relink; [done|done|lia|done|by rewrite Hbody].
  - unfold s7. rewrite length_relink.
    apply (named_valid s6 _ "ul"). by rewrite Eul6.
  - by destruct (Hfields b) as (-> & _).
  - by rewrite Htag, decide_True.
  - by rewrite Htag, decide_False, decide_True.
  - rewrite Hkeep, Etitle6; [done|lia|by rewrite Etitle6, Etitle5].
  - rewrite Hkeep, Etext6; [done|lia|by rewrite Etext6, Etext5].
  - rewrite Hkeep, Eul6; [done|lia|by rewrite Eul6].
  - assert (Forall2 (λ t li, toc_item (S (S (S (S toc)))) s s6 t li ∧ li ∈ lis)
              headers lis) as Hitems'.
    { apply Forall2_same_length_lookup. split; [by eapply Forall2_length|].
      intros i t li Ht Hli. split; [|by eapply list_elem_of_lookup_2].
      exact (Forall2_lookup_lr _ _ _ _ _ _ Hitems Ht Hli). }
    eapply Forall2_impl; [exact Hitems'|].
    + simpl. intros t li [Hitem Hli].
      apply (toc_item_frame _ s s6 s7 t Hwf6); [by intros r _| | |done].
      * intros r Hr _ Hn _. apply Hkeep; [|intros E; destruct Hn; congruence].
        intros ->. rewrite Htoc6 in Hn. simpl in Hn. by destruct Hn.
      * apply (not_movable s6 li (S (S (S toc)))).
        -- unfold is_link. destruct t. apply toc_item_eq in Hitem.
           destruct Hitem as (_ & -> & _). done.
        -- eapply (wf_child s6 _ li Hwf6). by rewrite Eul6.
        -- unfold is_link. by rewrite Eul6.
  - intros r Hr. destruct (Hfields r) as (-> & -> & ->).
    destruct (Hsame6 r ltac:(lia)) as (-> & -> & ->). by rewrite Eold5.
  - intros r Hr Hne Hnm.
    rewrite Htag, decide_False, decide_False by (done || lia).
    rewrite Hframe6, Eold5; [done|done|lia|lia|].
    intros Hm. apply Hnm. apply (movable_same s s5); try done.
    + intros x Hx. by rewrite Eold5.
    + by rewrite Eold5.
  - by rewrite app_nil_r.
Qed.

(** ** Order injection keeps the document well formed *)

Lemma inject_number_wf (s : Soup) h label :
  wf_soup s → h < length s → name (tag_of s h) ≠ None →
  wf_soup (soup_of (inject_number label (Some h) s)).
Proof.
  intros Hwf Hh Hname. unfold inject_number.
  rewrite bind_get_tag, bind_log_run. unfold soup_of at 1. simpl.
  rewrite bind_new_tag. unfold append_str. rewrite bind_assoc_run, bind_new_string.
  set (span := mkTag (Some "span") [("class", "pdf-order")] "" [] None).
  set (str := mkTag None [] (label +:+ " ") [] None).
  assert (length (s ++ [span]) = S (length s)) as Hlen.
  { rewrite length_app. simpl. lia. }
  rewrite Hlen.
  rewrite (bind_silent _ _ _ _ _
             (append_relink (length s) (S (length s)) ((s ++ [span]) ++ [str])
                ltac:(lia))).
  destruct (append_fresh (s ++ [span]) (length s) str) as (Hwf3 & Hlen3 & Htag3);
    [by apply wf_new_node|lia|by rewrite tag_of_app_new|done|done|].
  rewrite Hlen in Hwf3, Hlen3, Htag3.
  rewrite insert_front_relink by lia. unfold soup_of. simpl.
  apply wf_relink; [done|lia|lia|lia|].
  rewrite Htag3, decide_False, decide_False by lia. by rewrite tag_of_app_l.
Qed.

Lemma inject_labels_wf (l : list (option ref * string)) :
  ∀ s : Soup,
  wf_soup s →
  (∀ h, h ∈ omap fst l → h < length s ∧ name (tag_of s h) ≠ None) →
  wf_soup (soup_of (for_each inject_label l s)).
Proof.
  induction l as [|[[h|] label] l IH]; intros s Hwf Hv.
  - done.
  - destruct (Hv h ltac:(left)) as [Hh Hname].
    pose proof (inject_number_run s h label Hh) as Hrun.
    pose proof (inject_number_wf s h label Hwf Hh Hname) as Hwf1.
    rewrite Hrun in Hwf1. unfold soup_of in Hwf1. simpl in Hwf1.
    set (s1 := alter (λ t, with_contents (length s :: contents t) t) h
                 (s ++ order_span label h (length s))) in *.
    change (for_each inject_label ((Some h, label) :: l) s)
      with (bind (inject_number label (Some h)) (λ _, for_each inject_label l) s).
    unfold bind. rewrite Hrun.
    specialize (IH s1 Hwf1).
    destruct (for_each inject_label l s1) as [[r s2] l2]. apply IH.
    intros h' Hin. destruct (Hv h' ltac:(by right)) as [Hh' Hname'].
    split.
    + unfold s1. rewrite length_alter, length_app. lia.
    + unfold s1. rewrite tag_of_alter_case. case_decide as Hc.
      * destruct Hc as [-> _]. simpl. by rewrite tag_of_app_l.
      * by rewrite tag_of_app_l.
  - change (for_each inject_label ((None, label) :: l) s)
      with (bind (inject_number label None) (λ _, for_each inject_label l) s).
    unfold inject_number. rewrite bind_log_run. unfold soup_of at 1. simpl.
    apply IH; [done|]. intros h Hin. by apply Hv.
Qed.

Lemma number_headers_wf options (start_level stop_level : Z) (s : Soup) :
  window_ok start_level stop_level → wf_soup s →
  wf_soup (soup_of (number_headers options start_level stop_level s)).
Proof.
  intros Hok Hwf.
  pose proof (collect_headers_spec options start_level stop_level s Hok) as Hcollect.
  set (start := Z.to_nat start_level) in *. set (stop := Z.to_nat stop_level) in *.
  set (forest := collected options s start stop) in *.
  assert (forest_height forest ≤ 6) as Hheight.
  { apply (collect_headers_height options start_level stop_level s).
    by rewrite Hcollect. }
  unfold number_headers. rewrite bind_log_run. unfold soup_of at 1. simpl.
  unfold bind. rewrite Hcollect.
  rewrite inject_order_labels by done.
  pose proof (inject_labels_wf (label_forest forest) s Hwf) as H.
  destruct (for_each inject_label (label_forest forest) s) as [[r s2] l2].
  apply H. intros h Hin. rewrite label_forest_elements in Hin.
  unfold forest, collected in Hin. rewrite real_elements_build_forest in Hin.
  apply included_from_subset in Hin. split; [by eapply find_all_valid|].
  apply find_all_headings in Hin as (_ & i & _ & ->). done.
Qed.

Lemma inject_heading_order_wf options (s : Soup) :
  wf_soup s → wf_soup (soup_of (_inject_heading_order options s)).
Proof.
  intros Hwf. rewrite inject_heading_order_eq. cbv zeta.
  case_decide as Hle; [done|].
  pose proof (clamped_window_ok options (ordered_chapter_level options) Hle) as Hok.
  case_decide as Hgt.
  - rewrite bind_assoc_run, bind_log_run, bind_ret_run. unfold soup_of at 1. simpl.
    by apply number_headers_wf.
  - rewrite bind_ret_run. by apply number_headers_wf.
Qed.

(** ** [make_indexes] as a whole *)

Lemma inject_heading_order_returns options (s : Soup) :
  result_of (_inject_heading_order options s) = inr tt.
Proof.
  rewrite inject_heading_order_eq. cbv zeta.
  case_decide as Hle; [done|].
  pose proof (clamped_window_ok options (ordered_chapter_level options) Hle) as Hok.
  destruct (number_headers_total options _ _ s Hok) as (s' & logs & Hrun & _).
  case_decide as Hgt.
  - by rewrite bind_assoc_run, bind_log_run, bind_ret_run, Hrun.
  - by rewrite bind_ret_run, Hrun.
Qed.

Lemma make_indexes_runs options (s : Soup) res (s' : Soup) logs :
  ¬ (toc_level options ≤ start_level_of options)%Z →
  make_indexes options s = (res, s', logs) →
  ∃ l2,
    generate_toc options (start_level_of options)
      (if decide (toc_level options > _MAX_HEADER_LEVEL)%Z
       then _MAX_HEADER_LEVEL else toc_level options)
      (soup_of (_inject_heading_order options s)) = (res, s', l2).
Proof.
  intros Hgt Hrun. rewrite make_indexes_eq in Hrun.
  pose proof (inject_heading_order_returns options s) as Hret.
  apply bind_inv in Hrun as [(x & Hinj & _)|([] & s1 & l1 & l2 & Hinj & Hrun & ->)].
  { rewrite Hinj in Hret. discriminate Hret. }
  rewrite Hinj. unfold soup_of. simpl. cbv zeta in Hrun.
  rewrite decide_False in Hrun by done.
  case_decide as Hmax.
  - rewrite bind_assoc_run, bind_log_run, bind_ret_run in Hrun.
    destruct (generate_toc options (start_level_of options) _MAX_HEADER_LEVEL s1)
      as [[r2 s2] l3].
    unfold result_of, soup_of, logs_of in Hrun. simpl in Hrun.
    injection Hrun as <- <- <-. by exists l3.
  - rewrite bind_ret_run in Hrun. by exists l2.
Qed.

(** ** Depths in the forest of the collector *)

Lemma forest_depths_app d forest1 forest2 :
  forest_depths d (forest1 ++ forest2) = forest_depths d forest1 ++ forest_depths d forest2.
Proof. unfold forest_depths. by rewrite flat_map_app. Qed.

Lemma forest_depths_node d e subs :
  forest_depths d [HeaderTree e subs] =
  match e with Some h => [(h, d)] | None => [] end ++ forest_depths (S d) subs.
Proof. unfold forest_depths. simpl. by rewrite app_nil_r. Qed.

Lemma forest_depths_attach h d :
  ∀ k forest, forest_depths k (attach d (HeaderTree (Some h) []) forest)
              = forest_depths k forest ++ [(h, k + d)].
Proof.
  induction d as [|d IH]; intros k forest.
  - simpl. rewrite forest_depths_app, forest_depths_node. simpl.
    by rewrite Nat.add_0_r.
  - destruct forest as [|t0 forest0 _] using rev_ind.
    + change (attach (S d) (HeaderTree (Some h) []) [])
        with [HeaderTree None (attach d (HeaderTree (Some h) []) [])].
      rewrite forest_depths_node. simpl. rewrite IH. simpl.
      by rewrite Nat.add_succ_r.
    + change (attach (S d) ?node (forest0 ++ [t0]))
        with (on_last (λ t, HeaderTree (element t) (attach d node (subheaders t)))
                [HeaderTree None (attach d node [])] (forest0 ++ [t0])).
      rewrite on_last_snoc, !forest_depths_app.
      destruct t0 as [e0 subs]. cbn [element subheaders].
      rewrite !forest_depths_node, IH.
      rewrite Nat.add_succ_r. cbn [Nat.add]. by rewrite !app_assoc.
Qed.

Lemma forest_depths_build_forest start lvl hs :
  forest_depths 0 (build_forest start lvl hs) = (λ h, (h, lvl h - start)) <$> hs.
Proof.
  unfold build_forest.
  assert (∀ forest,
    forest_depths 0
      (foldl (λ forest h, attach (lvl h - start) (HeaderTree (Some h) []) forest)
         forest hs) = forest_depths 0 forest ++ ((λ h, (h, lvl h - start)) <$> hs)) as H.
  { induction hs as [|h hs IH]; intros forest; simpl.
    - by rewrite app_nil_r.
    - rewrite IH, forest_depths_attach. by rewrite <-app_assoc. }
  by rewrite H.
Qed.

(** ** Document order lists an element once *)

Lemma ancestor_add (s : Soup) j k x :
  ancestor s (j + k) x = ancestor s j x ≫= ancestor s k.
Proof.
  revert x. induction j as [|j IH]; intros x; [done|]. simpl.
  destruct (parent (tag_of s x)) as [p|]; [apply IH|done].
Qed.

Lemma ancestor_child (s : Soup) r c k :
  wf_soup s → c ∈ contents (tag_of s r) → ancestor s (S k) c = ancestor s k r.
Proof. intros Hwf Hc. simpl. by destruct (wf_child s r c Hwf Hc) as [_ ->]. Qed.

Lemma descendants_ancestor (s : Soup) fuel :
  wf_soup s →
  ∀ r x, x ∈ descendants fuel s r → ∃ k, ancestor s (S k) x = Some r.
Proof.
  intros Hwf. induction fuel as [|fuel IH]; intros r x Hx; simpl in Hx.
  - by apply elem_of_nil in Hx.
  - apply list_elem_of_In, in_flat_map in Hx as (c & Hc%list_elem_of_In & Hx).
    apply list_elem_of_In, elem_of_cons in Hx as [->|Hx].
    + exists 0. by rewrite (ancestor_child s r c 0).
    + destruct (IH c x Hx) as (k & Hk). exists (S k).
      replace (S (S k)) with (S k + 1) by lia.
      rewrite ancestor_add, Hk. change (ancestor s 1 c = Some r).
      by rewrite (ancestor_child s r c 0).
Qed.

Lemma ancestor_no_cycle (s : Soup) m k r :
  parent (tag_of s soup_root) = None →
  ancestor s m r = Some soup_root → ancestor s (S k) r ≠ Some r.
Proof.
  intros Hroot Hm Hk.
  assert (ancestor s (S k + m) r = Some soup_root) as H1.
  { by rewrite ancestor_add, Hk. }
  assert (ancestor s (m + S k) r = None) as H2.
  { rewrite ancestor_add, Hm. simpl. by rewrite Hroot. }
  rewrite Nat.add_comm, H2 in H1. done.
Qed.

Lemma NoDup_flat_map_pieces {A B} (F : A → list B) (l : list A) :
  NoDup l → (∀ a, a ∈ l → NoDup (F a)) →
  (∀ a b x, a ∈ l → b ∈ l → x ∈ F a → x ∈ F b → a = b) →
  NoDup (flat_map F l).
Proof.
  induction l as [|a l IH]; intros Hnd Hpiece Hdisj; simpl; [constructor|].
  apply NoDup_cons in Hnd as [Hnotin Hnd].
  apply NoDup_app. split; [apply Hpiece; left|]. split.
  - intros x Hxa Hxl.
    apply list_elem_of_In, in_flat_map in Hxl as (b & Hb%list_elem_of_In & Hxb).
    apply list_elem_of_In in Hxb.
    assert (a = b) as -> by (apply (Hdisj a b x); [left|by right|done|done]).
    done.
  - apply IH; [done|intros; apply Hpiece; by right|].
    intros a' b' x Ha' Hb'. apply Hdisj; by right.
Qed.

Lemma NoDup_descendants (s : Soup) :
  wf_soup s → parent (tag_of s soup_root) = None →
  ∀ fuel r m, ancestor s m r = Some soup_root → NoDup (descendants fuel s r).
Proof.
  intros Hwf Hroot. induction fuel as [|fuel IH]; intros r m Hm; simpl; [constructor|].
  assert (∀ c, c ∈ contents (tag_of s r) → ancestor s (S m) c = Some soup_root) as Hreach.
  { intros c Hc. by rewrite (ancestor_child s r c m). }
  assert (∀ c x, c ∈ contents (tag_of s r) → x ∈ c :: descendants fuel s c →
            ∃ k, ancestor s k x = Some c) as Hup.
  { intros c x Hc [->|Hx]%elem_of_cons; [by exists 0|].
    destruct (descendants_ancestor s fuel Hwf c x Hx) as (k & Hk). by exists (S k). }
  assert (∀ c1 c2 d, c1 ∈ contents (tag_of s r) → c2 ∈ contents (tag_of s r) →
            ancestor s (S d) c1 = Some c2 → False) as Hcross.
  { intros c1 c2 d Hc1 Hc2 Hd.
    rewrite (ancestor_child s r c1 d Hwf Hc1) in Hd.
    apply (ancestor_no_cycle s m d r Hroot Hm).
    replace (S d) with (d + 1) by lia.
    rewrite ancestor_add, Hd. change (ancestor s 1 c2 = Some r).
    by rewrite (ancestor_child s r c2 0). }
  apply NoDup_flat_map_pieces; [by apply wf_NoDup| |].
  - intros c Hc. apply NoDup_cons. split; [|by apply (IH c (S m)), Hreach].
    intros Hin. destruct (descendants_ancestor s fuel Hwf c c Hin) as (k & Hk).
    by apply (ancestor_no_cycle s (S m) k c Hroot (Hreach c Hc)).
  - intros c1 c2 x Hc1 Hc2 Hx1 Hx2.
    destruct (Hup c1 x Hc1 Hx1) as (k1 & Hk1).
    destruct (Hup c2 x Hc2 Hx2) as (k2 & Hk2).
    destruct (Nat.lt_trichotomy k1 k2) as [Hlt|[->|Hlt]].
    + exfalso. apply (Hcross c1 c2 (k2 - k1 - 1) Hc1 Hc2).
      replace k2 with (k1 + S (k2 - k1 - 1)) in Hk2 by lia.
      by rewrite ancestor_add, Hk1 in Hk2.
    + congruence.
    + exfalso. apply (Hcross c2 c1 (k1 - k2 - 1) Hc2 Hc1).
      replace k1 with (k2 + S (k1 - k2 - 1)) in Hk1 by lia.
      by rewrite ancestor_add, Hk2 in Hk1.
Qed.

Lemma NoDup_find_all (s : Soup) names :
  wf_soup s → parent (tag_of s soup_root) = None → NoDup (find_all_in s names).
Proof.
  intros Hwf Hroot. unfold find_all_in. apply NoDup_filter.
  by apply (NoDup_descendants s Hwf Hroot (length s) soup_root 0).
Qed.

(** * The claims *)

(** C8. Header collection is read-only and deterministic: a call of
    [_collect_headers] leaves the document as it found it, and a second
    call with the same window and options on the document the first call
    left behind returns the same forest (same shape, same placeholders,
    same element references) or raises the same exception. *)
Theorem collect_headers_pure options start_level stop_level (s : Soup) :
  let first := _collect_headers options start_level stop_level s in
  let second := _collect_headers options start_level stop_level (soup_of first) in
  soup_of first = s ∧ soup_of second = s ∧ result_of second = result_of first.
Proof.
  intros first second. subst first second.
  pose proof (readonly_collect_headers options start_level stop_level s) as E.
  rewrite !E. done.
Qed.

(** C6. The window invariant [0 <= start_level < stop_level <= 6] holds
    whenever [make_indexes] or [_inject_heading_order] reaches
    [_collect_headers].  The two assertions that open [_collect_headers]
    pass exactly when the invariant holds, and neither entry point ever
    ends with one of them failing, whatever integers the options hold:
    both call sites return when [stop_level <= start_level] and clamp
    [stop_level] to 6 before the call. *)
Theorem window_invariant_at_entry options (s : Soup) :
  (∀ start_level stop_level,
     window_ok start_level stop_level ↔
     ∀ e, result_of (_collect_headers options start_level stop_level s) = inl e →
          ¬ window_assertion e) ∧
  (∀ e, result_of (make_indexes options s) = inl e → ¬ window_assertion e) ∧
  (∀ e, result_of (_inject_heading_order options s) = inl e → ¬ window_assertion e).
Proof.
  split; [|split].
  - intros start_level stop_level. split.
    + intros Hok e. by apply raises_collect_headers.
    + intros Hraise.
      destruct (decide (window_ok start_level stop_level)) as [|Hbad]; [done|].
      destruct (collect_headers_bad_window options start_level stop_level s Hbad)
        as (e & He & Hrun).
      by destruct (Hraise e Hrun).
  - intros e. apply raises_make_indexes.
  - intros e. apply raises_inject_heading_order.
Qed.

Lemma window_invariant_at_entry_witness : ¬ window_assertion IndexError.
Proof.
  apply (proj1 (proj2 (window_invariant_at_entry default_options doc_empty_link))).
  vm_compute. reflexivity.
Defined.

(** C4. A stop level that does not exceed the start level disables the
    feature: [_inject_heading_order] returns at once, leaving the
    document and the log alone, and [make_indexes] ends as its first step
    left things, so no container is inserted and the body is unchanged
    by the TOC stage.  A stop level above 6 makes the pass run exactly as
    with 6 (same result, same document, same log records) after one
    warning. *)
Theorem window_disabled_or_clamped options (s : Soup) :
  ((ordered_chapter_level options ≤ start_level_of options)%Z →
     _inject_heading_order options s = (inr tt, s, [])) ∧
  ((toc_level options ≤ start_level_of options)%Z →
     make_indexes options s = _inject_heading_order options s) ∧
  ((ordered_chapter_level options > _MAX_HEADER_LEVEL)%Z →
     let clamped :=
       _inject_heading_order (with_ordered_chapter_level _MAX_HEADER_LEVEL options) s in
     _inject_heading_order options s =
       (result_of clamped, soup_of clamped,
        ordered_chapter_level_warning (ordered_chapter_level options)
        :: logs_of clamped)) ∧
  ((toc_level options > _MAX_HEADER_LEVEL)%Z →
     ∀ s1 l1, _inject_heading_order options s = (inr tt, s1, l1) →
     ∃ r s2 l2,
       make_indexes (with_toc_level _MAX_HEADER_LEVEL options) s = (r, s2, l1 ++ l2) ∧
       make_indexes options s =
         (r, s2, l1 ++ toc_level_warning (toc_level options) :: l2)).
Proof.
  split; [apply inject_heading_order_disabled|].
  split; [apply make_indexes_disabled|].
  split; [apply inject_heading_order_clamped|].
  intros Hgt s1 l1 Hrun.
  destruct (make_indexes_clamped options s s1 l1 Hgt Hrun) as (r & s2 & l2 & _ & H6 & H).
  by exists r, s2, l2.
Qed.

Lemma window_disabled_or_clamped_witness :
  ∃ r s2 l2,
    make_indexes (with_toc_level _MAX_HEADER_LEVEL (with_toc_level 9 default_options))
      doc_intro = (r, s2, [LogInfo "Number headers from h1 to h6";
                           LogDebugOrder "1" 2 "intro";
                           LogDebugOrder "1.1" 4 "more"] ++ l2) ∧
    make_indexes (with_toc_level 9 default_options) doc_intro =
      (r, s2, [LogInfo "Number headers from h1 to h6";
               LogDebugOrder "1" 2 "intro";
               LogDebugOrder "1.1" 4 "more"]
              ++ toc_level_warning 9 :: l2).
Proof.
  eapply (proj2 (proj2 (proj2
            (window_disabled_or_clamped (with_toc_level 9 default_options) doc_intro)))).
  - reflexivity.
  - vm_compute. reflexivity.
Defined.

(** C10. [make_indexes] is not total.  Whenever the first fragment of a
    heading is an [a] element without children, [make_link] raises
    [IndexError] at [el.contents[0]]; and there is a well-formed document
    with such a heading inside the TOC window on which [make_indexes]
    ends with that exception. *)
Theorem make_indexes_not_total :
  (∀ (s : Soup) h el rest,
     contents (tag_of s h) = el :: rest →
     name (tag_of s el) = Some "a" →
     contents (tag_of s el) = [] →
     result_of (make_link h s) = inl IndexError) ∧
  (∃ (s : Soup) options h el,
     wf_soup s ∧
     h ∈ find_all_in s (header_names 0 6) ∧
     el ∈ contents (tag_of s h) ∧
     name (tag_of s el) = Some "a" ∧
     contents (tag_of s el) = [] ∧
     result_of (_inject_heading_order options s) = inr tt ∧
     result_of (make_indexes options s) = inl IndexError).
Proof.
  split; [apply make_link_empty_link|].
  exists doc_empty_link, default_options, 2, 3.
  split; [by apply (bool_decide_unpack _); vm_compute|].
  split; [by apply (bool_decide_unpack _); vm_compute|].
  split; [by apply (bool_decide_unpack _); vm_compute|].
  by vm_compute.
Qed.

Lemma make_indexes_not_total_witness :
  result_of (make_link 2 doc_empty_link) = inl IndexError.
Proof.
  apply (proj1 make_indexes_not_total doc_empty_link 2 3 [4]); reflexivity.
Defined.

(** C1, amended.  For a window that passes the assertions,
    [_collect_headers] returns the forest that is built from the kept
    headings alone, the headings of the window in document order less
    those that have an excluded structural ancestor: each kept heading
    is hung [level - start_level] levels down the last branch, with
    placeholders for the levels it skips, and nothing else is in the
    forest.  A heading with an excluded ancestor therefore has no node
    of any kind, real or placeholder, and the real nodes, read in
    pre-order, are the kept headings in document order.  In a tree
    document (well formed, the root without a parent) [find_all] lists
    no heading twice, so that a kept heading has exactly one real node.
    A heading whose own id is in the exclude set is kept as long as no
    ancestor of it is excluded; only what is nested under it is
    omitted.  So for headings [a > b > c] with [b] excluded, the forest
    is [a] with the single child [b], and [c] is absent. *)
Theorem collect_headers_exclusion options (start_level stop_level : Z) (s : Soup) :
  window_ok start_level stop_level →
  let start := Z.to_nat start_level in
  let stop := Z.to_nat stop_level in
  let hs := find_all_in s (header_names start stop) in
  let lvl := level_in s in
  let exc := excluded_in options s in
  let kept := included_from lvl exc [] hs in
  (∀ h, h ∈ hs ↔
        h ∈ descendants (length s) s soup_root ∧
        ∃ i, start ≤ i < stop ∧ name (tag_of s h) = Some ("h" +:+ pretty (i + 1))) ∧
  (wf_soup s → parent (tag_of s soup_root) = None → NoDup hs ∧ NoDup kept) ∧
  (result_of (_collect_headers options start_level stop_level s)
     = inr (build_forest start lvl kept) ∧
   real_elements (build_forest start lvl kept) = kept) ∧
  (∀ before h after, hs = before ++ h :: after →
     kept =
       included_from lvl exc [] before
       ++ (if under_excluded lvl exc (reverse before) (lvl h) then [] else [h])
       ++ included_from lvl exc (h :: reverse before) after) ∧
  (∀ a b c, hs = [a; b; c] →
     lvl a = start → lvl b = start + 1 → lvl c = start + 2 →
     exc a = false → exc b = true →
     result_of (_collect_headers options start_level stop_level s)
       = inr [HeaderTree (Some a) [HeaderTree (Some b) []]]).
Proof.
  intros Hok start stop hs lvl exc kept.
  pose proof (collect_headers_spec options start_level stop_level s Hok) as Hrun.
  fold start stop hs in Hrun.
  split; [intros h; apply find_all_headings|].
  split; [|split; [|split]].
  - intros Hwf Hroot.
    assert (NoDup hs) as Hnd by by apply NoDup_find_all.
    split; [done|].
    apply (sublist_NoDup _ hs Hnd), included_from_sublist.
  - split; [by rewrite Hrun|]. apply real_elements_build_forest.
  - intros before h after Hhs. unfold kept. rewrite Hhs.
    rewrite included_from_app. simpl. by rewrite app_nil_r.
  - intros a b c Hhs Ha Hb Hc Hexa Hexb. rewrite Hrun. unfold result_of.
    cbn [fst]. f_equal. unfold collected. fold hs lvl exc. rewrite Hhs.
    by apply build_forest_nested.
Qed.

Lemma collect_headers_exclusion_witness :
  (NoDup [2; 4; 6] ∧ NoDup [2; 4]) ∧
  result_of (_collect_headers options_exclude_B 0 6 doc_abc)
    = inr [HeaderTree (Some 2) [HeaderTree (Some 4) []]] ∧
  real_elements [HeaderTree (Some 2) [HeaderTree (Some 4) []]] = [2; 4].
Proof.
  destruct (collect_headers_exclusion options_exclude_B 0 6 doc_abc
              ltac:(unfold window_ok, _MAX_HEADER_LEVEL; lia))
    as (_ & Honce & Hforest & _).
  split; [|exact Hforest].
  apply Honce; [by apply (bool_decide_unpack _); vm_compute|reflexivity].
Defined.

(** C1, as stated, fails on [h1(id=A) > h2(id=B) > h3(id=C)] with [B]
    excluded: the heading [B] has a real node in the forest, and the
    children of [A] are not empty. *)
Lemma excluded_heading_is_collected :
  attrs_get "id" (attrs (tag_of doc_abc 4)) = Some "B" ∧
  "B" ∈ excludes_children options_exclude_B ∧
  result_of (_collect_headers options_exclude_B 0 6 doc_abc)
    = inr [HeaderTree (Some 2) [HeaderTree (Some 4) []]].
Proof.
  split; [done|]. split; [by apply (bool_decide_unpack _); vm_compute|].
  by vm_compute.
Qed.

(** C2. Skipped levels are filled with placeholders.  Take the loop of
    [_collect_headers] at a heading [h] that is collected (none of its
    ancestors is excluded), of a level above [start_level], when
    [header_levels] has nothing at the level above [h].  Then the unset
    levels below [h] are those from some level [first] on, and this turn
    of the loop makes one placeholder (a node whose element is [None])
    for each of them: the placeholder of [first] becomes a child of the
    node of level [first - 1], or a top header when [first] is
    [start_level], each placeholder has the node of the next level as its
    only child, and the last one has the node of [h].  In the forest this
    is one chain of placeholders that ends in [h].  In particular, when
    the headings of the window [0, 6) are one of level 0 and then one of
    level 3, the forest is the first heading with exactly two
    placeholders, of levels 1 and 2, in a single chain down to the
    second heading. *)
Theorem skipped_levels_backfilled :
  (∀ options start_level stop_level (s : Soup) before h after cs,
     start_level < stop_level ≤ 6 →
     find_all_in s (header_names start_level stop_level) = before ++ h :: after →
     result_of (collect_loop options start_level stop_level before s) = inr cs →
     under_excluded (level_in s) (excluded_in options s) (reverse before) (level_in s h)
       = false →
     start_level < level_in s h →
     header_levels cs !! (level_in s h - 1) = Some None →
     backfill_step options start_level stop_level s h cs) ∧
  (∀ options (s : Soup) a b,
     find_all_in s (header_names 0 6) = [a; b] →
     level_in s a = 0 → level_in s b = 3 →
     excluded_in options s a = false →
     result_of (_collect_headers options 0 6 s) =
       inr [HeaderTree (Some a)
              [HeaderTree None [HeaderTree None [HeaderTree (Some b) []]]]]).
Proof.
  split.
  - intros options start_level stop_level s before h after cs.
    apply backfill_step_reachable.
  - intros options s a b Hhs Ha Hb Hexa.
    rewrite (collect_headers_spec options 0 6 s)
      by (unfold window_ok, _MAX_HEADER_LEVEL; lia).
    unfold result_of. cbn [fst]. f_equal. unfold collected.
    change (Z.to_nat 0) with 0. change (Z.to_nat 6) with 6. rewrite Hhs.
    by apply build_forest_skip.
Qed.

Lemma skipped_levels_backfilled_witness :
  backfill_step default_options 0 6 doc_skip 4
    (CollectState [HeaderObj (Some 2) []] [0]
       [Some 0; None; None; None; None; None]
       [false; false; false; false; false; false]) ∧
  result_of (_collect_headers default_options 0 6 doc_skip) =
    inr [HeaderTree (Some 2)
           [HeaderTree None [HeaderTree None [HeaderTree (Some 4) []]]]].
Proof.
  split.
  - apply (proj1 skipped_levels_backfilled default_options 0 6 doc_skip [2] 4 []).
    + lia.
    + vm_compute. reflexivity.
    + vm_compute. reflexivity.
    + vm_compute. reflexivity.
    + vm_compute. lia.
    + vm_compute. reflexivity.
  - apply (proj2 skipped_levels_backfilled default_options doc_skip 2 4).
    + vm_compute. reflexivity.
    + vm_compute. reflexivity.
    + vm_compute. reflexivity.
    + vm_compute. reflexivity.
Defined.

(** C3. Order injection labels the nodes of a forest in depth-first
    pre-order: [inject_order] does, node after node, what [inject_label]
    does along [label_forest], where a top-level node has its 1-based
    index for label and any other node its parent's label, a dot, and its
    1-based index among its siblings.  For a real node the heading gets a
    new first child, a [span] of class [pdf-order] that holds the label
    followed by a space; the rest of the heading and every other element
    of the document are left as they were.  The second child of the first
    top-level node has the label "1.2".  The forest must be at most
    [_MAX_HEADER_LEVEL] levels deep for the assertion of [inject_order]
    to pass, which every forest that [_collect_headers] returns is. *)
Theorem order_injection_labels :
  (∀ forest (s : Soup),
     forest_height forest ≤ 6 →
     inject_order forest [] s = for_each inject_label (label_forest forest) s) ∧
  (∀ forest (s : Soup),
     forest_height forest ≤ 6 →
     NoDup (real_elements forest) →
     (∀ h, h ∈ real_elements forest → h < length s) →
     ∃ (s' : Soup) logs,
       inject_order forest [] s = (inr tt, s', logs) ∧
       (∀ r, r < length s → r ∉ real_elements forest → tag_of s' r = tag_of s r) ∧
       (∀ h label, (Some h, label) ∈ label_forest forest →
          ∃ span, length s ≤ span ∧
            tag_of s' h = with_contents (span :: contents (tag_of s h)) (tag_of s h) ∧
            [tag_of s' span; tag_of s' (S span)] = order_span label h span)) ∧
  (∀ e first e2 subs2 others rest,
     ∃ tail,
       label_forest (HeaderTree e (first :: HeaderTree e2 subs2 :: others) :: rest) =
       (e, "1") :: label_tree "1.1" first ++ (e2, "1.2") :: tail) ∧
  (∀ options start_level stop_level (s : Soup) forest,
     result_of (_collect_headers options start_level stop_level s) = inr forest →
     forest_height forest ≤ 6).
Proof.
  split; [intros forest s Hh; by apply inject_order_labels|].
  split; [|split; [exact label_forest_second_child|exact collect_headers_height]].
  intros forest s Hh Hnd Hv.
  rewrite <-label_forest_elements in Hnd.
  destruct (inject_labels_spec (label_forest forest) s Hnd)
    as (s' & logs & Hrun & _ & Hframe & Hspans).
  { intros h Hin. apply Hv. by rewrite <-label_forest_elements. }
  exists s', logs. split; [by rewrite inject_order_labels|].
  split; [|exact Hspans].
  intros r Hr Hnot. apply Hframe; [done|]. by rewrite label_forest_elements.
Qed.

Lemma order_injection_labels_witness :
  inject_order [HeaderTree (Some 2) [HeaderTree (Some 4) []; HeaderTree (Some 6) []]] []
    doc_abc
  = for_each inject_label [(Some 2, "1"); (Some 4, "1.1"); (Some 6, "1.2")] doc_abc.
Proof.
  apply (proj1 order_injection_labels
           [HeaderTree (Some 2) [HeaderTree (Some 4) []; HeaderTree (Some 6) []]] doc_abc).
  vm_compute. lia.
Defined.

(** * Further properties of the code *)

(** X1. [_set_list_elements(l, value, start, end)] overwrites the
    positions from [start] up to, not including, [end] (the length of
    the list when [end] is omitted) and nothing else; with an empty
    range it returns the list as it is, even when [start] lies past the
    end of the list; when the range is not empty and reaches past the
    end of the list it raises [IndexError]. *)
Theorem set_list_elements_spec {A} (l : list A) (value : A) (start : nat)
    (end_ : option nat) (s : Soup) :
  let stop := default (length l) end_ in
  (start ≤ stop → stop ≤ length l →
     _set_list_elements l value start end_ s =
       (inr (take start l ++ replicate (stop - start) value ++ drop stop l), s, [])) ∧
  (stop ≤ start → _set_list_elements l value start end_ s = (inr l, s, [])) ∧
  (start < stop → length l < stop →
     result_of (_set_list_elements l value start end_ s) = inl IndexError).
Proof.
  intros stop. unfold _set_list_elements. fold stop. split; [|split].
  - intros Hle Hstop.
    rewrite set_list_elements_range by lia.
    by replace (start + (stop - start)) with stop by lia.
  - intros Hle. by replace (stop - start) with 0 by lia.
  - intros Hlt Hlen. apply set_list_elements_overrun; lia.
Qed.

Lemma set_list_elements_spec_witness :
  _set_list_elements [true; true; true; true] false 1 (Some 3) doc_skip
    = (inr [true; false; false; true], doc_skip, []) ∧
  _set_list_elements [true; true] false 5 None doc_skip = (inr [true; true], doc_skip, []) ∧
  result_of (_set_list_elements [true; true] false 1 (Some 3) doc_skip) = inl IndexError.
Proof.
  split; [|split].
  - apply (proj1 (set_list_elements_spec [true; true; true; true] false 1 (Some 3)
                    doc_skip)); simpl; lia.
  - apply (proj1 (proj2 (set_list_elements_spec [true; true] false 5 None doc_skip))).
    simpl. lia.
  - apply (proj2 (proj2 (set_list_elements_spec [true; true] false 1 (Some 3) doc_skip)));
      simpl; lia.
Defined.

(** X2. For a window that passes its assertions, [_collect_headers]
    returns the forest that is built by taking the headings of the
    window in document order, leaving out those below an excluded
    heading, and hanging each of the others [level - start_level] levels
    down the last branch of the forest built so far, placeholders being
    made for the levels that branch does not have; the forest is at most
    [stop_level - start_level] levels deep. *)
Theorem collect_headers_forest options (start_level stop_level : Z) (s : Soup) :
  window_ok start_level stop_level →
  let start := Z.to_nat start_level in
  let stop := Z.to_nat stop_level in
  let forest :=
    build_forest start (level_in s)
      (included_from (level_in s) (excluded_in options s) []
         (find_all_in s (header_names start stop))) in
  result_of (_collect_headers options start_level stop_level s) = inr forest ∧
  forest_height forest ≤ stop - start.
Proof.
  intros Hok start stop forest.
  rewrite (collect_headers_spec _ _ _ _ Hok). split; [done|].
  destruct Hok as (H0 & Hlt & Hmax). unfold _MAX_HEADER_LEVEL in Hmax.
  apply build_forest_height. intros h Hh. apply included_from_subset in Hh.
  pose proof (find_all_level s start stop h ltac:(unfold stop; lia) Hh). lia.
Qed.

Lemma collect_headers_forest_witness :
  result_of (_collect_headers default_options 1 6 doc_skip) =
    inr [HeaderTree None [HeaderTree None [HeaderTree (Some 4) []]]] ∧
  forest_height [HeaderTree None [HeaderTree None [HeaderTree (Some 4) []]]] ≤ 5.
Proof.
  apply (collect_headers_forest default_options 1 6 doc_skip).
  unfold window_ok, _MAX_HEADER_LEVEL. lia.
Defined.

(** X3. The log of [_collect_headers] has one record for each heading of
    the window whose [id] is not empty and is in [excludes_children], in
    document order,
    and nothing else: [_is_exclude] is called for a heading before the
    test that drops it, so a heading below an excluded heading is logged
    too when its own [id] is in the set. *)
Theorem collect_headers_log options (start_level stop_level : Z) (s : Soup) :
  window_ok start_level stop_level →
  let hs := find_all_in s (header_names (Z.to_nat start_level) (Z.to_nat stop_level)) in
  let logs := logs_of (_collect_headers options start_level stop_level s) in
  logs = exclusion_logs options s hs ∧
  length logs = length (filter (λ h, excluded_in options s h = true) hs) ∧
  (∀ h u, h ∈ hs → attrs_get "id" (attrs (tag_of s h)) = Some u → u ≠ "" →
          u ∈ excludes_children options →
          LogInfo ("|  (exclude '" +:+ u +:+ "')") ∈ logs).
Proof.
  intros Hok hs logs. subst logs.
  rewrite (collect_headers_spec _ _ _ _ Hok). fold hs.
  change (logs_of (?r, ?s0, ?l)) with l.
  split; [done|]. split.
  - apply exclusion_logs_length.
  - intros h u Hh Hid Hne Hin. unfold exclusion_logs.
    apply list_elem_of_In, in_flat_map. exists h. split; [by apply list_elem_of_In|].
    rewrite Hid. unfold excluded_in, is_excluded. rewrite Hid.
    rewrite decide_False by done. rewrite bool_decide_eq_true_2 by done. by left.
Qed.

Lemma collect_headers_log_witness :
  logs_of (_collect_headers options_exclude_B 0 6 doc_abc) = [LogInfo "|  (exclude 'B')"].
Proof.
  apply (proj1 (collect_headers_log options_exclude_B 0 6 doc_abc
                  ltac:(unfold window_ok, _MAX_HEADER_LEVEL; lia))).
Defined.

(** X4. [_inject_heading_order] never raises, whatever the options and
    the document.  It only adds elements to the document, and it leaves
    every element that is not named [h1] ... [h6] as it was. *)
Theorem inject_heading_order_total options (s : Soup) :
  ∃ (s' : Soup) logs,
    _inject_heading_order options s = (inr tt, s', logs) ∧
    length s ≤ length s' ∧
    (∀ r, r < length s →
          (∀ i, i < 6 → name (tag_of s r) ≠ Some ("h" +:+ pretty (i + 1))) →
          tag_of s' r = tag_of s r).
Proof.
  rewrite inject_heading_order_eq. cbv zeta.
  case_decide as Hle; [by exists s, []|].
  pose proof (clamped_window_ok options (ordered_chapter_level options) Hle) as Hok.
  destruct (number_headers_total options _ _ s Hok) as (s' & logs & Hrun & Hlen & Hframe).
  assert (∀ r, r < length s →
            (∀ i, i < 6 → name (tag_of s r) ≠ Some ("h" +:+ pretty (i + 1))) →
            tag_of s' r = tag_of s r) as Hframe'.
  { intros r Hr Hname. apply Hframe; [done|].
    intros (_ & i & Hi & Hnm)%find_all_headings.
    apply (Hname i); [|done].
    destruct Hok as (_ & _ & Hmax). unfold _MAX_HEADER_LEVEL in Hmax, Hi.
    case_decide; lia. }
  case_decide as Hgt.
  - eexists s', _. split; [|split; [lia|done]].
    rewrite bind_assoc_run, bind_log_run, bind_ret_run, Hrun. reflexivity.
  - exists s', logs. split; [|split; [lia|done]].
    by rewrite bind_ret_run.
Qed.

(** X5. In a well-formed document, [make_link(h)] either returns the new
    list item or raises [IndexError], and it raises exactly when one of
    the fragments of [h] is an [a] element without children (line 47
    reads [el.contents[0]]). *)
Theorem make_link_outcome (s : Soup) h :
  wf_soup s → h < length s →
  (result_of (make_link h s) = inr (length s) ∨
   result_of (make_link h s) = inl IndexError) ∧
  (result_of (make_link h s) = inl IndexError ↔
   Exists (λ el, is_link s el ∧ contents (tag_of s el) = []) (contents (tag_of s h))).
Proof.
  intros Hwf Hh.
  destruct (make_link_cases s 0 h Hwf Hh)
    as [(Hne & s' & cs & Hrun & _)|(Hex & Hfail)].
  - rewrite Hrun. split; [by left|]. split; [done|].
    intros Hex. exfalso. apply Exists_exists in Hex as (el & Hin & Hl & Hc).
    rewrite Forall_forall in Hne. by apply (Hne el Hin Hl).
  - rewrite Hfail. split; [by right|]. done.
Qed.

Lemma make_link_outcome_witness :
  result_of (make_link 2 doc_empty_link) = inl IndexError ↔
  Exists (λ el, is_link doc_empty_link el ∧ contents (tag_of doc_empty_link el) = [])
    (contents (tag_of doc_empty_link 2)).
Proof.
  apply (make_link_outcome doc_empty_link 2).
  - by apply (bool_decide_unpack _); vm_compute.
  - vm_compute. lia.
Defined.

(** X6. In a well-formed document where every [a] fragment of the
    heading [h] has a child, [make_link(h)] returns a new [li] that has no
    parent yet and holds one [a], whose [href] is [#] followed by the id
    of [h] (by nothing when [h] has no id), and it logs one record.  The
    children of the [a] follow the fragments of [h] one for one: for a
    fragment that is an [a] element, the first child of that element,
    itself and not a copy; for any other fragment a new element that
    has the name, attributes and text of the fragment, and that looks
    like the fragment all the way down when the arena lists parents
    before children.  The document stays well-formed. *)
Theorem make_link_item (s : Soup) h :
  wf_soup s → h < length s →
  Forall (λ el, is_link s el → contents (tag_of s el) ≠ []) (contents (tag_of s h)) →
  let li := length s in
  let a := S (length s) in
  let target := default "" (attrs_get "id" (attrs (tag_of s h))) in
  ∃ (s' : Soup) cs,
    make_link h s = (inr li, s', [LogDebugLink h target]) ∧
    wf_soup s' ∧
    tag_of s' li = mkTag (Some "li") [] "" [a] None ∧
    tag_of s' a = mkTag (Some "a") [("href", "#" +:+ target)] "" cs (Some li) ∧
    Forall2 (link_child s (length s) h s') (contents (tag_of s h)) cs.
Proof.
  intros Hwf Hh Hne li a target.
  destruct (make_link_run s (length s) h Hwf Hh Hne) as (s' & cs & Hrun & Hmade).
  destruct Hmade as (Hwf' & _ & Hli & Ha & _ & _ & _ & _ & Hcs).
  by exists s', cs.
Qed.

Lemma make_link_item_witness :
  ∃ (s' : Soup) cs,
    make_link 2 doc_section = (inr 4, s', [LogDebugLink 2 "intro"]) ∧
    wf_soup s' ∧
    tag_of s' 4 = mkTag (Some "li") [] "" [5] None ∧
    tag_of s' 5 = mkTag (Some "a") [("href", "#intro")] "" cs (Some 4) ∧
    Forall2 (link_child doc_section 4 2 s') [3] cs.
Proof.
  apply (make_link_item doc_section 2).
  - by apply (bool_decide_unpack _); vm_compute.
  - vm_compute. lia.
  - by apply (bool_decide_unpack _); vm_compute.
Defined.

(** X7. What [make_link(h)] does to the document it reads, when it
    returns and [h] is not itself an [a] element.  A fragment of [h]
    that is an [a] element loses its first child: that child now has
    the new link for parent and is among the children of the new link.
    A fragment that is not an [a] element is left as it was, and so is
    every other element that is neither such a fragment nor such a first
    child; the children of [h] are the same as before. *)
Theorem make_link_moves (s : Soup) h li (s' : Soup) logs :
  wf_soup s → h < length s → ¬ is_link s h →
  make_link h s = (inr li, s', logs) →
  let a := S (length s) in
  let fragments := contents (tag_of s h) in
  (∀ el, el ∈ fragments → is_link s el →
     ∃ inner rest,
       contents (tag_of s el) = inner :: rest ∧
       contents (tag_of s' el) = rest ∧
       parent (tag_of s' inner) = Some a ∧
       inner ∈ contents (tag_of s' a)) ∧
  (∀ el, el ∈ fragments → ¬ is_link s el → tag_of s' el = tag_of s el) ∧
  contents (tag_of s' h) = fragments ∧
  (∀ r, r < length s → r ∉ link_fragments s fragments →
        r ∉ moved_children s fragments → tag_of s' r = tag_of s r).
Proof.
  intros Hwf Hh Hnlh Hrun a fragments.
  destruct (make_link_inv s (length s) h li s' logs Hwf Hh Hrun)
    as (_ & _ & Hne & cs & Hmade).
  destruct Hmade as (Hwf' & Hlen & Hli & Ha & Hsame & Hcont & Hpar & Hnew & Hcs).
  fold a fragments in Ha, Hcont, Hpar, Hcs.
  assert (∀ r, r < length s → r ∉ link_fragments s fragments →
            r ∉ moved_children s fragments → tag_of s' r = tag_of s r) as Hframe.
  { intros r Hr Hnl Hnm. destruct (Hsame r Hr) as (Hn1 & Hn2 & Hn3).
    apply tag_eq; try done.
    - rewrite Hcont by done. by rewrite decide_False.
    - rewrite Hpar by done. by rewrite decide_False. }
  split; [|split; [|split; [|done]]].
  - intros el Hel Hl.
    destruct (wf_child s h el Hwf Hel) as [Hv _].
    rewrite Forall_forall in Hne.
    destruct (contents (tag_of s el)) as [|inner rest] eqn:Hels;
      [by destruct (Hne el Hel Hl)|].
    exists inner, rest. split; [done|].
    assert (inner < length s) as Hinner.
    { apply (wf_child s el inner Hwf). rewrite Hels. left. }
    split; [|split].
    + rewrite Hcont by done.
      rewrite decide_True by (by apply elem_of_link_fragments). by rewrite Hels.
    + rewrite Hpar by done. rewrite decide_True; [done|].
      apply elem_of_moved_children. exists el. by rewrite Hels.
    + rewrite Ha. simpl.
      apply list_elem_of_lookup_1 in Hel as [i Hi].
      destruct (Forall2_lookup_l _ _ _ _ _ Hcs Hi) as (c & Hc & Hlc).
      unfold link_child in Hlc. rewrite decide_True in Hlc by done.
      rewrite Hels in Hlc. injection Hlc as <-.
      by eapply list_elem_of_lookup_2.
  - intros el Hel Hnl.
    destruct (wf_child s h el Hwf Hel) as [Hv Hp].
    apply Hframe; [done| |].
    + by intros [? _]%elem_of_link_fragments.
    + intros (el' & Hin' & Hl' & Hh')%elem_of_moved_children.
      apply head_elem_of in Hh'.
      destruct (wf_child s el' el Hwf Hh') as [_ Hp'].
      assert (el' = h) by congruence. by subst.
  - rewrite Hcont by done. rewrite decide_False; [done|].
    by intros [? _]%elem_of_link_fragments.
Qed.

Lemma make_link_moves_witness :
  (∀ el, el ∈ [3; 7] → is_link doc_linked el →
     ∃ inner rest,
       contents (tag_of doc_linked el) = inner :: rest ∧
       contents (tag_of (soup_of (make_link 2 doc_linked)) el) = rest ∧
       parent (tag_of (soup_of (make_link 2 doc_linked)) inner) = Some 9 ∧
       inner ∈ contents (tag_of (soup_of (make_link 2 doc_linked)) 9)) ∧
  (∀ el, el ∈ [3; 7] → ¬ is_link doc_linked el →
     tag_of (soup_of (make_link 2 doc_linked)) el = tag_of doc_linked el) ∧
  contents (tag_of (soup_of (make_link 2 doc_linked)) 2) = [3; 7] ∧
  (∀ r, r < 8 → r ∉ link_fragments doc_linked [3; 7] →
        r ∉ moved_children doc_linked [3; 7] →
        tag_of (soup_of (make_link 2 doc_linked)) r = tag_of doc_linked r).
Proof.
  apply (make_link_moves doc_linked 2 8 (soup_of (make_link 2 doc_linked))
           [LogDebugLink 2 "x"]).
  - by apply (bool_decide_unpack _); vm_compute.
  - vm_compute. lia.
  - by vm_compute.
  - by vm_compute.
Defined.

(** X8. The list that [create_toc(headers, parent)] builds mirrors the
    forest.  When the call returns, the [ul] it made first is the last
    child of [parent] and holds one [li] for each header of [headers],
    in their order.  Each [li] holds an [a] whose [href] is [#] followed
    by the [id] of the header's element, or nothing when the header is a
    placeholder, and then, when the header has subheaders, a nested [ul]
    that holds their items in the same way. *)
Theorem create_toc_mirrors_forest headers parent_tag (s s' : Soup) logs :
  wf_soup s → parent_tag < length s →
  name (tag_of s parent_tag) ≠ None → ¬ movable s parent_tag →
  Forall (λ h, h < length s) (real_elements headers) →
  create_toc headers parent_tag s = (inr tt, s', logs) →
  ∃ lis,
    tag_of s' (length s) = mkTag (Some "ul") [] "" lis (Some parent_tag) ∧
    contents (tag_of s' parent_tag) = contents (tag_of s parent_tag) ++ [length s] ∧
    Forall2 (toc_item (S (length s)) s s') headers lis.
Proof.
  intros Hwf Hp Hname Hnm Hvalid Hrun.
  destruct (create_toc_built s headers parent_tag s (inr tt) s' logs)
    as (lis & Hb & Hul & Hitems & _); try done.
  { intros Hl. apply Hnm. by left. }
  { eapply Forall_impl; [exact Hvalid|]. by intros h Hh. }
  exists lis. split; [done|]. split; [|done].
  destruct Hb as (_ & _ & _ & _ & _ & Htag). by rewrite (Htag Hnm).
Qed.

Lemma create_toc_mirrors_forest_witness :
  ∃ lis,
    tag_of (soup_of (create_toc [HeaderTree (Some 2) [HeaderTree (Some 4) []]] 1
                       doc_intro)) 6
      = mkTag (Some "ul") [] "" lis (Some 1) ∧
    contents (tag_of (soup_of (create_toc [HeaderTree (Some 2) [HeaderTree (Some 4) []]]
                                 1 doc_intro)) 1) = [2; 4] ++ [6] ∧
    Forall2 (toc_item 7 doc_intro
               (soup_of (create_toc [HeaderTree (Some 2) [HeaderTree (Some 4) []]] 1
                           doc_intro)))
      [HeaderTree (Some 2) [HeaderTree (Some 4) []]] lis.
Proof.
  apply (create_toc_mirrors_forest [HeaderTree (Some 2) [HeaderTree (Some 4) []]] 1
           doc_intro _
           (logs_of (create_toc [HeaderTree (Some 2) [HeaderTree (Some 4) []]] 1
                       doc_intro))).
  - by apply (bool_decide_unpack _); vm_compute.
  - vm_compute. lia.
  - by vm_compute.
  - by apply (bool_decide_unpack _); vm_compute.
  - by apply (bool_decide_unpack _); vm_compute.
  - by vm_compute.
Defined.

(** X9. What [create_toc(headers, parent)] leaves alone.  When the call
    returns, the document is still well formed, no element that was
    there before has changed its name, its attributes or its text, and
    every such element other than [parent] that is neither an [a]
    element nor the child of an [a] element is exactly as it was: same
    children, same parent. *)
Theorem create_toc_frame headers parent_tag (s s' : Soup) logs :
  wf_soup s → parent_tag < length s →
  name (tag_of s parent_tag) ≠ None → ¬ is_link s parent_tag →
  Forall (λ h, h < length s) (real_elements headers) →
  create_toc headers parent_tag s = (inr tt, s', logs) →
  wf_soup s' ∧ length s < length s' ∧
  (∀ r, r < length s → name (tag_of s' r) = name (tag_of s r) ∧
                       attrs (tag_of s' r) = attrs (tag_of s r) ∧
                       text (tag_of s' r) = text (tag_of s r)) ∧
  (∀ r, r < length s → r ≠ parent_tag → ¬ movable s r → tag_of s' r = tag_of s r).
Proof.
  intros Hwf Hp Hname Hnl Hvalid Hrun.
  destruct (create_toc_built s headers parent_tag s (inr tt) s' logs)
    as (lis & Hb & Hul & _); try done.
  { eapply Forall_impl; [exact Hvalid|]. by intros h Hh. }
  destruct Hb as (Hwf' & Hlen & Hsame & Hframe & _).
  split; [done|]. split; [|done].
  apply (named_valid s' _ "ul"). by rewrite Hul.
Qed.

Lemma create_toc_frame_witness :
  wf_soup (soup_of (create_toc [HeaderTree (Some 2) []] 1 doc_linked)) ∧
  8 < length (soup_of (create_toc [HeaderTree (Some 2) []] 1 doc_linked)) ∧
  (∀ r, r < 8 →
     name (tag_of (soup_of (create_toc [HeaderTree (Some 2) []] 1 doc_linked)) r)
       = name (tag_of doc_linked r) ∧
     attrs (tag_of (soup_of (create_toc [HeaderTree (Some 2) []] 1 doc_linked)) r)
       = attrs (tag_of doc_linked r) ∧
     text (tag_of (soup_of (create_toc [HeaderTree (Some 2) []] 1 doc_linked)) r)
       = text (tag_of doc_linked r)) ∧
  (∀ r, r < 8 → r ≠ 1 → ¬ movable doc_linked r →
     tag_of (soup_of (create_toc [HeaderTree (Some 2) []] 1 doc_linked)) r
       = tag_of doc_linked r).
Proof.
  apply (create_toc_frame [HeaderTree (Some 2) []] 1 doc_linked _
           (logs_of (create_toc [HeaderTree (Some 2) []] 1 doc_linked))).
  - by apply (bool_decide_unpack _); vm_compute.
  - vm_compute. lia.
  - by vm_compute.
  - by vm_compute.
  - by apply (bool_decide_unpack _); vm_compute.
  - by vm_compute.
Defined.

(** X10. The log of [create_toc(headers, parent)], when the call
    returns: one record for each node of the forest, in depth-first
    pre-order, a debug record with the element and its [id] for a header
    and the warning [Adding missed header to TOC] for a placeholder. *)
Theorem create_toc_log headers parent_tag (s s' : Soup) logs :
  wf_soup s → parent_tag < length s →
  name (tag_of s parent_tag) ≠ None → ¬ is_link s parent_tag →
  Forall (λ h, h < length s) (real_elements headers) →
  create_toc headers parent_tag s = (inr tt, s', logs) →
  logs = toc_record s <$> flat_map preorder headers.
Proof.
  intros Hwf Hp Hname Hnl Hvalid Hrun.
  destruct (create_toc_built s headers parent_tag s (inr tt) s' logs)
    as (lis & _ & _ & _ & Hlogs); try done.
  eapply Forall_impl; [exact Hvalid|]. by intros h Hh.
Qed.

Lemma create_toc_log_witness :
  logs_of (create_toc [HeaderTree None [HeaderTree (Some 4) []]] 1 doc_intro) =
  [LogWarning "Adding missed header to TOC"; LogDebugLink 4 "more"].
Proof.
  apply (create_toc_log [HeaderTree None [HeaderTree (Some 4) []]] 1 doc_intro
           (soup_of (create_toc [HeaderTree None [HeaderTree (Some 4) []]] 1 doc_intro))).
  - by apply (bool_decide_unpack _); vm_compute.
  - vm_compute. lia.
  - by vm_compute.
  - by vm_compute.
  - by apply (bool_decide_unpack _); vm_compute.
  - by vm_compute.
Defined.

(** X11. The page that [make_indexes] adds when the table of contents is
    enabled ([toc_level] above the start level) and the call returns.
    With the document taken as [_inject_heading_order] leaves it, the
    new [article] with [id] [doc-toc] is the first child of an element
    named [body]; it holds an [h1] whose only child is the string
    [options.toc_title], and then a [ul] with one list item for each
    top-level header that [_collect_headers] returns for the window from
    the start level to [toc_level] clamped to 6, each item built as
    [create_toc] builds it. *)
Theorem make_indexes_toc_page options (s s' : Soup) logs :
  wf_soup s → ¬ (toc_level options ≤ start_level_of options)%Z →
  make_indexes options s = (inr tt, s', logs) →
  let s1 := soup_of (_inject_heading_order options s) in
  let toc := length s1 in
  let stop_level := if decide (toc_level options > _MAX_HEADER_LEVEL)%Z
                    then _MAX_HEADER_LEVEL else toc_level options in
  let headers := collected options s1 (Z.to_nat (start_level_of options))
                   (Z.to_nat stop_level) in
  ∃ b lis,
    name (tag_of s' b) = Some "body" ∧
    head (contents (tag_of s' b)) = Some toc ∧
    tag_of s' toc =
      mkTag (Some "article") [("id", "doc-toc")] "" [S toc; S (S (S toc))] (Some b) ∧
    tag_of s' (S toc) = mkTag (Some "h1") [] "" [S (S toc)] (Some toc) ∧
    tag_of s' (S (S toc)) = mkTag None [] (toc_title options) [] (Some (S toc)) ∧
    tag_of s' (S (S (S toc))) = mkTag (Some "ul") [] "" lis (Some toc) ∧
    Forall2 (toc_item (S (S (S (S toc)))) s1 s') headers lis.
Proof.
  intros Hwf Hgt Hrun s1 toc stop_level headers.
  destruct (make_indexes_runs options s (inr tt) s' logs Hgt Hrun) as (l2 & Hgen).
  fold s1 stop_level in Hgen.
  destruct (generate_toc_built options _ _ s1 (inr tt) s' l2
              (inject_heading_order_wf options s Hwf)
              (clamped_window_ok options (toc_level options) Hgt) Hgen)
    as (b & lis & _ & _ & Hb & Hhead & Htoc & Htitle & Htext & Hul & Hitems & _).
  by exists b, lis.
Qed.

Lemma make_indexes_toc_page_witness :
  let s1 := soup_of (_inject_heading_order default_options doc_intro) in
  let s' := soup_of (make_indexes default_options doc_intro) in
  let toc := length s1 in
  let stop_level := if decide (toc_level default_options > _MAX_HEADER_LEVEL)%Z
                    then _MAX_HEADER_LEVEL else toc_level default_options in
  let headers := collected default_options s1
                   (Z.to_nat (start_level_of default_options))
                   (Z.to_nat stop_level) in
  ∃ b lis,
    name (tag_of s' b) = Some "body" ∧
    head (contents (tag_of s' b)) = Some toc ∧
    tag_of s' toc =
      mkTag (Some "article") [("id", "doc-toc")] "" [S toc; S (S (S toc))] (Some b) ∧
    tag_of s' (S toc) = mkTag (Some "h1") [] "" [S (S toc)] (Some toc) ∧
    tag_of s' (S (S toc)) =
      mkTag None [] (toc_title default_options) [] (Some (S toc)) ∧
    tag_of s' (S (S (S toc))) = mkTag (Some "ul") [] "" lis (Some toc) ∧
    Forall2 (toc_item (S (S (S (S toc)))) s1 s') headers lis.
Proof.
  apply (make_indexes_toc_page default_options doc_intro
           (soup_of (make_indexes default_options doc_intro))
           (logs_of (make_indexes default_options doc_intro))).
  - by apply (bool_decide_unpack _); vm_compute.
  - vm_compute. by intros H.
  - by vm_compute.
Defined.

(** X12. On a well-formed document [make_indexes] raises nothing but
    [IndexError], at [el.contents[0]] in [make_link], and
    [AttributeError], at [soup.body.insert] when the document has no
    [body]: no assertion fails, and no element is ever inserted into
    itself. *)
Theorem make_indexes_errors options (s : Soup) x :
  wf_soup s →
  result_of (make_indexes options s) = inl x →
  x = IndexError ∨ x = AttributeError.
Proof.
  intros Hwf Hres.
  destruct (make_indexes options s) as [[res s'] logs] eqn:Hrun.
  unfold result_of in Hres. simpl in Hres. subst res.
  destruct (decide (toc_level options ≤ start_level_of options)%Z) as [Hle|Hgt].
  - rewrite make_indexes_eq in Hrun. cbv zeta in Hrun.
    rewrite decide_True in Hrun by done.
    pose proof (inject_heading_order_returns options s) as Hret.
    apply bind_inv in Hrun as [(e & Hinj & _)|([] & s1 & l1 & l2 & _ & [=] & _)].
    rewrite Hinj in Hret. discriminate Hret.
  - destruct (make_indexes_runs options s (inl x) s' logs Hgt Hrun) as (l2 & Hgen).
    exact (generate_toc_built options _ _ _ (inl x) s' l2
             (inject_heading_order_wf options s Hwf)
             (clamped_window_ok options (toc_level options) Hgt) Hgen).
Qed.

Lemma make_indexes_errors_witness :
  result_of (make_indexes default_options doc_empty_link) = inl IndexError ∧
  (IndexError = IndexError ∨ IndexError = AttributeError).
Proof.
  split; [by vm_compute|].
  apply (make_indexes_errors default_options doc_empty_link IndexError).
  - by apply (bool_decide_unpack _); vm_compute.
  - by vm_compute.
Defined.

(** X13. Well-formedness is kept: on a well-formed document (every
    child points back to its parent, every parent lists its child, no
    child is listed twice, strings have no children)
    [_inject_heading_order] leaves a well-formed document, and so does
    [make_indexes] when it returns. *)
Theorem make_indexes_well_formed options (s : Soup) :
  wf_soup s →
  wf_soup (soup_of (_inject_heading_order options s)) ∧
  ∀ (s' : Soup) logs, make_indexes options s = (inr tt, s', logs) → wf_soup s'.
Proof.
  intros Hwf. pose proof (inject_heading_order_wf options s Hwf) as Hwf1.
  split; [done|]. intros s' logs Hrun.
  destruct (decide (toc_level options ≤ start_level_of options)%Z) as [Hle|Hgt].
  - rewrite make_indexes_eq in Hrun. cbv zeta in Hrun.
    rewrite decide_True in Hrun by done.
    apply bind_inv in Hrun as [(e & _ & [=])|([] & s1 & l1 & l2 & Hinj & [= <- <-] & _)].
    rewrite Hinj in Hwf1. done.
  - destruct (make_indexes_runs options s (inr tt) s' logs Hgt Hrun) as (l2 & Hgen).
    destruct (generate_toc_built options _ _ _ (inr tt) s' l2 Hwf1
                (clamped_window_ok options (toc_level options) Hgt) Hgen)
      as (b & lis & Hwf' & _).
    done.
Qed.

Lemma make_indexes_well_formed_witness :
  wf_soup (soup_of (_inject_heading_order default_options doc_intro)) ∧
  ∀ (s' : Soup) logs,
    make_indexes default_options doc_intro = (inr tt, s', logs) → wf_soup s'.
Proof.
  apply (make_indexes_well_formed default_options doc_intro).
  by apply (bool_decide_unpack _); vm_compute.
Defined.

(** X14. In the forest that [_collect_headers] returns, a heading sits
    as many levels down as its level is above [start_level], whatever
    levels the document skips: read in pre-order with their depths, the
    real nodes of the forest are the collected headings in document
    order, each at depth [level - start_level], and this depth is below
    [stop_level - start_level]. *)
Theorem collect_headers_depths options (start_level stop_level : Z) (s : Soup) :
  window_ok start_level stop_level →
  let start := Z.to_nat start_level in
  let stop := Z.to_nat stop_level in
  let included :=
    included_from (level_in s) (excluded_in options s) []
      (find_all_in s (header_names start stop)) in
  ∃ forest,
    result_of (_collect_headers options start_level stop_level s) = inr forest ∧
    forest_depths 0 forest = (λ h, (h, level_in s h - start)) <$> included ∧
    Forall (λ h, start ≤ level_in s h < stop) included.
Proof.
  intros Hok start stop included.
  exists (collected options s start stop). split; [|split].
  - by rewrite (collect_headers_spec _ _ _ _ Hok).
  - apply forest_depths_build_forest.
  - apply Forall_forall. intros h Hh. apply included_from_subset in Hh.
    destruct Hok as (H0 & Hlt & Hmax). unfold _MAX_HEADER_LEVEL in Hmax.
    apply (find_all_level s start stop h); [unfold stop; lia|done].
Qed.

Lemma collect_headers_depths_witness :
  ∃ forest,
    result_of (_collect_headers default_options 0 6 doc_skip) = inr forest ∧
    forest_depths 0 forest = [(2, 0); (4, 3)] ∧
    Forall (λ h, 0 ≤ level_in doc_skip h < 6) [2; 4].
Proof.
  apply (collect_headers_depths default_options 0 6 doc_skip).
  unfold window_ok, _MAX_HEADER_LEVEL. lia.
Defined.
